(** * The progressive render driver of raytracer-wasm (www/index.js)

    The driver creates a world and a camera through the wasm engine, then
    reacts to two buttons.  The probe button bumps a counter and shows it.
    The render button starts an async function that walks the 600 columns
    of the canvas; each column is painted by a [setTimeout] callback and
    the function awaits that callback before it goes to the next column.

    The embedding is a state machine over the host event loop: one step is
    one task (a click handler or a timer callback) run to completion,
    together with the continuation of the async function that the task
    wakes up.  The engine entry points are parameters of the model: they
    take and return the memory of the wasm instance, and [color_at] may
    throw.

    Numbers.  Loop counters, coordinates, canvas sizes and the click
    counter are integers ([Z]).  The components of a color are
    JavaScript numbers, that is binary64 floats: not-a-number, the two
    infinities and the finite doubles.  A finite double is given by the
    rational it denotes, and [255 * component] is the binary64 product:
    the exact product rounded to the nearest double, ties to even. *)

From Stdlib Require Import ZArith QArith Qround Qminmax Qabs Qpower Lqa Lia.
From Stdlib Require Import SpecFloat.
From stdpp Require Import gmap strings list pretty.

Local Open Scope Z_scope.

(** ** Constants of the module *)

Definition CANVAS_WIDTH : Z := 600.
Definition CANVAS_HEIGHT : Z := 300.

(** ** Numbers

    A JavaScript number.  The two zeros are one [Finite 0]: the driver
    only multiplies a component by 255 and stores the product in a
    clamped byte array, which is 0 for both. *)
Inductive Number :=
| NaN
| Infinity (negative : bool)
| Finite (x : Q).

(** The nearest integer, the even one when two are equally near. *)
Definition round (x : Q) : Z :=
  let n := Qfloor (x + (1 # 2)) in
  if Qeq_bool (inject_Z n) (x + (1 # 2)) && Z.odd n then n - 1 else n.

(** [ilog2 x] is the integer [k] with [2 ^ k <= x < 2 ^ (k + 1)], for a
    positive [x]. *)
Definition ilog2 (x : Q) : Z :=
  let k := Z.log2 (Qnum x) - Z.log2 (Zpos (Qden x)) in
  if Qle_bool (2 ^ k) x then k else k - 1.

(** Rounding to binary64 (IEEE 754 roundTiesToEven).  The doubles near
    [x] are the multiples of [2 ^ e], where [e] leaves 53 bits to the
    significand and is at least -1074 (the subnormal doubles); [x] goes
    to the nearest multiple, to the one with an even significand on a
    tie, and to an infinity when that multiple is [2 ^ 1024] or more in
    magnitude. *)
Definition binary64_exponent (x : Q) : Z :=
  Z.max (ilog2 (Qabs x) - 52) (-1074).

Definition binary64_nearest (x : Q) : Q :=
  let ulp := (2 ^ binary64_exponent x)%Q in
  (inject_Z (round (x / ulp)) * ulp)%Q.

Definition binary64 (x : Q) : Number :=
  let y := binary64_nearest x in
  if Qle_bool (2 ^ 1024) (Qabs y) then Infinity (negb (Qle_bool 0 x))
  else Finite y.

(** [a * b] on numbers. *)
Definition Nmul (a b : Number) : Number :=
  match a, b with
  | NaN, _ | _, NaN => NaN
  | Infinity s, Infinity t => Infinity (xorb s t)
  | Infinity s, Finite y =>
      if Qeq_bool y 0 then NaN else Infinity (xorb s (negb (Qle_bool 0 y)))
  | Finite x, Infinity t =>
      if Qeq_bool x 0 then NaN else Infinity (xorb (negb (Qle_bool 0 x)) t)
  | Finite x, Finite y => binary64 (x * y)
  end.

Declare Scope number_scope.
Delimit Scope number_scope with num.
Bind Scope number_scope with Number.
Infix "*" := Nmul : number_scope.

(** [a <= b] on numbers; not-a-number compares with nothing. *)
Definition Nle (a b : Number) : Prop :=
  match a, b with
  | NaN, _ | _, NaN => False
  | Infinity true, _ | _, Infinity false => True
  | Finite x, Finite y => (x <= y)%Q
  | _, _ => False
  end.

Definition Neqb (a b : Number) : bool :=
  match a, b with
  | NaN, NaN => true
  | Infinity s, Infinity t => Bool.eqb s t
  | Finite x, Finite y => Qeq_bool x y
  | _, _ => false
  end.

(** Numbers and the floats of the Standard Library's specification of
    IEEE 754 arithmetic, to compare [Nmul] with [SFmul]. *)
Definition of_spec_float (f : spec_float) : Number :=
  match f with
  | S754_zero _ => Finite 0
  | S754_infinity s => Infinity s
  | S754_nan => NaN
  | S754_finite s m e =>
      Finite (inject_Z (if s then Z.neg m else Z.pos m) * 2 ^ e)
  end.

Definition to_spec_float (n : Number) : spec_float :=
  match n with
  | NaN => S754_nan
  | Infinity s => S754_infinity s
  | Finite x =>
      let e := binary64_exponent x in
      match round (x / 2 ^ e) with
      | Z0 => S754_zero false
      | Z.pos m => S754_finite false m e
      | Z.neg m => S754_finite true m e
      end
  end.

(** ** Colors and what the engine hands back *)

Record Color := mkColor { red : Number; green : Number; blue : Number }.

(** A call into the engine either returns a color or throws. *)
Inductive Result (Exn : Type) : Type :=
| Value (color : Color)
| Raise (e : Exn).
Arguments Value {Exn} color.
Arguments Raise {Exn} e.

(** ** Storing a number into a Uint8ClampedArray

    [imageData.data] is a [Uint8ClampedArray]; an element store converts
    the number with the ToUint8Clamp operation of ECMAScript:
    not-a-number gives 0; otherwise clamp the number between 0 and 255
    (an infinity included), take the floor [f], go to [f] or [f + 1]
    whichever is nearer, and to the even one of the two on a tie. *)
Definition clamped (number : Number) : Q :=
  match number with
  | NaN => 0
  | Infinity negative => if negative then 0 else 255
  | Finite x => Qmin (Qmax x 0) 255
  end.

Definition ToUint8Clamp (number : Number) : Z :=
  match number with
  | NaN => 0
  | _ =>
      let clamped := clamped number in
      let f := Qfloor clamped in
      match (clamped ?= inject_Z f + (1 # 2))%Q with
      | Lt => f
      | Gt => f + 1
      | Eq => if Z.even f then f else f + 1
      end
  end.

(** [array[k] = number] on a Uint8ClampedArray; a store past the end of a
    typed array is ignored, as [<[k:=_]>] does. *)
Definition typed_store (array : list Z) (k : nat) (number : Number) : list Z :=
  <[k := ToUint8Clamp number]> array.

(** ** The sink, in the words of the interface section

    "byte components computed as round(255 * clamp(component, 0, 1))",
    read on the value of a finite component and in exact arithmetic.
    [round] is rounding to the nearest integer; a value half-way
    between two integers goes to the even one. *)
Definition clamp (x lo hi : Q) : Q :=
  if Qlt_le_dec x lo then lo else if Qlt_le_dec hi x then hi else x.

Definition sink_byte (component : Q) : Z :=
  round (255 * clamp component 0 1).

(** [n] is an integer nearest to [x], and the even one of the two when
    [x] lies half-way between two integers. *)
Definition nearest_even (x : Q) (n : Z) : Prop :=
  (inject_Z n - (1 # 2) <= x)%Q ∧ (x <= inject_Z n + (1 # 2))%Q ∧
  ((x == inject_Z n - (1 # 2))%Q ∨ (x == inject_Z n + (1 # 2))%Q →
   Z.even n = true).

(** ** The canvas and its 2d context *)

Record Pixel := mkPixel { R : Z; G : Z; B : Z; A : Z }.

Definition transparent_black : Pixel := mkPixel 0 0 0 0.

(** The canvas element: its size attributes and its bitmap.  A
    coordinate that is not in the map is transparent black. *)
Record Canvas := mkCanvas {
  width : Z;
  height : Z;
  bitmap : gmap (Z * Z) Pixel
}.

(** Assigning [width] or [height] resizes the canvas and clears it. *)
Definition set_width (c : Canvas) (w : Z) : Canvas :=
  mkCanvas w (height c) ∅.
Definition set_height (c : Canvas) (h : Z) : Canvas :=
  mkCanvas (width c) h ∅.

Record ImageData := mkImageData {
  image_width : Z;
  image_height : Z;
  data : list Z
}.

Definition set_data (img : ImageData) (d : list Z) : ImageData :=
  mkImageData (image_width img) (image_height img) d.

Definition in_canvas (c : Canvas) (xy : Z * Z) : bool :=
  (0 <=? xy.1) && (xy.1 <? width c) && (0 <=? xy.2) && (xy.2 <? height c).

Definition pixel_at (c : Canvas) (xy : Z * Z) : Pixel :=
  if in_canvas c xy then default transparent_black (bitmap c !! xy)
  else transparent_black.

Definition pixel_bytes (px : Pixel) : list Z := [R px; G px; B px; A px].

Fixpoint pixels_of (d : list Z) : list Pixel :=
  match d with
  | r :: g :: b :: a :: d' => mkPixel r g b a :: pixels_of d'
  | _ => []
  end.

(** The coordinates of a [sw] by [sh] rectangle at [(sx, sy)], row by
    row, which is the order of the pixels in an [ImageData]. *)
Definition rect (sx sy sw sh : Z) : list (Z * Z) :=
  y ← seqZ sy sh; x ← seqZ sx sw; [(x, y)].

(** [ctx.getImageData(sx, sy, sw, sh)] copies a rectangle out. *)
Definition getImageData (c : Canvas) (sx sy sw sh : Z) : ImageData :=
  mkImageData sw sh (xy ← rect sx sy sw sh; pixel_bytes (pixel_at c xy)).

Definition set_pixel (c : Canvas) (xy : Z * Z) (px : Pixel) : Canvas :=
  if in_canvas c xy then mkCanvas (width c) (height c) (<[xy := px]> (bitmap c))
  else c.

(** [ctx.putImageData(img, dx, dy)] copies the image in; what falls
    outside the canvas is dropped. *)
Definition putImageData (c : Canvas) (img : ImageData) (dx dy : Z) : Canvas :=
  foldl (λ c' '(xy, px), set_pixel c' xy px) c
        (zip (rect dx dy (image_width img) (image_height img))
             (pixels_of (data img))).

(** Pixels in the order the render handler visits them: column by
    column, and top to bottom inside a column. *)
Definition column_major (w h : Z) : list (Z * Z) :=
  i ← seqZ 0 w; pair i <$> seqZ 0 h.

(** ** Small engines to run the driver on

    [Gradient] always returns; its memory counts the calls it served.
    [Trap] throws at pixel (0, 2) and nowhere else.  [Checked] fails
    with a bounds error outside the raster of its camera.  [Flat]
    returns one color everywhere. *)
Module Gradient.
Definition create_world (m : nat) : unit * nat := (tt, m).
Definition create_camera (w h : Z) (m : nat) : (Z * Z) * nat := ((w, h), m).
Definition color_at (_ : unit) (cam : Z * Z) (px py : Z) (m : nat)
  : Result string * nat :=
  (Value (mkColor (binary64 (px # Z.to_pos cam.1))
                  (binary64 (py # Z.to_pos cam.2))
                  (Finite (3 # 2))), S m).
End Gradient.

Module Trap.
Definition color_at (_ : unit) (cam : Z * Z) (px py : Z) (m : nat)
  : Result string * nat :=
  if (px =? 0) && (py =? 2) then (Raise "unreachable", m)
  else Gradient.color_at tt cam px py m.
End Trap.

Module Checked.
Definition color_at (_ : unit) (cam : Z * Z) (px py : Z) (m : nat)
  : Result string * nat :=
  if (0 <=? px) && (px <? cam.1) && (0 <=? py) && (py <? cam.2)
  then Gradient.color_at tt cam px py m
  else (Raise "out of range", m).
End Checked.

Module Flat.
(** The double 4662550202454161 / 2^56, a little under 0.0647. *)
Definition dim : Q := 4662550202454161 # 72057594037927936.
Definition color : Color := mkColor (Finite 0) (Finite dim) (Finite (1 # 2)).
Definition color_at (_ : unit) (_ : Z * Z) (_ _ : Z) (m : nat)
  : Result string * nat :=
  (Value color, m).
End Flat.

(** ** The driver *)

(** A callback handed to [setTimeout]: it belongs to one invocation of
    the render handler (a pass, numbered in the order of the clicks) and
    has captured the column [i] of that iteration. *)
Record Timer := mkTimer { pass : nat; column : Z }.

(** What the host can do next: deliver a click, or run the [k]-th
    pending timer callback. *)
Inductive Event :=
| ClickFreezed
| ClickRender
| TimerFires (k : nat).

(** The number of clicks on the probe button in a schedule. *)
Fixpoint freezed_clicks (evs : list Event) : nat :=
  match evs with
  | [] => 0
  | ClickFreezed :: evs => S (freezed_clicks evs)
  | _ :: evs => freezed_clicks evs
  end.

(** The number of clicks on the render button in a schedule. *)
Fixpoint render_clicks (evs : list Event) : nat :=
  match evs with
  | [] => 0
  | ClickRender :: evs => S (render_clicks evs)
  | _ :: evs => render_clicks evs
  end.

(** A schedule without its clicks on the probe button. *)
Fixpoint without_probe (evs : list Event) : list Event :=
  match evs with
  | [] => []
  | ClickFreezed :: evs => without_probe evs
  | ev :: evs => ev :: without_probe evs
  end.

Section Driver.
Context {World Camera Exn Mem : Type}.

(** The imports from the wasm package. *)
Variable wasm_create_world : Mem → World * Mem.
Variable wasm_create_camera : Z → Z → Mem → Camera * Mem.
Variable wasm_color_at : World → Camera → Z → Z → Mem → Result Exn * Mem.

(** The page as it is before the module runs. *)
Variable page_canvas : Canvas.
Variable page_text : string.

(** What an execution leaves behind, oldest first: the two creations
    of the module body, the [console.log] of a render click, the start
    of a column callback, each call of [color_at] with its arguments
    and its answer, each [putImageData] with its arguments, an
    exception that left a callback, the return of the async function.
    The pass number tells which invocation of the render handler
    acted. *)
Inductive Obs :=
| ObsCreateWorld (w : World)
| ObsCreateCamera (w h : Z) (c : Camera)
| ObsLog (p : nat) (msg : string)
| ObsTask (p : nat) (i : Z)
| ObsColorAt (p : nat) (w : World) (c : Camera) (i j : Z) (r : Result Exn)
| ObsPut (p : nat) (d : list Z) (x y : Z)
| ObsUncaught (p : nat) (e : Exn)
| ObsDone (p : nat).

(** The state between two tasks.  The loops read their bounds from
    [canvas.width] and [canvas.height], where [canvas] is the global
    that the page binds to the element with id "canvas": the element
    that [$canvas] holds, hence one field for both. *)
Record State := mkState {
  wasm : Mem;                  (* memory of the wasm instance *)
  world : World;               (* const world *)
  camera : Camera;             (* const camera *)
  count : Z;                   (* let count *)
  canvas : Canvas;             (* the element with id "canvas" *)
  freezedText : string;        (* innerHTML of "freezed-text" *)
  timers : list Timer;         (* pending setTimeout callbacks *)
  passes : nat;                (* render handler invocations so far *)
  trace : list Obs
}.

Definition set_wasm (st : State) (m : Mem) : State :=
  mkState m (world st) (camera st) (count st) (canvas st) (freezedText st)
          (timers st) (passes st) (trace st).
Definition set_count (st : State) (n : Z) : State :=
  mkState (wasm st) (world st) (camera st) n (canvas st) (freezedText st)
          (timers st) (passes st) (trace st).
Definition set_canvas (st : State) (c : Canvas) : State :=
  mkState (wasm st) (world st) (camera st) (count st) c (freezedText st)
          (timers st) (passes st) (trace st).
Definition set_freezedText (st : State) (s : string) : State :=
  mkState (wasm st) (world st) (camera st) (count st) (canvas st) s
          (timers st) (passes st) (trace st).
Definition set_timers (st : State) (ts : list Timer) : State :=
  mkState (wasm st) (world st) (camera st) (count st) (canvas st)
          (freezedText st) ts (passes st) (trace st).
Definition set_passes (st : State) (n : nat) : State :=
  mkState (wasm st) (world st) (camera st) (count st) (canvas st)
          (freezedText st) (timers st) n (trace st).
Definition log (st : State) (o : Obs) : State :=
  mkState (wasm st) (world st) (camera st) (count st) (canvas st)
          (freezedText st) (timers st) (passes st) (trace st ++ [o]).

(** Module body, lines 3 to 11: the world and the camera are created,
    the canvas gets its size. *)
Definition init (m : Mem) : State :=
  let '(w, m) := wasm_create_world m in
  let '(c, m) := wasm_create_camera CANVAS_WIDTH CANVAS_HEIGHT m in
  let cv := set_height (set_width page_canvas CANVAS_WIDTH) CANVAS_HEIGHT in
  mkState m w c 0 cv page_text [] 0
          [ObsCreateWorld w; ObsCreateCamera CANVAS_WIDTH CANVAS_HEIGHT c].

(** The click handler of the probe button. *)
Definition on_freezed_click (st : State) : State :=
  let st := set_count st (count st + 1) in
  set_freezedText st ("No, you are not! (" +:+ pretty (count st) +:+ ")").

(** The outcome of running a piece of a callback. *)
Inductive Outcome :=
| Returned (st : State)
| Threw (e : Exn) (st : State).

(** The body of the inner loop, for pixel [(i, j)]. *)
Definition render_pixel (p : nat) (i j : Z) (st : State) : Outcome :=
  let '(r, m) := wasm_color_at (world st) (camera st) i j (wasm st) in
  let st := log (set_wasm st m) (ObsColorAt p (world st) (camera st) i j r) in
  match r with
  | Raise e => Threw e st
  | Value color =>
      let imageData := getImageData (canvas st) i j 1 1 in
      let imageData :=
        set_data imageData
          (typed_store (data imageData) 0 (Finite 255 * red color)%num) in
      let imageData :=
        set_data imageData
          (typed_store (data imageData) 1 (Finite 255 * green color)%num) in
      let imageData :=
        set_data imageData
          (typed_store (data imageData) 2 (Finite 255 * blue color)%num) in
      let imageData :=
        set_data imageData (typed_store (data imageData) 3 (Finite 255)) in
      Returned (log (set_canvas st (putImageData (canvas st) imageData i j))
                    (ObsPut p (data imageData) i j))
  end.

(** [for (let j = ...; j < canvas.height; j++)] from [j] on.  The bound
    is read again at every turn; [None] is an exhausted fuel. *)
Fixpoint column_loop (fuel : nat) (p : nat) (i j : Z) (st : State)
  : option Outcome :=
  if j <? height (canvas st) then
    match fuel with
    | O => None
    | S fuel =>
        match render_pixel p i j st with
        | Returned st => column_loop fuel p i (j + 1) st
        | Threw e st => Some (Threw e st)
        end
    end
  else Some (Returned st).

(** The head of the outer loop of the async function, entered with the
    value of [i]: either a new promise is made, whose executor hands
    the column callback to [setTimeout] and on which the function then
    waits, or the function returns. *)
Definition loop_head (p : nat) (i : Z) (st : State) : State :=
  if i <? width (canvas st) then set_timers st (timers st ++ [mkTimer p i])
  else log st (ObsDone p).

(** The click handler of the render button, up to its first [await]:
    [console.log], [getContext] (the context draws on [canvas st]),
    [let i = 0] and the head of the loop. *)
Definition on_render_click (st : State) : State :=
  let p := passes st in
  let st := log (set_passes st (S p)) (ObsLog p "rendering!") in
  loop_head p 0 st.

(** A timer callback and what it wakes up.  When the column is done
    the callback calls [resolve] and the async function goes on with
    [i++]; when [color_at] throws, the exception leaves the callback,
    [resolve] is never called and the function waits for ever. *)
Definition timer_callback (t : Timer) (st : State) : option State :=
  let st := log st (ObsTask (pass t) (column t)) in
  match column_loop (Z.to_nat (height (canvas st))) (pass t) (column t) 0 st with
  | None => None
  | Some (Returned st) => Some (loop_head (pass t) (column t + 1) st)
  | Some (Threw e st) => Some (log st (ObsUncaught (pass t) e))
  end.

(** One task of the event loop.  Any pending timer may be the next
    to fire.  [None]: the event cannot happen. *)
Definition step (st : State) (ev : Event) : option State :=
  match ev with
  | ClickFreezed => Some (on_freezed_click st)
  | ClickRender => Some (on_render_click st)
  | TimerFires k =>
      match timers st !! k with
      | Some t => timer_callback t (set_timers st (delete k (timers st)))
      | None => None
      end
  end.

(** A schedule is a list of events; an event that cannot happen is
    skipped. *)
Definition fire (st : State) (ev : Event) : State := default st (step st ev).
Definition exec (st : State) (evs : list Event) : State := foldl fire st evs.

(** *** Reading a trace *)

Definition calls (p : nat) (tr : list Obs) : list (Z * Z * Result Exn) :=
  omap (λ o, match o with
             | ObsColorAt q _ _ i j r => if decide (q = p) then Some (i, j, r) else None
             | _ => None
             end) tr.

Definition puts (p : nat) (tr : list Obs) : list (Z * Z * list Z) :=
  omap (λ o, match o with
             | ObsPut q d x y => if decide (q = p) then Some (x, y, d) else None
             | _ => None
             end) tr.

Definition tasks (p : nat) (tr : list Obs) : list Z :=
  omap (λ o, match o with
             | ObsTask q i => if decide (q = p) then Some i else None
             | _ => None
             end) tr.

(** *** What a column leaves behind

    The bytes a returned color is stored as, and the observations,
    canvas and engine memory after the pixels of column [i] from row
    [j] on, when the engine answers [rs]. *)
Definition rgba (color : Color) : list Z :=
  [ToUint8Clamp (Finite 255 * red color); ToUint8Clamp (Finite 255 * green color);
   ToUint8Clamp (Finite 255 * blue color); 255].

Definition rgba_pixel (color : Color) : Pixel :=
  mkPixel (ToUint8Clamp (Finite 255 * red color))
          (ToUint8Clamp (Finite 255 * green color))
          (ToUint8Clamp (Finite 255 * blue color)) 255.

Definition pixel_obs (p : nat) (w : World) (c : Camera) (i j : Z)
           (r : Result Exn) : list Obs :=
  ObsColorAt p w c i j r ::
  match r with Value color => [ObsPut p (rgba color) i j] | Raise _ => [] end.

Fixpoint column_obs (p : nat) (w : World) (c : Camera) (i j : Z)
         (rs : list (Result Exn)) : list Obs :=
  match rs with
  | [] => []
  | r :: rs => pixel_obs p w c i j r ++ column_obs p w c i (j + 1) rs
  end.

Fixpoint paint (cv : Canvas) (i j : Z) (rs : list (Result Exn)) : Canvas :=
  match rs with
  | [] => cv
  | Value color :: rs => paint (set_pixel cv (i, j) (rgba_pixel color)) i (j + 1) rs
  | Raise _ :: rs => paint cv i (j + 1) rs
  end.

Definition after_calls (w : World) (c : Camera) (coords : list (Z * Z))
           (m : Mem) : Mem :=
  foldl (λ m ij, (wasm_color_at w c ij.1 ij.2 m).2) m coords.

Definition is_value (r : Result Exn) : Prop :=
  match r with Value _ => True | Raise _ => False end.

(** The write that follows a call. *)
Definition written (call : Z * Z * Result Exn) : option (Z * Z * list Z) :=
  match call.2 with
  | Value color => Some (call.1, rgba color)
  | Raise _ => None
  end.

Definition obs_pass (o : Obs) : option nat :=
  match o with
  | ObsCreateWorld _ | ObsCreateCamera _ _ _ => None
  | ObsLog p _ | ObsTask p _ | ObsColorAt p _ _ _ _ _ | ObsPut p _ _ _
  | ObsUncaught p _ | ObsDone p => Some p
  end.

Definition outcome_state (out : Outcome) : State :=
  match out with Returned st => st | Threw _ st => st end.

(** Every call of every pass, in the order they were made. *)
Definition all_calls (tr : list Obs) : list (World * Camera * (Z * Z)) :=
  omap (λ o, match o with
             | ObsColorAt _ w c i j _ => Some (w, c, (i, j))
             | _ => None
             end) tr.

(** The column tasks of all passes, in the order they ran. *)
Definition all_tasks (tr : list Obs) : list (nat * Z) :=
  omap (λ o, match o with ObsTask p i => Some (p, i) | _ => None end) tr.

(** What the engine answered, call after call. *)
Definition results (tr : list Obs) : list (Result Exn) :=
  omap (λ o, match o with ObsColorAt _ _ _ _ _ r => Some r | _ => None end) tr.

(** [r] is an answer of the engine to some call. *)
Definition answered (r : Result Exn) : Prop :=
  ∃ w c i j m, r = (wasm_color_at w c i j m).1.

Definition creations (tr : list Obs) : list Obs :=
  filter (λ o, obs_pass o = None) tr.

Definition uncaught (p : nat) (tr : list Obs) : Prop :=
  ∃ e, ObsUncaught p e ∈ tr.

(** Where a pass stands: not started, waiting for the callback of
    column [i], returned, or stuck on a promise that nobody resolves. *)
Inductive pass_status (st : State) (p : nat) : Prop :=
| Unstarted :
    (passes st ≤ p)%nat →
    Forall (λ o, obs_pass o ≠ Some p) (trace st) →
    p ∉ pass <$> timers st →
    pass_status st p
| Active (i : Z) :
    (p < passes st)%nat →
    0 ≤ i < CANVAS_WIDTH →
    mkTimer p i ∈ timers st →
    tasks p (trace st) = seqZ 0 i →
    (calls p (trace st)).*1 = column_major i CANVAS_HEIGHT →
    Forall is_value (calls p (trace st)).*2 →
    ObsDone p ∉ trace st →
    ¬ uncaught p (trace st) →
    pass_status st p
| Finished :
    (p < passes st)%nat →
    p ∉ pass <$> timers st →
    tasks p (trace st) = seqZ 0 CANVAS_WIDTH →
    (calls p (trace st)).*1 = column_major CANVAS_WIDTH CANVAS_HEIGHT →
    Forall is_value (calls p (trace st)).*2 →
    ObsDone p ∈ trace st →
    ¬ uncaught p (trace st) →
    pass_status st p
| Stalled (i j : Z) (e : Exn) (vs : list (Z * Z * Result Exn)) :
    (p < passes st)%nat →
    p ∉ pass <$> timers st →
    0 ≤ i < CANVAS_WIDTH →
    0 ≤ j < CANVAS_HEIGHT →
    tasks p (trace st) = seqZ 0 (i + 1) →
    calls p (trace st) = vs ++ [(i, j, Raise e)] →
    vs.*1 = column_major i CANVAS_HEIGHT ++ (pair i <$> seqZ 0 j) →
    Forall is_value vs.*2 →
    ObsUncaught p e ∈ trace st →
    ObsDone p ∉ trace st →
    pass_status st p.

(** What holds of every state the driver can be in. *)
Record invariant (m0 : Mem) (st : State) : Prop := {
  inv_width : width (canvas st) = CANVAS_WIDTH;
  inv_height : height (canvas st) = CANVAS_HEIGHT;
  inv_world : world st = world (init m0);
  inv_camera : camera st = camera (init m0);
  inv_timers : NoDup (pass <$> timers st);
  inv_status : ∀ p, pass_status st p;
  inv_puts : ∀ p, puts p (trace st) = omap written (calls p (trace st));
  inv_creations : creations (trace st) = trace (init m0);
  inv_calls : Forall (λ call, call.1 = (world (init m0), camera (init m0)))
                     (all_calls (trace st));
  inv_wasm : wasm st = after_calls (world (init m0)) (camera (init m0))
                                   (all_calls (trace st)).*2 (wasm (init m0));
  inv_answered : Forall answered (results (trace st));
  inv_bitmap : ∀ xy px, bitmap (canvas st) !! xy = Some px →
                 ∃ p color, (xy.1, xy.2, Value color) ∈ calls p (trace st) ∧
                            px = rgba_pixel color;
  inv_alpha : ∀ xy px, bitmap (canvas st) !! xy = Some px → A px = 255;
  inv_painted : ∀ p x y d, (x, y, d) ∈ puts p (trace st) →
                  in_canvas (canvas st) (x, y) = true →
                  is_Some (bitmap (canvas st) !! (x, y))
}.

(** The end of a column task: the next column is scheduled and
    nothing is observed, or the pass returns, or it dies. *)
Definition is_end (p : nat) (tail : list Obs) : Prop :=
  tail = [] ∨ tail = [ObsDone p] ∨ ∃ e, tail = [ObsUncaught p e].


(** The engine returns a color whenever it is called. *)
Definition always_returns : Prop :=
  ∀ w c i j m, is_value (wasm_color_at w c i j m).1.

(** The engine returns a color for every pixel of the raster, with the
    world and the camera of the module and in every memory. *)
Definition returns_in_range (m0 : Mem) : Prop :=
  ∀ i j m, 0 ≤ i < CANVAS_WIDTH → 0 ≤ j < CANVAS_HEIGHT →
           is_value (wasm_color_at (world (init m0)) (camera (init m0)) i j m).1.


(** *** More ways to read a schedule, a trace and the timers *)

(** The pixel that a 1 by 1 image data of four bytes holds. *)
Definition data_pixel (d : list Z) : Pixel :=
  mkPixel (d !!! 0%nat) (d !!! 1%nat) (d !!! 2%nat) (d !!! 3%nat).

(** Every [putImageData] of every pass, in the order they were made. *)
Definition all_puts (tr : list Obs) : list (Z * Z * list Z) :=
  omap (λ o, match o with ObsPut _ d x y => Some (x, y, d) | _ => None end) tr.

(** The image data most recently put at [xy], if any. *)
Definition last_put (xy : Z * Z) (ps : list (Z * Z * list Z))
  : option (list Z) :=
  foldl (λ found put, if decide (put.1 = xy) then Some put.2 else found)
        None ps.

(** What [console.log] printed, with the pass that printed it. *)
Definition logs (tr : list Obs) : list (nat * string) :=
  omap (λ o, match o with ObsLog p msg => Some (p, msg) | _ => None end) tr.

(** The column tasks that the pending callbacks still stand for: a
    callback that holds column [i] stands for the columns [i] to 599. *)
Definition remaining (ts : list Timer) : Z :=
  foldr (λ t n, (CANVAS_WIDTH - column t) + n) 0 ts.

(** An observed answer is the one the engine gives to the observed
    arguments, in some memory. *)
Definition honest (o : Obs) : Prop :=
  match o with
  | ObsColorAt _ w c i j r => ∃ m, r = (wasm_color_at w c i j m).1
  | _ => True
  end.

(** The answer of the engine does not depend on its memory. *)
Definition memoryless : Prop :=
  ∀ w c i j m m', (wasm_color_at w c i j m).1 = (wasm_color_at w c i j m').1.

(** A state with the counter and the text of the probe replaced. *)
Definition with_probe (st : State) (n : Z) (text : string) : State :=
  set_freezedText (set_count st n) text.

Definition map_outcome (f : State → State) (out : Outcome) : Outcome :=
  match out with
  | Returned st => Returned (f st)
  | Threw e st => Threw e (f st)
  end.


(** ** Numbers and bytes *)

Lemma inject_Z_succ n : (inject_Z (n + 1) == inject_Z n + 1)%Q.
Proof. by rewrite inject_Z_plus. Qed.

Lemma inject_Z_pred n : (inject_Z (n - 1) == inject_Z n - 1)%Q.
Proof. unfold Z.sub. rewrite inject_Z_plus, inject_Z_opp. reflexivity. Qed.

Lemma nearest_even_unique x n m :
  nearest_even x n → nearest_even x m → n = m.
Proof.
  intros (Hn1 & Hn2 & Hn3) (Hm1 & Hm2 & Hm3).
  assert (Hnm : (inject_Z n <= inject_Z m + 1)%Q) by lra.
  assert (Hmn : (inject_Z m <= inject_Z n + 1)%Q) by lra.
  rewrite <- inject_Z_succ in Hnm, Hmn. rewrite <- Zle_Qle in Hnm, Hmn.
  destruct (decide (n = m)) as [|Hne]; [done|exfalso].
  assert (n = m + 1 ∨ m = n + 1) as [->| ->] by lia.
  - assert (Heq : (x == inject_Z m + (1 # 2))%Q).
    { rewrite inject_Z_succ in Hn1. lra. }
    specialize (Hm3 (or_intror Heq)).
    rewrite Z.even_add, Hm3 in Hn3. simpl in Hn3.
    discriminate Hn3. left. rewrite inject_Z_succ. lra.
  - assert (Heq : (x == inject_Z n + (1 # 2))%Q).
    { rewrite inject_Z_succ in Hm1. lra. }
    specialize (Hn3 (or_intror Heq)).
    rewrite Z.even_add, Hn3 in Hm3. simpl in Hm3.
    discriminate Hm3. left. rewrite inject_Z_succ. lra.
Qed.

Lemma nearest_even_proper x y n :
  (x == y)%Q → nearest_even x n → nearest_even y n.
Proof.
  intros Hxy (H1 & H2 & H3). repeat split; [lra|lra|].
  intros [?|?]; apply H3; [left|right]; lra.
Qed.

Lemma round_nearest_even x : nearest_even x (round x).
Proof.
  unfold round.
  pose proof (Qfloor_le (x + (1 # 2))) as Hlo.
  pose proof (Qlt_floor (x + (1 # 2))) as Hhi.
  set (n := Qfloor (x + (1 # 2))) in *. rewrite inject_Z_succ in Hhi.
  destruct (Qeq_bool (inject_Z n) (x + (1 # 2))) eqn:Heq; simpl.
  - apply Qeq_bool_iff in Heq. destruct (Z.odd n) eqn:Hodd.
    + repeat split; rewrite ?inject_Z_pred; [lra|lra|].
      intros _. rewrite Z.even_sub, <- Z.negb_odd, Hodd. reflexivity.
    + repeat split; [lra|lra|]. intros _. by rewrite <- Z.negb_odd, Hodd.
  - apply Qeq_bool_neq in Heq. repeat split; [lra|lra|].
    intros [?|?]; exfalso; [apply Heq|]; lra.
Qed.

Lemma nearest_even_mono x y n m :
  (x <= y)%Q → nearest_even x n → nearest_even y m → n ≤ m.
Proof.
  intros Hxy (Hn1 & Hn2 & Hn3) (Hm1 & Hm2 & Hm3).
  destruct (decide (n ≤ m)) as [|Hgt]; [done|exfalso].
  assert (Hle : (inject_Z (m + 1) <= inject_Z n)%Q) by (rewrite <- Zle_Qle; lia).
  rewrite inject_Z_succ in Hle.
  assert (Hx : (x == inject_Z n - (1 # 2))%Q) by lra.
  assert (Hy : (y == inject_Z m + (1 # 2))%Q) by lra.
  assert (Hnm : (inject_Z n == inject_Z (m + 1))%Q).
  { rewrite inject_Z_succ. lra. }
  rewrite inject_Z_injective in Hnm. subst n.
  specialize (Hn3 (or_introl Hx)). specialize (Hm3 (or_intror Hy)).
  rewrite Z.even_add, Hm3 in Hn3. discriminate Hn3.
Qed.

(** ** Rounding to the nearest integer *)

Lemma round_mono x y : (x <= y)%Q → round x ≤ round y.
Proof.
  intros Hxy. eapply nearest_even_mono; [done|apply round_nearest_even..].
Qed.

Lemma round_proper x y : (x == y)%Q → round x = round y.
Proof.
  intros Hxy. apply (nearest_even_unique y); [|apply round_nearest_even].
  eapply nearest_even_proper; [done|apply round_nearest_even].
Qed.

Lemma round_inject_Z n : round (inject_Z n) = n.
Proof.
  apply (nearest_even_unique (inject_Z n)); [apply round_nearest_even|].
  repeat split; [lra|lra|]. intros [?|?]; lra.
Qed.

Lemma round_opp x : round (- x) = - round x.
Proof.
  apply (nearest_even_unique (- x)); [apply round_nearest_even|].
  destruct (round_nearest_even x) as (H1 & H2 & H3).
  repeat split; rewrite ?inject_Z_opp; [lra|lra|].
  intros [?|?]; rewrite Z.even_opp; apply H3; [right|left]; lra.
Qed.

(** ** Powers of two *)

Lemma pow2_pos e : (0 < 2 ^ e)%Q.
Proof. by apply Qpower_0_lt. Qed.

Lemma pow2_le a b : a ≤ b → (2 ^ a <= 2 ^ b)%Q.
Proof. intros Hab. by apply Qpower_le_compat_l. Qed.

Lemma pow2_lt_inv a b : (2 ^ a < 2 ^ b)%Q → a < b.
Proof. intros Hab. by eapply Qpower_lt_compat_l_inv. Qed.

Lemma pow2_inject n : 0 ≤ n → (2 ^ n == inject_Z (2 ^ n))%Q.
Proof. intros Hn. by rewrite Zpower_Qpower. Qed.

Lemma pow2_div a b : (2 ^ a / 2 ^ b == 2 ^ (a - b))%Q.
Proof. by rewrite Qpower_minus. Qed.

Lemma pow2_succ a : (2 ^ (a + 1) == 2 * 2 ^ a)%Q.
Proof. rewrite Qpower_plus by done. change (2 ^ 1)%Q with 2%Q. lra. Qed.

Lemma Qlt_div_r x y z : (0 < z)%Q → (x * z < y)%Q → (x < y / z)%Q.
Proof. intros Hz H. apply Qlt_shift_div_l; done. Qed.

Lemma Qle_div_l x y z : (0 < z)%Q → (y <= x * z)%Q → (y / z <= x)%Q.
Proof. intros Hz H. apply Qle_shift_div_r; done. Qed.

Lemma ilog2_spec x :
  (0 < x)%Q → (2 ^ ilog2 x <= x)%Q ∧ (x < 2 ^ (ilog2 x + 1))%Q.
Proof.
  intros Hx. destruct x as [n d].
  assert (Hn : 0 < n) by (unfold Qlt in Hx; simpl in Hx; lia).
  destruct (Z.log2_spec n Hn) as [Hn1 Hn2].
  destruct (Z.log2_spec (Zpos d) eq_refl) as [Hd1 Hd2].
  pose proof (Z.log2_nonneg n) as Ha. pose proof (Z.log2_nonneg (Zpos d)) as Hb.
  unfold ilog2. cbn [Qnum Qden].
  set (a := Z.log2 n) in *. set (b := Z.log2 (Zpos d)) in *.
  rewrite Zle_Qle, <- pow2_inject in Hn1, Hd1 by done.
  rewrite Zlt_Qlt, <- pow2_inject in Hn2, Hd2 by lia.
  replace (Z.succ a) with (a + 1) in Hn2 by lia.
  replace (Z.succ b) with (b + 1) in Hd2 by lia.
  rewrite pow2_succ in Hn2, Hd2.
  assert (HD : ((n # d) * inject_Z (Zpos d) == inject_Z n)%Q).
  { rewrite (Qmake_Qdiv n d). field. intros H. discriminate H. }
  pose proof (pow2_pos a) as HA. pose proof (pow2_pos b) as HB.
  set (x := n # d) in *. set (D := inject_Z (Z.pos d)) in *.
  set (N := inject_Z n) in *.
  destruct (Qle_bool (2 ^ (a - b)) x) eqn:Hk.
  - apply Qle_bool_iff in Hk. split; [done|].
    replace (a - b + 1) with (a + 1 - b) by lia.
    rewrite <- pow2_div, pow2_succ. apply Qlt_div_r; [done|]. nra.
  - assert (Hlt : (x < 2 ^ (a - b))%Q).
    { apply Qnot_le_lt. intros H. apply Qle_bool_iff in H. congruence. }
    replace (a - b - 1 + 1) with (a - b) by lia. split; [|done].
    replace (a - b - 1) with (a - (b + 1)) by lia.
    rewrite <- pow2_div, pow2_succ. apply Qle_div_l; [lra|]. nra.
Qed.

Lemma ilog2_unique x k :
  (2 ^ k <= x)%Q → (x < 2 ^ (k + 1))%Q → ilog2 x = k.
Proof.
  intros H1 H2.
  assert (Hx : (0 < x)%Q) by (pose proof (pow2_pos k); lra).
  destruct (ilog2_spec x Hx) as [H3 H4].
  assert (ilog2 x < k + 1) by (apply pow2_lt_inv; lra).
  assert (k < ilog2 x + 1) by (apply pow2_lt_inv; lra).
  lia.
Qed.

Lemma ilog2_mono x y : (0 < x)%Q → (x <= y)%Q → ilog2 x ≤ ilog2 y.
Proof.
  intros Hx Hxy.
  destruct (ilog2_spec x Hx) as [H1 _].
  destruct (ilog2_spec y) as [_ H2]; [lra|].
  assert (ilog2 x < ilog2 y + 1) by (apply pow2_lt_inv; lra). lia.
Qed.

Lemma ilog2_proper x y : (0 < x)%Q → (x == y)%Q → ilog2 x = ilog2 y.
Proof.
  intros Hx Hxy. destruct (ilog2_spec x Hx) as [H1 H2].
  symmetry. apply ilog2_unique; lra.
Qed.

(** ** Rounding to binary64 *)

Lemma Qdiv_le_compat x y u : (0 < u)%Q → (x <= y)%Q → (x / u <= y / u)%Q.
Proof.
  intros Hu Hxy. apply Qmult_le_compat_r; [done|].
  apply Qlt_le_weak, Qinv_lt_0_compat, Hu.
Qed.

Lemma scaled_round_mono x y u :
  (0 < u)%Q → (x <= y)%Q →
  (inject_Z (round (x / u)) * u <= inject_Z (round (y / u)) * u)%Q.
Proof.
  intros Hu Hxy. apply Qmult_le_compat_r; [|lra].
  rewrite <- Zle_Qle. by apply round_mono, Qdiv_le_compat.
Qed.

Lemma binary64_exponent_opp x : binary64_exponent (- x) = binary64_exponent x.
Proof.
  unfold binary64_exponent. do 3 f_equal. destruct x as [n d].
  unfold Qabs, Qopp. cbn [Qnum Qden]. f_equal. lia.
Qed.

Lemma binary64_nearest_opp x :
  (binary64_nearest (- x) == - binary64_nearest x)%Q.
Proof.
  unfold binary64_nearest. rewrite binary64_exponent_opp.
  set (u := (2 ^ binary64_exponent x)%Q).
  assert (Hu : (0 < u)%Q) by apply pow2_pos.
  rewrite (round_proper (- x / u) (- (x / u))) by (field; lra).
  rewrite round_opp, inject_Z_opp. ring.
Qed.

Lemma binary64_nearest_nonneg x : (0 <= x)%Q → (0 <= binary64_nearest x)%Q.
Proof.
  intros Hx. unfold binary64_nearest.
  set (u := (2 ^ binary64_exponent x)%Q).
  assert (Hu : (0 < u)%Q) by apply pow2_pos.
  pose proof (scaled_round_mono 0 x u Hu Hx) as H.
  rewrite (round_proper (0 / u) (inject_Z 0)), round_inject_Z in H
    by (field; lra).
  change (inject_Z 0) with 0%Q in H. by rewrite Qmult_0_l in H.
Qed.

Lemma binary64_nearest_nonpos x : (x <= 0)%Q → (binary64_nearest x <= 0)%Q.
Proof.
  intros Hx. pose proof (binary64_nearest_nonneg (- x)) as H.
  rewrite binary64_nearest_opp in H. lra.
Qed.

Lemma binary64_exponent_pos x :
  (0 < x)%Q → binary64_exponent x = Z.max (ilog2 x - 52) (-1074).
Proof.
  intros Hx. unfold binary64_exponent. do 2 f_equal.
  apply ilog2_proper; [|apply Qabs_pos; lra].
  rewrite Qabs_pos; lra.
Qed.

(** Below the power of two [2 ^ k], a positive number rounds to at most
    [2 ^ k]; from it on, to at least [2 ^ k]. *)
Lemma pow2_split k e : e ≤ k → (inject_Z (2 ^ (k - e)) * 2 ^ e == 2 ^ k)%Q.
Proof.
  intros He. rewrite <- pow2_inject by lia. rewrite <- Qpower_plus by done.
  by replace (k - e + e) with k by lia.
Qed.

Lemma round_pow2 k e : e ≤ k → round (2 ^ k / 2 ^ e) = 2 ^ (k - e).
Proof.
  intros He. rewrite (round_proper _ (inject_Z (2 ^ (k - e)))).
  - apply round_inject_Z.
  - rewrite pow2_div. apply pow2_inject. lia.
Qed.

Lemma binary64_nearest_below x k :
  (x <= 2 ^ k)%Q → binary64_exponent x ≤ k → (binary64_nearest x <= 2 ^ k)%Q.
Proof.
  intros Hk He. unfold binary64_nearest.
  pose proof (scaled_round_mono x (2 ^ k) _ (pow2_pos (binary64_exponent x)) Hk)
    as H.
  by rewrite round_pow2, pow2_split in H.
Qed.

Lemma binary64_nearest_above x k :
  (2 ^ k <= x)%Q → binary64_exponent x ≤ k → (2 ^ k <= binary64_nearest x)%Q.
Proof.
  intros Hk He. unfold binary64_nearest.
  pose proof (scaled_round_mono (2 ^ k) x _ (pow2_pos (binary64_exponent x)) Hk)
    as H.
  by rewrite round_pow2, pow2_split in H.
Qed.

Lemma binary64_nearest_mono_pos x y :
  (0 < x)%Q → (x <= y)%Q → (binary64_nearest x <= binary64_nearest y)%Q.
Proof.
  intros Hx Hxy.
  assert (Hy : (0 < y)%Q) by lra.
  pose proof (ilog2_mono x y Hx Hxy) as Hk.
  destruct (ilog2_spec x Hx) as [Hx1 Hx2].
  destruct (ilog2_spec y Hy) as [Hy1 Hy2].
  pose proof (binary64_exponent_pos x Hx) as Hex.
  pose proof (binary64_exponent_pos y Hy) as Hey.
  destruct (decide (binary64_exponent x = binary64_exponent y)) as [He|He].
  - unfold binary64_nearest. rewrite He. apply scaled_round_mono; [|done].
    apply pow2_pos.
  - assert (Hlt : binary64_exponent x < binary64_exponent y) by lia.
    assert (Heyk : binary64_exponent y = ilog2 y - 52) by lia.
    apply Qle_trans with (2 ^ ilog2 y)%Q.
    + apply binary64_nearest_below; [|lia].
      apply Qle_trans with (2 ^ (ilog2 x + 1))%Q; [lra|]. apply pow2_le. lia.
    + apply binary64_nearest_above; [done|lia].
Qed.

Lemma binary64_nearest_mono x y :
  (x <= y)%Q → (binary64_nearest x <= binary64_nearest y)%Q.
Proof.
  intros Hxy. destruct (Qlt_le_dec 0 x) as [Hx|Hx].
  - by apply binary64_nearest_mono_pos.
  - destruct (Qlt_le_dec y 0) as [Hy|Hy].
    + pose proof (binary64_nearest_mono_pos (- y) (- x)) as H.
      rewrite !binary64_nearest_opp in H. lra.
    + pose proof (binary64_nearest_nonpos x Hx).
      pose proof (binary64_nearest_nonneg y Hy). lra.
Qed.

Lemma binary64_nearest_zero x : (x == 0)%Q → (binary64_nearest x == 0)%Q.
Proof.
  intros Hx. unfold binary64_nearest.
  pose proof (pow2_pos (binary64_exponent x)) as Hu.
  set (u := (2 ^ binary64_exponent x)%Q) in *.
  rewrite (round_proper _ (inject_Z 0)), round_inject_Z.
  - change (inject_Z 0) with 0%Q. ring.
  - rewrite Hx. change (inject_Z 0) with 0%Q. field. lra.
Qed.

Lemma Qabs_inject_Z m : Qabs (inject_Z m) = inject_Z (Z.abs m).
Proof. reflexivity. Qed.

(** A double is its own nearest double. *)
Lemma binary64_nearest_double m e :
  Z.abs m < 2 ^ 53 → -1074 ≤ e →
  (binary64_nearest (inject_Z m * 2 ^ e) == inject_Z m * 2 ^ e)%Q.
Proof.
  intros Hm He. destruct (decide (m = 0)) as [->|Hm0].
  { rewrite binary64_nearest_zero; change (inject_Z 0) with 0%Q; ring. }
  set (x := (inject_Z m * 2 ^ e)%Q).
  assert (Hex : binary64_exponent x ≤ e).
  { unfold binary64_exponent. apply Z.max_lub; [|done].
    assert (Habs : (Qabs x == inject_Z (Z.abs m) * 2 ^ e)%Q).
    { unfold x. rewrite Qabs_Qmult, Qabs_inject_Z, (Qabs_pos (2 ^ e)); [done|].
      apply Qlt_le_weak, pow2_pos. }
    pose proof (pow2_pos e) as Hpe.
    assert (H1 : (inject_Z 1 <= inject_Z (Z.abs m))%Q) by (rewrite <- Zle_Qle; lia).
    assert (H2 : (inject_Z (Z.abs m) < inject_Z (2 ^ 53))%Q)
      by (rewrite <- Zlt_Qlt; lia).
    rewrite <- pow2_inject in H2 by lia. change (inject_Z 1) with 1%Q in H1.
    destruct (ilog2_spec (Qabs x)) as [Hlo _]; [rewrite Habs; nra|].
    assert (Hhi : (Qabs x < 2 ^ (53 + e))%Q).
    { rewrite Habs, Qpower_plus by done. nra. }
    assert (ilog2 (Qabs x) < 53 + e) by (apply pow2_lt_inv; lra). lia. }
  unfold binary64_nearest. set (ex := binary64_exponent x) in *.
  rewrite (round_proper _ (inject_Z (m * 2 ^ (e - ex)))), round_inject_Z.
  - rewrite inject_Z_mult, <- Qmult_assoc, pow2_split by done. reflexivity.
  - unfold x. rewrite inject_Z_mult, <- pow2_inject by lia.
    rewrite <- pow2_div. field. pose proof (pow2_pos ex). lra.
Qed.

(** ** The order of numbers *)

Lemma clamped_range number : (0 <= clamped number <= 255)%Q.
Proof.
  destruct number as [|[]|x]; simpl; try lra.
  split; [apply Q.min_glb; [apply Q.le_max_r|lra]|apply Q.le_min_r].
Qed.

Lemma clamped_mono a b : Nle a b → (clamped a <= clamped b)%Q.
Proof.
  pose proof (clamped_range a). pose proof (clamped_range b).
  destruct a as [|[]|x], b as [|[]|y]; simpl in *; try done; try lra.
  intros Hxy. apply Q.min_le_compat_r. by apply Q.max_le_compat_r.
Qed.

Lemma ToUint8Clamp_nearest_even number :
  nearest_even (clamped number) (ToUint8Clamp number).
Proof.
  assert (H : ∀ y, nearest_even y
            (let f := Qfloor y in
             match (y ?= inject_Z f + (1 # 2))%Q with
             | Lt => f
             | Gt => f + 1
             | Eq => if Z.even f then f else f + 1
             end)).
  { intros y. cbn zeta.
    pose proof (Qfloor_le y) as Hlo. pose proof (Qlt_floor y) as Hhi.
    set (f := Qfloor y) in *. rewrite inject_Z_succ in Hhi.
    destruct (y ?= inject_Z f + (1 # 2))%Q eqn:Hc.
    - apply Qeq_alt in Hc. destruct (Z.even f) eqn:He.
      + repeat split; [lra|lra|done].
      + repeat split; rewrite ?inject_Z_succ; [lra|lra|].
        intros _. rewrite Z.even_add, He. reflexivity.
    - apply Qlt_alt in Hc. repeat split; [lra|lra|]. intros [?|?]; lra.
    - apply Qgt_alt in Hc. repeat split; rewrite ?inject_Z_succ; [lra|lra|].
      intros [?|?]; lra. }
  destruct number as [|s|x]; [|apply H..].
  unfold nearest_even. simpl. change (inject_Z 0) with 0%Q.
  split; [lra|]. split; [lra|done].
Qed.

Lemma ToUint8Clamp_mono a b : Nle a b → ToUint8Clamp a ≤ ToUint8Clamp b.
Proof.
  intros Hab. eapply nearest_even_mono;
    [by apply clamped_mono|apply ToUint8Clamp_nearest_even..].
Qed.

Lemma ToUint8Clamp_range number : 0 ≤ ToUint8Clamp number ≤ 255.
Proof.
  destruct (ToUint8Clamp_nearest_even number) as (H1 & H2 & H3).
  pose proof (clamped_range number) as [Hc0 Hc1].
  assert (E1 : (inject_Z (-1) == -(1))%Q) by reflexivity.
  assert (E2 : (inject_Z 256 == 256)%Q) by reflexivity.
  assert (L1 : (inject_Z (-1) < inject_Z (ToUint8Clamp number))%Q) by lra.
  assert (L2 : (inject_Z (ToUint8Clamp number) < inject_Z 256 )%Q) by lra.
  rewrite <- Zlt_Qlt in L1, L2. lia.
Qed.

Lemma binary64_mono x y : (x <= y)%Q → Nle (binary64 x) (binary64 y).
Proof.
  intros Hxy. pose proof (binary64_nearest_mono x y Hxy) as Hn.
  unfold binary64.
  destruct (Qle_bool (2 ^ 1024) (Qabs (binary64_nearest x))) eqn:Hox,
           (Qle_bool (2 ^ 1024) (Qabs (binary64_nearest y))) eqn:Hoy.
  - destruct (Qle_bool 0 x) eqn:Hx; [|done].
    apply Qle_bool_iff in Hx.
    assert (Hy : Qle_bool 0 y = true) by (apply Qle_bool_iff; lra).
    by rewrite Hy.
  - destruct (Qle_bool 0 x) eqn:Hx; [exfalso|done].
    apply Qle_bool_iff in Hx, Hox.
    pose proof (binary64_nearest_nonneg x Hx) as Hx'.
    rewrite Qabs_pos in Hox by done.
    assert (Hoy' : Qle_bool (2 ^ 1024) (Qabs (binary64_nearest y)) = true).
    { apply Qle_bool_iff. rewrite Qabs_pos; lra. }
    congruence.
  - destruct (Qle_bool 0 y) eqn:Hy; [done|exfalso].
    assert (Hy' : (y <= 0)%Q).
    { apply Qlt_le_weak, Qnot_le_lt. intros H. apply Qle_bool_iff in H. congruence. }
    apply Qle_bool_iff in Hoy.
    pose proof (binary64_nearest_nonpos y Hy') as Hny.
    rewrite Qabs_neg in Hoy by done.
    assert (Hox' : Qle_bool (2 ^ 1024) (Qabs (binary64_nearest x)) = true).
    { apply Qle_bool_iff. rewrite Qabs_neg; lra. }
    congruence.
  - done.
Qed.

Lemma binary64_not_NaN x : binary64 x ≠ NaN.
Proof. unfold binary64. by destruct (Qle_bool _ _). Qed.

Lemma Nmul_255_mono a b :
  Nle a b → Nle (Nmul (Finite 255) a) (Nmul (Finite 255) b).
Proof.
  destruct a as [|[]|x], b as [|[]|y]; try done.
  - simpl. intros _. pose proof (binary64_not_NaN (255 * y)).
    by destruct (binary64 (255 * y)).
  - simpl. intros _. pose proof (binary64_not_NaN (255 * x)).
    by destruct (binary64 (255 * x)) as [|[]|].
  - simpl. intros Hxy. apply binary64_mono. lra.
Qed.

Lemma clamp_scaled c : (Qmin (Qmax (255 * c) 0) 255 == 255 * clamp c 0 1)%Q.
Proof.
  unfold clamp. destruct (Qlt_le_dec c 0) as [Hneg|Hpos].
  - rewrite Q.max_r by lra. rewrite Q.min_l by lra. lra.
  - rewrite Q.max_l by lra. destruct (Qlt_le_dec 1 c) as [Hbig|Hsmall].
    + rewrite Q.min_r by lra. lra.
    + rewrite Q.min_l by lra. lra.
Qed.

Lemma sink_byte_range c : 0 ≤ sink_byte c ≤ 255.
Proof.
  destruct (round_nearest_even (255 * clamp c 0 1)) as (H1 & H2 & H3).
  fold (sink_byte c) in *.
  assert (0 <= clamp c 0 1 <= 1)%Q as [Hc0 Hc1].
  { unfold clamp. destruct (Qlt_le_dec c 0); [lra|].
    destruct (Qlt_le_dec 1 c); lra. }
  assert (E1 : (inject_Z (-1) == -(1))%Q) by reflexivity.
  assert (E2 : (inject_Z 256 == 256)%Q) by reflexivity.
  assert (L1 : (inject_Z (-1) < inject_Z (sink_byte c))%Q) by lra.
  assert (L2 : (inject_Z (sink_byte c) < inject_Z 256 )%Q) by lra.
  rewrite <- Zlt_Qlt in L1, L2. lia.
Qed.

(** The doubles [j / 2] for small [j]: what a product must hit for the
    clamped store to meet a tie. *)
Lemma binary64_half j :
  0 ≤ j ≤ 511 →
  ∃ y, binary64 (inject_Z j * 2 ^ (-1)) = Finite y ∧ (y == inject_Z j * (1 # 2))%Q.
Proof.
  intros Hj. pose proof (binary64_nearest_double j (-1)) as Hy.
  unfold binary64. set (y := binary64_nearest _) in *.
  assert (Hy' : (y == inject_Z j * (1 # 2))%Q) by (rewrite Hy; [done|lia..]).
  assert (H0 : (inject_Z 0 <= inject_Z j)%Q) by (rewrite <- Zle_Qle; lia).
  assert (H1 : (inject_Z j <= inject_Z 511)%Q) by (rewrite <- Zle_Qle; lia).
  change (inject_Z 0) with 0%Q in H0. change (inject_Z 511) with 511%Q in H1.
  destruct (Qle_bool (2 ^ 1024) (Qabs y)) eqn:Ho; [exfalso|by exists y].
  apply Qle_bool_iff in Ho. rewrite Qabs_pos in Ho by lra.
  pose proof (pow2_le 9 1024). change (2 ^ 9)%Q with 512%Q in *. lra.
Qed.

Lemma stored_byte_near_sink_byte x :
  let number := Nmul (Finite 255) (Finite x) in
  Z.abs (ToUint8Clamp number - sink_byte x) ≤ 1 ∧
  (ToUint8Clamp number ≠ sink_byte x →
   ∃ k, (clamped number == inject_Z k + (1 # 2))%Q).
Proof.
  cbn zeta. cbn [Nmul].
  set (s := sink_byte x). set (v := clamped (binary64 (255 * x))).
  set (byte := ToUint8Clamp (binary64 (255 * x))).
  pose proof (sink_byte_range x) as Hs. fold s in Hs.
  assert (Hn : nearest_even (Qmin (Qmax (255 * x) 0) 255) s).
  { eapply nearest_even_proper; [symmetry; apply clamp_scaled|].
    apply round_nearest_even. }
  destruct Hn as (Hn1 & Hn2 & _).
  pose proof (clamped_range (binary64 (255 * x))) as [Hv0 Hv1]. fold v in Hv0, Hv1.
  assert (Hup : (v <= inject_Z s + (1 # 2))%Q).
  { destruct (decide (s = 255)) as [->|Hne].
    { change (inject_Z 255) with 255%Q. lra. }
    assert (Hs' : (inject_Z s <= inject_Z 254)%Q) by (rewrite <- Zle_Qle; lia).
    change (inject_Z 254) with 254%Q in Hs'.
    assert (HP : (255 * x <= inject_Z s + (1 # 2))%Q).
    { destruct (Q.min_spec (Qmax (255 * x) 0) 255) as [[_ E]|[? E]];
        rewrite E in Hn2; [|lra].
      pose proof (Q.le_max_l (255 * x) 0). lra. }
    destruct (binary64_half (2 * s + 1)) as (y & Hy & Hy'); [lia|].
    assert (Hg : (inject_Z (2 * s + 1) * 2 ^ (-1) == inject_Z s + (1 # 2))%Q).
    { rewrite inject_Z_plus, inject_Z_mult. change (2 ^ (-1))%Q with (1 # 2)%Q.
      change (inject_Z 2) with 2%Q. change (inject_Z 1) with 1%Q. lra. }
    pose proof (binary64_mono (255 * x) (inject_Z (2 * s + 1) * 2 ^ (-1))) as Hm.
    rewrite Hy in Hm. apply clamped_mono in Hm; [|lra]. fold v in Hm.
    cbn [clamped] in Hm. rewrite inject_Z_plus, inject_Z_mult in Hy'.
    change (inject_Z 2) with 2%Q in Hy'. change (inject_Z 1) with 1%Q in Hy'.
    assert (E : (Qmin (Qmax y 0) 255 == y)%Q).
    { assert (H0 : (inject_Z 0 <= inject_Z s)%Q) by (rewrite <- Zle_Qle; lia).
      change (inject_Z 0) with 0%Q in H0.
      rewrite Q.max_l by lra. rewrite Q.min_l by lra. reflexivity. }
    lra. }
  assert (Hlo : (inject_Z s - (1 # 2) <= v)%Q).
  { destruct (decide (s = 0)) as [->|Hne].
    { change (inject_Z 0) with 0%Q. lra. }
    assert (Hs' : (inject_Z 1 <= inject_Z s)%Q) by (rewrite <- Zle_Qle; lia).
    assert (Hs'' : (inject_Z s <= inject_Z 255)%Q) by (rewrite <- Zle_Qle; lia).
    change (inject_Z 1) with 1%Q in Hs'. change (inject_Z 255) with 255%Q in Hs''.
    assert (HP : (inject_Z s - (1 # 2) <= 255 * x)%Q).
    { pose proof (Q.le_min_l (Qmax (255 * x) 0) 255).
      destruct (Q.max_spec (255 * x) 0) as [[? E]|[? E]]; rewrite E in *; lra. }
    destruct (binary64_half (2 * s - 1)) as (y & Hy & Hy'); [lia|].
    assert (Hg : (inject_Z (2 * s - 1) * 2 ^ (-1) == inject_Z s - (1 # 2))%Q).
    { rewrite inject_Z_pred, inject_Z_mult. change (2 ^ (-1))%Q with (1 # 2)%Q.
      change (inject_Z 2) with 2%Q. lra. }
    pose proof (binary64_mono (inject_Z (2 * s - 1) * 2 ^ (-1)) (255 * x)) as Hm.
    rewrite Hy in Hm. apply clamped_mono in Hm; [|lra]. fold v in Hm.
    cbn [clamped] in Hm. rewrite inject_Z_pred, inject_Z_mult in Hy'.
    change (inject_Z 2) with 2%Q in Hy'.
    assert (E : (Qmin (Qmax y 0) 255 == y)%Q).
    { rewrite Q.max_l by lra. rewrite Q.min_l by lra. reflexivity. }
    lra. }
  pose proof (ToUint8Clamp_nearest_even (binary64 (255 * x))) as Hb.
  fold v byte in Hb. destruct Hb as (Hb1 & Hb2 & Hb3).
  split.
  - assert (L1 : (inject_Z byte <= inject_Z (s + 1))%Q)
      by (rewrite inject_Z_succ; lra).
    assert (L2 : (inject_Z (s - 1) <= inject_Z byte)%Q)
      by (rewrite inject_Z_pred; lra).
    rewrite <- Zle_Qle in L1, L2. lia.
  - intros Hne.
    destruct (Qlt_le_dec v (inject_Z s + (1 # 2))) as [Hlt|Hge];
      [|exists s; lra].
    destruct (Qlt_le_dec (inject_Z s - (1 # 2)) v) as [Hgt|Hle].
    + exfalso. apply Hne. apply (nearest_even_unique v); [done|].
      repeat split; [lra|lra|]. intros [?|?]; lra.
    + exists (s - 1). rewrite inject_Z_pred. lra.
Qed.

(** ** One pixel *)

Lemma render_pixel_unfold p i j st :
  render_pixel p i j st =
  let r := (wasm_color_at (world st) (camera st) i j (wasm st)).1 in
  let m := (wasm_color_at (world st) (camera st) i j (wasm st)).2 in
  let st1 := log (set_wasm st m) (ObsColorAt p (world st) (camera st) i j r) in
  match r with
  | Raise e => Threw e st1
  | Value color =>
      Returned (log (set_canvas st1 (set_pixel (canvas st) (i, j) (rgba_pixel color)))
                    (ObsPut p (rgba color) i j))
  end.
Proof.
  unfold render_pixel.
  destruct (wasm_color_at (world st) (camera st) i j (wasm st)) as [[color|e] m];
    reflexivity.
Qed.

Lemma set_pixel_width cv xy px : width (set_pixel cv xy px) = width cv.
Proof. unfold set_pixel. by destruct (in_canvas cv xy). Qed.

Lemma set_pixel_height cv xy px : height (set_pixel cv xy px) = height cv.
Proof. unfold set_pixel. by destruct (in_canvas cv xy). Qed.

Lemma paint_width rs : ∀ cv i j, width (paint cv i j rs) = width cv.
Proof.
  induction rs as [|[color|e] rs IH]; intros cv i j; simpl; [done| |done].
  by rewrite IH, set_pixel_width.
Qed.

Lemma paint_height rs : ∀ cv i j, height (paint cv i j rs) = height cv.
Proof.
  induction rs as [|[color|e] rs IH]; intros cv i j; simpl; [done| |done].
  by rewrite IH, set_pixel_height.
Qed.

Lemma render_pixel_height p i j st :
  height (canvas (outcome_state (render_pixel p i j st))) = height (canvas st).
Proof.
  rewrite render_pixel_unfold. simpl.
  destruct (wasm_color_at _ _ _ _ _).1; simpl; [apply set_pixel_height|done].
Qed.

(** ** One column *)

(** The fuel given by [timer_callback] is enough. *)
Lemma column_loop_fuel fuel p i : ∀ j st,
  (Z.to_nat (height (canvas st) - j) ≤ fuel)%nat →
  is_Some (column_loop fuel p i j st).
Proof.
  induction fuel as [|fuel IH]; intros j st Hfuel; simpl.
  - destruct (j <? height (canvas st)) eqn:Hj; [|by eexists].
    apply Z.ltb_lt in Hj. lia.
  - destruct (j <? height (canvas st)) eqn:Hj; [|by eexists].
    apply Z.ltb_lt in Hj.
    pose proof (render_pixel_height p i j st) as Hh.
    destruct (render_pixel p i j st) as [st'|e st']; simpl in Hh; [|by eexists].
    apply IH. lia.
Qed.

Lemma column_loop_spec fuel p i : ∀ j st out,
  column_loop fuel p i j st = Some out →
  ∃ rs,
    trace (outcome_state out)
      = trace st ++ column_obs p (world st) (camera st) i j rs ∧
    canvas (outcome_state out) = paint (canvas st) i j rs ∧
    wasm (outcome_state out)
      = after_calls (world st) (camera st)
                    (pair i <$> seqZ j (Z.of_nat (length rs))) (wasm st) ∧
    world (outcome_state out) = world st ∧
    camera (outcome_state out) = camera st ∧
    count (outcome_state out) = count st ∧
    freezedText (outcome_state out) = freezedText st ∧
    timers (outcome_state out) = timers st ∧
    passes (outcome_state out) = passes st ∧
    Forall answered rs ∧
    match out with
    | Returned _ =>
        Forall is_value rs ∧
        Z.of_nat (length rs) = Z.max 0 (height (canvas st) - j)
    | Threw e _ =>
        ∃ vs, rs = vs ++ [Raise e] ∧ Forall is_value vs ∧
              j + Z.of_nat (length vs) < height (canvas st)
    end.
Proof.
  induction fuel as [|fuel IH]; intros j st out; simpl;
    destruct (j <? height (canvas st)) eqn:Hj;
    try apply Z.ltb_lt in Hj; try apply Z.ltb_ge in Hj; intros Hout;
    try discriminate Hout.
  1,3: injection Hout as <-; exists []; simpl; rewrite app_nil_r;
       repeat split; [constructor|constructor|lia].
  rewrite render_pixel_unfold in Hout. simpl in Hout.
  destruct (wasm_color_at (world st) (camera st) i j (wasm st)) as [r m] eqn:Hcall.
  simpl in Hout. destruct r as [color|e].
  - apply IH in Hout
      as (rs & Htr & Hcv & Hm & Hw & Hc & Hn & Ht & Hts & Hps & Hans & Hout).
    cbn [trace canvas wasm world camera count freezedText timers passes
         log set_canvas set_wasm] in *.
    exists (Value color :: rs).
    rewrite Htr, Hcv, Hm, Hw, Hc, Hn, Ht, Hts, Hps.
    rewrite set_pixel_height in Hout. cbn [column_obs pixel_obs paint length].
    rewrite <- !app_assoc, Nat2Z.inj_succ. repeat split.
    + rewrite (seqZ_cons j) by lia. rewrite Z.pred_succ.
      unfold after_calls at 2. cbn [fmap list_fmap foldl fst snd].
      by rewrite Hcall.
    + constructor; [|done]. exists (world st), (camera st), i, j, (wasm st).
      by rewrite Hcall.
    + destruct out as [st'|e st'].
      * destruct Hout as [Hvs Hlen]. split; [by constructor|]. lia.
      * destruct Hout as (vs & -> & Hvs & Hlt).
        exists (Value color :: vs). repeat split; [by constructor|].
        cbn [length]. lia.
  - injection Hout as <-. exists [Raise e]. simpl.
    unfold after_calls. simpl. change (Z.of_nat 0 + j) with j. rewrite Hcall.
    repeat split.
    + constructor; [|done]. exists (world st), (camera st), i, j, (wasm st).
      by rewrite Hcall.
    + exists []. repeat split; [constructor|simpl; lia].
Qed.

(** ** Reading traces *)

Lemma calls_app p tr1 tr2 : calls p (tr1 ++ tr2) = calls p tr1 ++ calls p tr2.
Proof. apply omap_app. Qed.

Lemma puts_app p tr1 tr2 : puts p (tr1 ++ tr2) = puts p tr1 ++ puts p tr2.
Proof. apply omap_app. Qed.

Lemma tasks_app p tr1 tr2 : tasks p (tr1 ++ tr2) = tasks p tr1 ++ tasks p tr2.
Proof. apply omap_app. Qed.

Lemma all_calls_app tr1 tr2 :
  all_calls (tr1 ++ tr2) = all_calls tr1 ++ all_calls tr2.
Proof. apply omap_app. Qed.

Lemma all_tasks_app tr1 tr2 :
  all_tasks (tr1 ++ tr2) = all_tasks tr1 ++ all_tasks tr2.
Proof. apply omap_app. Qed.

Lemma results_app tr1 tr2 : results (tr1 ++ tr2) = results tr1 ++ results tr2.
Proof. apply omap_app. Qed.

Lemma creations_app tr1 tr2 :
  creations (tr1 ++ tr2) = creations tr1 ++ creations tr2.
Proof. apply filter_app. Qed.

(** Observations of one pass say nothing about another. *)
Lemma calls_other p q tr :
  Forall (λ o, obs_pass o = Some p) tr → q ≠ p → calls q tr = [].
Proof.
  intros Htr Hne. induction Htr as [|o tr Ho _ IH]; [done|].
  change (o :: tr) with ([o] ++ tr). rewrite calls_app, IH, app_nil_r.
  destruct o; simpl in *; try done. case_decide; [congruence|done].
Qed.

Lemma puts_other p q tr :
  Forall (λ o, obs_pass o = Some p) tr → q ≠ p → puts q tr = [].
Proof.
  intros Htr Hne. induction Htr as [|o tr Ho _ IH]; [done|].
  change (o :: tr) with ([o] ++ tr). rewrite puts_app, IH, app_nil_r.
  destruct o; simpl in *; try done. case_decide; [congruence|done].
Qed.

Lemma tasks_other p q tr :
  Forall (λ o, obs_pass o = Some p) tr → q ≠ p → tasks q tr = [].
Proof.
  intros Htr Hne. induction Htr as [|o tr Ho _ IH]; [done|].
  change (o :: tr) with ([o] ++ tr). rewrite tasks_app, IH, app_nil_r.
  destruct o; simpl in *; try done. case_decide; [congruence|done].
Qed.

Lemma creations_pass p tr :
  Forall (λ o, obs_pass o = Some p) tr → creations tr = [].
Proof.
  intros Htr. induction Htr as [|o tr Ho _ IH]; [done|].
  unfold creations in *. rewrite filter_cons, IH.
  case_decide; [congruence|done].
Qed.

Lemma column_obs_pass p w c i rs : ∀ j,
  Forall (λ o, obs_pass o = Some p) (column_obs p w c i j rs).
Proof.
  induction rs as [|r rs IH]; intros j; simpl; [constructor|].
  constructor; [done|]. destruct r; simpl; [constructor; [done|]|]; apply IH.
Qed.

Lemma calls_pixel_obs p w c i j r : calls p (pixel_obs p w c i j r) = [(i, j, r)].
Proof. unfold calls. destruct r; simpl; by rewrite decide_True. Qed.

Lemma puts_pixel_obs p w c i j r :
  puts p (pixel_obs p w c i j r) = omap written [(i, j, r)].
Proof. unfold puts. destruct r; simpl; [by rewrite decide_True|done]. Qed.

Lemma calls_column_obs p w c i rs : ∀ j,
  calls p (column_obs p w c i j rs)
  = zip (pair i <$> seqZ j (Z.of_nat (length rs))) rs.
Proof.
  induction rs as [|r rs IH]; intros j; [done|].
  cbn [length column_obs]. rewrite Nat2Z.inj_succ, seqZ_cons by lia.
  rewrite Z.pred_succ. cbn [fmap list_fmap zip zip_with].
  by rewrite calls_app, calls_pixel_obs, IH.
Qed.

Lemma puts_column_obs p w c i rs : ∀ j,
  puts p (column_obs p w c i j rs)
  = omap written (calls p (column_obs p w c i j rs)).
Proof.
  induction rs as [|r rs IH]; intros j; [done|].
  cbn [column_obs].
  by rewrite puts_app, calls_app, omap_app, IH, puts_pixel_obs, calls_pixel_obs.
Qed.

Lemma tasks_column_obs q p w c i rs : ∀ j,
  tasks q (column_obs p w c i j rs) = [].
Proof.
  induction rs as [|r rs IH]; intros j; [done|].
  cbn [column_obs]. rewrite tasks_app, IH. by destruct r.
Qed.

Lemma all_tasks_column_obs p w c i rs : ∀ j,
  all_tasks (column_obs p w c i j rs) = [].
Proof.
  induction rs as [|r rs IH]; intros j; [done|].
  cbn [column_obs]. rewrite all_tasks_app, IH. by destruct r.
Qed.

Lemma all_calls_column_obs p w c i rs : ∀ j,
  all_calls (column_obs p w c i j rs)
  = pair (w, c) <$> (pair i <$> seqZ j (Z.of_nat (length rs))).
Proof.
  induction rs as [|r rs IH]; intros j; [done|].
  cbn [length column_obs]. rewrite Nat2Z.inj_succ, seqZ_cons by lia.
  rewrite Z.pred_succ. cbn [fmap list_fmap].
  rewrite all_calls_app, IH. by destruct r.
Qed.

Lemma results_column_obs p w c i rs : ∀ j,
  results (column_obs p w c i j rs) = rs.
Proof.
  induction rs as [|r rs IH]; intros j; [done|].
  cbn [column_obs]. rewrite results_app, IH. by destruct r.
Qed.

Lemma column_obs_no_done q p w c i rs : ∀ j,
  ObsDone q ∉ column_obs p w c i j rs.
Proof.
  induction rs as [|r rs IH]; intros j; cbn [column_obs pixel_obs].
  - apply not_elem_of_nil.
  - intros Hin. apply (IH (j + 1)).
    destruct r; repeat (apply elem_of_cons in Hin as [Hin|Hin]; [done|]); done.
Qed.

Lemma column_obs_no_uncaught q e p w c i rs : ∀ j,
  ObsUncaught q e ∉ column_obs p w c i j rs.
Proof.
  induction rs as [|r rs IH]; intros j; cbn [column_obs pixel_obs].
  - apply not_elem_of_nil.
  - intros Hin. apply (IH (j + 1)).
    destruct r; repeat (apply elem_of_cons in Hin as [Hin|Hin]; [done|]); done.
Qed.

(** ** The canvas under [paint] *)

Lemma in_canvas_set_pixel cv xy px xy' :
  in_canvas (set_pixel cv xy px) xy' = in_canvas cv xy'.
Proof. unfold in_canvas. by rewrite set_pixel_width, set_pixel_height. Qed.

Lemma in_canvas_paint cv i j rs xy :
  in_canvas (paint cv i j rs) xy = in_canvas cv xy.
Proof. unfold in_canvas. by rewrite paint_width, paint_height. Qed.

Lemma set_pixel_alpha cv xy px :
  A px = 255 →
  (∀ xy' px', bitmap cv !! xy' = Some px' → A px' = 255) →
  ∀ xy' px', bitmap (set_pixel cv xy px) !! xy' = Some px' → A px' = 255.
Proof.
  intros Hpx Hcv xy' px'. unfold set_pixel.
  destruct (in_canvas cv xy); simpl; [|apply Hcv].
  rewrite lookup_insert. case_decide; [congruence|apply Hcv].
Qed.

Lemma paint_alpha rs : ∀ cv i j,
  (∀ xy px, bitmap cv !! xy = Some px → A px = 255) →
  ∀ xy px, bitmap (paint cv i j rs) !! xy = Some px → A px = 255.
Proof.
  induction rs as [|[color|e] rs IH]; intros cv i j Hcv; simpl; [done| |by apply IH].
  apply IH. by apply set_pixel_alpha.
Qed.

Lemma set_pixel_mono cv xy px xy' :
  is_Some (bitmap cv !! xy') → is_Some (bitmap (set_pixel cv xy px) !! xy').
Proof.
  intros Hxy'. unfold set_pixel. destruct (in_canvas cv xy); simpl; [|done].
  rewrite lookup_insert. by case_decide.
Qed.

Lemma paint_mono rs : ∀ cv i j xy,
  is_Some (bitmap cv !! xy) → is_Some (bitmap (paint cv i j rs) !! xy).
Proof.
  induction rs as [|[color|e] rs IH]; intros cv i j xy Hxy; simpl; [done| |by apply IH].
  apply IH. by apply set_pixel_mono.
Qed.

Lemma paint_painted p w c rs : ∀ cv i j x y d,
  (x, y, d) ∈ puts p (column_obs p w c i j rs) →
  in_canvas cv (x, y) = true →
  is_Some (bitmap (paint cv i j rs) !! (x, y)).
Proof.
  induction rs as [|[color|e] rs IH]; intros cv i j x y d; cbn [column_obs paint].
  - intros Hin. by apply elem_of_nil in Hin.
  - rewrite puts_app, puts_pixel_obs. cbn [omap list_omap written snd fst app].
    intros [Hin|Hin]%elem_of_cons Hcv.
    + injection Hin as -> -> ->. apply paint_mono. unfold set_pixel.
      rewrite Hcv. simpl. rewrite lookup_insert_eq. by eexists.
    + eapply IH; [done|]. by rewrite in_canvas_set_pixel.
  - rewrite puts_app, puts_pixel_obs. cbn [omap list_omap written snd fst app].
    apply IH.
Qed.

Lemma paint_origin p w c rs : ∀ cv i j xy px,
  bitmap (paint cv i j rs) !! xy = Some px →
  bitmap cv !! xy = Some px ∨
  ∃ color, (xy.1, xy.2, Value color) ∈ calls p (column_obs p w c i j rs) ∧
           px = rgba_pixel color.
Proof.
  induction rs as [|[color|e] rs IH]; intros cv i j xy px; cbn [column_obs paint].
  - by left.
  - rewrite calls_app, calls_pixel_obs.
    intros [Hcv|(color' & Hin & ->)]%IH.
    + unfold set_pixel in Hcv. destruct (in_canvas cv (i, j)); [|by left].
      simpl in Hcv. rewrite lookup_insert in Hcv.
      case_decide as Hxy; [|by left].
      injection Hcv as <-. subst xy. right. exists color.
      split; [|done]. apply elem_of_app. left. by left.
    + right. exists color'. split; [|done]. apply elem_of_app. by right.
  - rewrite calls_app, calls_pixel_obs.
    intros [Hcv|(color' & Hin & ->)]%IH; [by left|].
    right. exists color'. split; [|done]. apply elem_of_app. by right.
Qed.

(** ** One timer task *)

Lemma timer_callback_spec t st st' :
  timer_callback t st = Some st' →
  ∃ rs tail,
    trace st' = trace st ++ ObsTask (pass t) (column t)
                  :: column_obs (pass t) (world st) (camera st) (column t) 0 rs
                  ++ tail ∧
    canvas st' = paint (canvas st) (column t) 0 rs ∧
    wasm st' = after_calls (world st) (camera st)
                 (pair (column t) <$> seqZ 0 (Z.of_nat (length rs))) (wasm st) ∧
    world st' = world st ∧ camera st' = camera st ∧ count st' = count st ∧
    freezedText st' = freezedText st ∧ passes st' = passes st ∧
    Forall answered rs ∧
    ((Forall is_value rs ∧
      Z.of_nat (length rs) = Z.max 0 (height (canvas st)) ∧
      ((column t + 1 < width (canvas st) ∧ tail = [] ∧
        timers st' = timers st ++ [mkTimer (pass t) (column t + 1)]) ∨
       (width (canvas st) ≤ column t + 1 ∧ tail = [ObsDone (pass t)] ∧
        timers st' = timers st)))
     ∨
     (∃ e vs, rs = vs ++ [Raise e] ∧ Forall is_value vs ∧
              Z.of_nat (length vs) < height (canvas st) ∧
              tail = [ObsUncaught (pass t) e] ∧ timers st' = timers st)).
Proof.
  unfold timer_callback.
  destruct (column_loop _ _ _ _ _) as [out|] eqn:Hloop; [|done].
  apply column_loop_spec in Hloop
    as (rs & Htr & Hcv & Hm & Hw & Hc & Hn & Ht & Hts & Hps & Hans & Hout).
  cbn [trace canvas wasm world camera count freezedText timers passes log] in *.
  destruct out as [st1|e st1]; intros [= <-]; cbn [outcome_state] in *.
  - destruct Hout as [Hvs Hlen]. unfold loop_head. rewrite Hcv, paint_width.
    rewrite Z.sub_0_r in Hlen.
    destruct (column t + 1 <? width (canvas st)) eqn:Hi;
      [apply Z.ltb_lt in Hi|apply Z.ltb_ge in Hi].
    + exists rs, []. cbn. rewrite app_nil_r, Htr, <- app_assoc, Hts.
      repeat split; try done. left. repeat split; try done. by left.
    + exists rs, [ObsDone (pass t)]. cbn. rewrite Htr, <- !app_assoc.
      repeat split; try done. left. repeat split; try done. by right.
  - destruct Hout as (vs & -> & Hvs & Hlt).
    exists (vs ++ [Raise e]), [ObsUncaught (pass t) e]. cbn.
    rewrite Htr, <- !app_assoc. repeat split; try done.
    right. exists e, vs. repeat split; try done.
Qed.

(** ** Lists of coordinates and of timers *)

Lemma column_major_snoc i h :
  0 ≤ i → column_major (i + 1) h = column_major i h ++ (pair i <$> seqZ 0 h).
Proof.
  intros Hi. unfold column_major.
  rewrite seqZ_app by lia. rewrite bind_app. simpl. by rewrite app_nil_r.
Qed.

Lemma column_major_elem w h i j :
  (i, j) ∈ column_major w h ↔ 0 ≤ i < w ∧ 0 ≤ j < h.
Proof.
  unfold column_major. rewrite list_elem_of_bind. split.
  - intros (i' & Hin & Hi'). apply list_elem_of_fmap in Hin as (j' & [= -> ->] & Hj').
    apply elem_of_seqZ in Hi', Hj'. lia.
  - intros [Hi Hj]. exists i. split.
    + apply list_elem_of_fmap. exists j. split; [done|]. apply elem_of_seqZ. lia.
    + apply elem_of_seqZ. lia.
Qed.

Lemma column_major_NoDup w h : NoDup (column_major w h).
Proof.
  unfold column_major. apply NoDup_bind; [| |apply NoDup_seqZ].
  - intros i1 i2 [i j] _ _ Hin1 Hin2.
    apply list_elem_of_fmap in Hin1 as (j1 & [= -> ->] & _).
    by apply list_elem_of_fmap in Hin2 as (j2 & [= -> ->] & _).
  - intros i _. apply NoDup_fmap_2; [intros ?? [=]; done|apply NoDup_seqZ].
Qed.

Lemma length_column_major w h :
  0 ≤ w → 0 ≤ h → Z.of_nat (length (column_major w h)) = w * h.
Proof.
  intros Hw Hh. rewrite <- (Z2Nat.id w) by done.
  generalize (Z.to_nat w) as n. clear Hw. intros n.
  induction n as [|n IH]; [done|].
  rewrite Nat2Z.inj_succ. unfold Z.succ. rewrite column_major_snoc by lia.
  rewrite length_app, length_fmap, length_seqZ. lia.
Qed.

Lemma zip_rows_snoc {X} (i : Z) (vs : list X) (v : X) :
  zip (pair i <$> seqZ 0 (Z.of_nat (length (vs ++ [v])))) (vs ++ [v])
  = zip (pair i <$> seqZ 0 (Z.of_nat (length vs))) vs
    ++ [(i, Z.of_nat (length vs), v)].
Proof.
  rewrite length_app. cbn [length]. rewrite Nat.add_1_r, seqZ_S, fmap_app.
  rewrite zip_with_app by (by rewrite length_fmap, length_seqZ, Nat2Z.id).
  done.
Qed.

Lemma timers_split (l : list Timer) k t :
  l !! k = Some t → ∃ l1 l2, l = l1 ++ t :: l2 ∧ delete k l = l1 ++ l2.
Proof.
  intros Hk. exists (take k l), (drop (S k) l). split.
  - by rewrite take_drop_middle.
  - apply delete_take_drop.
Qed.

(** ** Observations of a pass that has not acted *)

Lemma calls_silent p tr :
  Forall (λ o, obs_pass o ≠ Some p) tr → calls p tr = [].
Proof.
  induction 1 as [|o tr Ho _ IH]; [done|].
  change (o :: tr) with ([o] ++ tr). rewrite calls_app, IH, app_nil_r.
  destruct o; simpl in *; try done. case_decide; [congruence|done].
Qed.

Lemma puts_silent p tr :
  Forall (λ o, obs_pass o ≠ Some p) tr → puts p tr = [].
Proof.
  induction 1 as [|o tr Ho _ IH]; [done|].
  change (o :: tr) with ([o] ++ tr). rewrite puts_app, IH, app_nil_r.
  destruct o; simpl in *; try done. case_decide; [congruence|done].
Qed.

Lemma tasks_silent p tr :
  Forall (λ o, obs_pass o ≠ Some p) tr → tasks p tr = [].
Proof.
  induction 1 as [|o tr Ho _ IH]; [done|].
  change (o :: tr) with ([o] ++ tr). rewrite tasks_app, IH, app_nil_r.
  destruct o; simpl in *; try done. case_decide; [congruence|done].
Qed.

Lemma silent_other p q tr :
  Forall (λ o, obs_pass o = Some p) tr → q ≠ p →
  Forall (λ o, obs_pass o ≠ Some q) tr.
Proof. intros Htr Hne. eapply Forall_impl; [done|]. simpl. congruence. Qed.

Lemma silent_no_done p tr :
  Forall (λ o, obs_pass o ≠ Some p) tr → ObsDone p ∉ tr.
Proof. rewrite Forall_forall. intros Htr Hin. by apply (Htr _ Hin). Qed.

Lemma silent_no_uncaught p tr :
  Forall (λ o, obs_pass o ≠ Some p) tr → ¬ uncaught p tr.
Proof. rewrite Forall_forall. intros Htr [e Hin]. by apply (Htr _ Hin). Qed.

Lemma uncaught_app p tr1 tr2 :
  uncaught p (tr1 ++ tr2) ↔ uncaught p tr1 ∨ uncaught p tr2.
Proof.
  unfold uncaught. split.
  - intros [e [?|?]%elem_of_app]; eauto.
  - intros [[e ?]|[e ?]]; exists e; apply elem_of_app; eauto.
Qed.

(** ** The invariant *)

(** A task of pass [p] leaves the standing of every other pass alone. *)
Lemma pass_status_frame st st' p q new :
  q ≠ p →
  trace st' = trace st ++ new →
  Forall (λ o, obs_pass o = Some p) new →
  (∀ t, pass t ≠ p → t ∈ timers st' ↔ t ∈ timers st) →
  (passes st ≤ passes st')%nat →
  ((passes st ≤ q)%nat → (passes st' ≤ q)%nat) →
  pass_status st q → pass_status st' q.
Proof.
  intros Hne Htr Hnew Hts Hps Hps'.
  pose proof (silent_other _ _ _ Hnew Hne) as Hsilent.
  assert (Hnotin : q ∉ pass <$> timers st → q ∉ pass <$> timers st').
  { intros Hq (t & -> & Ht)%list_elem_of_fmap. apply Hts in Ht; [|done].
    by apply Hq, list_elem_of_fmap_2. }
  assert (Hdone : ObsDone q ∉ trace st → ObsDone q ∉ trace st').
  { rewrite Htr. intros Hq [?|?]%elem_of_app; [done|].
    by apply (silent_no_done _ _ Hsilent). }
  assert (Hunc : ¬ uncaught q (trace st) → ¬ uncaught q (trace st')).
  { rewrite Htr. intros Hq [?|?]%uncaught_app; [done|].
    by apply (silent_no_uncaught _ _ Hsilent). }
  assert (Hcalls : calls q (trace st') = calls q (trace st)).
  { by rewrite Htr, calls_app, (calls_silent _ _ Hsilent), app_nil_r. }
  assert (Htasks : tasks q (trace st') = tasks q (trace st)).
  { by rewrite Htr, tasks_app, (tasks_silent _ _ Hsilent), app_nil_r. }
  intros [Hq Hsil Hno|i Hq Hi Ht Hta Hca Hva Hd Hu|Hq Hno Hta Hca Hva Hd Hu
         |i j e vs Hq Hno Hi Hj Hta Hca Hvs Hva Hu Hd].
  - apply Unstarted; [by apply Hps'| |by apply Hnotin].
    rewrite Htr. by apply Forall_app.
  - apply (Active _ _ i); rewrite ?Hcalls, ?Htasks; try done; [lia| |auto..].
    apply Hts; [simpl; done|done].
  - apply Finished; rewrite ?Hcalls, ?Htasks; try done; [lia|auto| |auto].
    rewrite Htr. apply elem_of_app. by left.
  - apply (Stalled _ _ i j e vs); rewrite ?Hcalls, ?Htasks; try done;
      [lia|auto| |auto].
    rewrite Htr. apply elem_of_app. by left.
Qed.

Lemma pass_status_same st st' q :
  trace st' = trace st → timers st' = timers st → passes st' = passes st →
  pass_status st q → pass_status st' q.
Proof.
  intros Htr Hts Hps. apply (pass_status_frame st st' (S q) q []).
  - lia.
  - by rewrite Htr, app_nil_r.
  - constructor.
  - intros t _. by rewrite Hts.
  - lia.
  - lia.
Qed.

Lemma init_unfold m0 :
  init m0 =
  mkState (wasm_create_camera CANVAS_WIDTH CANVAS_HEIGHT (wasm_create_world m0).2).2
          (wasm_create_world m0).1
          (wasm_create_camera CANVAS_WIDTH CANVAS_HEIGHT (wasm_create_world m0).2).1
          0 (mkCanvas CANVAS_WIDTH CANVAS_HEIGHT ∅) page_text [] 0
          [ObsCreateWorld (wasm_create_world m0).1;
           ObsCreateCamera CANVAS_WIDTH CANVAS_HEIGHT
             (wasm_create_camera CANVAS_WIDTH CANVAS_HEIGHT (wasm_create_world m0).2).1].
Proof.
  unfold init. destruct (wasm_create_world m0) as [w m1]. simpl.
  by destruct (wasm_create_camera CANVAS_WIDTH CANVAS_HEIGHT m1) as [c m2].
Qed.

Lemma invariant_init m0 : invariant m0 (init m0).
Proof.
  split; try done; rewrite init_unfold; simpl; try done.
  - constructor.
  - intros p. apply Unstarted; simpl; [lia| |apply not_elem_of_nil].
    by repeat constructor.
  - intros p x y d Hin. by apply elem_of_nil in Hin.
Qed.

Lemma invariant_freezed m0 st :
  invariant m0 st → invariant m0 (on_freezed_click st).
Proof.
  intros [Hw Hh Hwo Hca Hts Hst Hpu Hcr Hcl Hm Han Hbm Hal Hpa].
  split; try done. intros p. by apply (pass_status_same st).
Qed.

Lemma on_render_click_spec st :
  width (canvas st) = CANVAS_WIDTH →
  on_render_click st =
  mkState (wasm st) (world st) (camera st) (count st) (canvas st)
          (freezedText st) (timers st ++ [mkTimer (passes st) 0])
          (S (passes st)) (trace st ++ [ObsLog (passes st) "rendering!"]).
Proof. intros Hw. unfold on_render_click, loop_head. simpl. by rewrite Hw. Qed.

Lemma unstarted_next st : (∀ p, pass_status st p) → passes st ∉ pass <$> timers st.
Proof. intros Hst. destruct (Hst (passes st)); try done; lia. Qed.

Lemma unstarted_silent st p :
  (∀ p, pass_status st p) → (passes st ≤ p)%nat →
  Forall (λ o, obs_pass o ≠ Some p) (trace st).
Proof. intros Hst Hp. destruct (Hst p); try done; lia. Qed.

Lemma invariant_render m0 st :
  invariant m0 st → invariant m0 (on_render_click st).
Proof.
  intros [Hw Hh Hwo Hca Hts Hst Hpu Hcr Hcl Hm Han Hbm Hal Hpa].
  rewrite (on_render_click_spec st Hw).
  pose proof (unstarted_next st Hst) as Hfresh.
  pose proof (unstarted_silent st (passes st) Hst (le_n _)) as Hsil.
  split; cbn [wasm world camera count canvas freezedText timers passes trace];
    try done.
  - rewrite fmap_app. apply NoDup_app. repeat split; [done| |by apply NoDup_singleton].
    intros p Hp ->%list_elem_of_singleton. done.
  - intros p. destruct (decide (p = passes st)) as [->|Hne].
    + apply (Active _ _ 0); cbn [passes timers trace]; [lia|done|..].
      * apply elem_of_app. right. by apply list_elem_of_singleton.
      * by rewrite tasks_app, (tasks_silent _ _ Hsil).
      * by rewrite calls_app, (calls_silent _ _ Hsil).
      * rewrite calls_app, (calls_silent _ _ Hsil). constructor.
      * intros [?|?%list_elem_of_singleton]%elem_of_app; [|done].
        by apply (silent_no_done _ _ Hsil).
      * intros [?|[e ?%list_elem_of_singleton]]%uncaught_app; [|done].
        by apply (silent_no_uncaught _ _ Hsil).
    + eapply (pass_status_frame st _ (passes st) p [ObsLog (passes st) "rendering!"]);
        cbn [passes timers trace]; try done; [by repeat constructor| |lia|lia].
      intros t Ht. rewrite elem_of_app, list_elem_of_singleton.
      split; [|by left]. intros [?| ->]; done.
  - intros p. rewrite puts_app, calls_app, omap_app. by rewrite Hpu.
  - rewrite creations_app, Hcr. apply app_nil_r.
  - by rewrite all_calls_app, app_nil_r.
  - by rewrite all_calls_app, app_nil_r.
  - by rewrite results_app, app_nil_r.
  - intros xy px (p & color & Hin & ->)%Hbm. exists p, color.
    split; [|done]. rewrite calls_app. apply elem_of_app. by left.
  - intros p x y d. rewrite puts_app, app_nil_r. apply Hpa.
Qed.

Lemma seqZ_snoc i : 0 ≤ i → seqZ 0 (i + 1) = seqZ 0 i ++ [i].
Proof. intros Hi. by rewrite seqZ_app by lia. Qed.

Lemma NoDup_fmap_eq {X Y} (f : X → Y) (l : list X) x y :
  NoDup (f <$> l) → x ∈ l → y ∈ l → f x = f y → x = y.
Proof.
  intros Hnd [a Ha]%list_elem_of_lookup [b Hb]%list_elem_of_lookup Hxy.
  assert (a = b) as ->; [|congruence].
  eapply (NoDup_lookup _ _ _ (f x) Hnd); rewrite list_lookup_fmap.
  - by rewrite Ha.
  - by rewrite Hb, Hxy.
Qed.

Lemma task_chunk p w c i rs tail :
  is_end p tail →
  let new := ObsTask p i :: column_obs p w c i 0 rs ++ tail in
  Forall (λ o, obs_pass o = Some p) new ∧
  tasks p new = [i] ∧
  calls p new = zip (pair i <$> seqZ 0 (Z.of_nat (length rs))) rs ∧
  (∀ q, puts q new = omap written (calls q new)) ∧
  all_calls new = pair (w, c) <$> (pair i <$> seqZ 0 (Z.of_nat (length rs))) ∧
  all_tasks new = [(p, i)] ∧
  results new = rs.
Proof.
  intros Hend new.
  assert (Hpass : Forall (λ o, obs_pass o = Some p) new).
  { constructor; [done|]. apply Forall_app. split; [apply column_obs_pass|].
    destruct Hend as [->|[->|[e ->]]]; by repeat constructor. }
  assert (Hputs : ∀ q, puts q new = omap written (calls q new)).
  { intros q. destruct (decide (q = p)) as [->|Hne].
    - subst new. change (ObsTask p i :: ?l) with ([ObsTask p i] ++ l).
      rewrite !puts_app, !calls_app, !omap_app, puts_column_obs.
      by destruct Hend as [->|[->|[e ->]]].
    - by rewrite (calls_other _ _ _ Hpass Hne), (puts_other _ _ _ Hpass Hne). }
  split; [done|]. subst new.
  change (ObsTask p i :: ?l) with ([ObsTask p i] ++ l) in *.
  rewrite !tasks_app, !calls_app, !all_calls_app, !all_tasks_app, !results_app.
  rewrite tasks_column_obs, calls_column_obs, all_calls_column_obs,
    all_tasks_column_obs, results_column_obs.
  assert (tasks p [ObsTask p i] = [i]) as ->.
  { unfold tasks. simpl. by rewrite decide_True. }
  repeat split.
  - by destruct Hend as [->|[->|[e ->]]].
  - destruct Hend as [->|[->|[e ->]]]; apply app_nil_r.
  - done.
  - destruct Hend as [->|[->|[e ->]]]; apply app_nil_r.
  - by destruct Hend as [->|[->|[e ->]]].
  - destruct Hend as [->|[->|[e ->]]]; apply app_nil_r.
Qed.

Lemma invariant_timer m0 st k t st' :
  invariant m0 st → timers st !! k = Some t →
  timer_callback t (set_timers st (delete k (timers st))) = Some st' →
  invariant m0 st'.
Proof.
  intros [Hw Hh Hwo Hca Hts Hst Hpu Hcr Hcl Hm Han Hbm Hal Hpa] Hk Hcb.
  destruct (timers_split _ _ _ Hk) as (l1 & l2 & Hl & Hdel).
  rewrite Hdel in Hcb.
  apply timer_callback_spec in Hcb
    as (rs & tail & Htr & Hcv & Hmem & Hw' & Hc' & _ & _ & Hps & Hans & Hcase).
  cbn [trace canvas wasm world camera timers passes set_timers] in *.
  destruct t as [p i]. cbn [pass column] in *.
  rewrite Hw, Hh in Hcase.
  assert (Hin : mkTimer p i ∈ timers st).
  { rewrite Hl. apply elem_of_app. right. by left. }
  assert (Hp : p ∈ pass <$> timers st).
  { by apply (list_elem_of_fmap_2 pass) in Hin. }
  destruct (Hst p) as [| i0 Hq Hi Ht Hta Hca' Hva Hd Hu | |]; try done.
  assert (i0 = i) as ->.
  { pose proof (NoDup_fmap_eq pass _ _ _ Hts Ht Hin eq_refl). congruence. }
  rewrite Hl, fmap_app, fmap_cons in Hts. cbn [pass] in Hts.
  apply NoDup_app in Hts as (Hnd1 & Hnd12 & Hnd2).
  apply NoDup_cons in Hnd2 as [Hp2 Hnd2].
  assert (Hp1 : p ∉ pass <$> l1).
  { intros Hp1. apply (Hnd12 _ Hp1). by left. }
  assert (Hnd : NoDup (pass <$> l1 ++ l2)).
  { rewrite fmap_app. apply NoDup_app. repeat split; [done| |done].
    intros q Hq1 Hq2. apply (Hnd12 _ Hq1). by right. }
  assert (Hpn : p ∉ pass <$> l1 ++ l2).
  { rewrite fmap_app. intros [?|?]%elem_of_app; done. }
  assert (Hend : is_end p tail).
  { destruct Hcase as [(_ & _ & [(_ & -> & _)|(_ & -> & _)])
                      |(e & vs & _ & _ & _ & -> & _)];
      [by left|right; by left|right; right; by exists e]. }
  destruct (task_chunk p (world st) (camera st) i rs tail Hend)
    as (Hpass & Htasks & Hcalls & Hputs & Hall & _ & Hres).
  set (new := ObsTask p i :: column_obs p (world st) (camera st) i 0 rs ++ tail) in *.
  assert (Htimers : ∀ t', pass t' ≠ p → t' ∈ timers st' ↔ t' ∈ timers st).
  { intros t' Ht'. rewrite Hl.
    assert (t' ∈ l1 ++ mkTimer p i :: l2 ↔ t' ∈ l1 ++ l2) as ->.
    { rewrite !elem_of_app, elem_of_cons. split; [|tauto].
      intros [?|[->|?]]; [tauto|done|tauto]. }
    destruct Hcase as [(_ & _ & [(_ & _ & ->)|(_ & _ & ->)])
                      |(e & vs & _ & _ & _ & _ & ->)]; [|done..].
    rewrite elem_of_app, list_elem_of_singleton. split; [|tauto].
    intros [?| ->]; done. }
  assert (Hnotin : p ∈ pass <$> timers st' → ∃ i', timers st' = (l1 ++ l2) ++ [mkTimer p i']).
  { destruct Hcase as [(_ & _ & [(_ & _ & ->)|(_ & _ & ->)])
                      |(e & vs & _ & _ & _ & _ & ->)]; [eauto|done..]. }
  split.
  - by rewrite Hcv, paint_width.
  - by rewrite Hcv, paint_height.
  - congruence.
  - congruence.
  - destruct Hcase as [(_ & _ & [(_ & _ & ->)|(_ & _ & ->)])
                      |(e & vs & _ & _ & _ & _ & ->)]; [|done..].
    rewrite fmap_app. apply NoDup_app. repeat split; [done| |by apply NoDup_singleton].
    by intros q Hq' ->%list_elem_of_singleton.
  - intros q. destruct (decide (q = p)) as [->|Hne];
      [|by apply (pass_status_frame st st' p q new); try done; lia].
    destruct Hcase as [(Hvs & Hlen & [(Hlt & -> & Hts')|(Hge & -> & Hts')])
                      |(e & vs & -> & Hvs & Hlt & -> & Hts')].
    + apply (Active _ _ (i + 1)); rewrite ?Htr, ?Hts', ?Hps; [done|lia|..].
      * apply elem_of_app. right. by left.
      * by rewrite tasks_app, Htasks, Hta, seqZ_snoc by lia.
      * rewrite calls_app, Hcalls, fmap_app, Hca', column_major_snoc by lia.
        rewrite fst_zip; [by rewrite Hlen|].
        rewrite length_fmap, length_seqZ. lia.
      * rewrite calls_app, Hcalls, fmap_app, snd_zip.
        -- by apply Forall_app.
        -- rewrite length_fmap, length_seqZ. lia.
      * intros [?|Hin']%elem_of_app; [done|].
        apply elem_of_cons in Hin' as [?|Hin']; [done|].
        rewrite app_nil_r in Hin'. by apply column_obs_no_done in Hin'.
      * intros [?|[e Hin']]%uncaught_app; [done|].
        apply elem_of_cons in Hin' as [?|Hin']; [done|].
        rewrite app_nil_r in Hin'. by apply column_obs_no_uncaught in Hin'.
    + assert (i + 1 = CANVAS_WIDTH) as Hi1 by lia.
      apply Finished; rewrite ?Htr, ?Hts', ?Hps; [done|done|..].
      * by rewrite tasks_app, Htasks, Hta, <- Hi1, seqZ_snoc by lia.
      * rewrite calls_app, Hcalls, fmap_app, Hca', <- Hi1, column_major_snoc by lia.
        rewrite fst_zip; [by rewrite Hlen|].
        rewrite length_fmap, length_seqZ. lia.
      * rewrite calls_app, Hcalls, fmap_app, snd_zip.
        -- by apply Forall_app.
        -- rewrite length_fmap, length_seqZ. lia.
      * apply elem_of_app. right. subst new. right. apply elem_of_app. right. by left.
      * intros [?|[e Hin']]%uncaught_app; [done|].
        apply elem_of_cons in Hin' as [?|Hin']; [done|].
        apply elem_of_app in Hin' as [Hin'|Hin'];
          [by apply column_obs_no_uncaught in Hin'|].
        by apply list_elem_of_singleton in Hin'.
    + apply (Stalled _ _ i (Z.of_nat (length vs)) e
               (calls p (trace st) ++ zip (pair i <$> seqZ 0 (Z.of_nat (length vs))) vs));
        rewrite ?Htr, ?Hts', ?Hps; [done|done|done|lia|..].
      * by rewrite tasks_app, Htasks, Hta, seqZ_snoc by lia.
      * by rewrite calls_app, Hcalls, zip_rows_snoc, app_assoc.
      * rewrite fmap_app, Hca', fst_zip; [done|].
        rewrite length_fmap, length_seqZ. lia.
      * rewrite fmap_app, snd_zip.
        -- by apply Forall_app.
        -- rewrite length_fmap, length_seqZ. lia.
      * apply elem_of_app. right. subst new. right. apply elem_of_app. right. by left.
      * intros [?|Hin']%elem_of_app; [done|].
        apply elem_of_cons in Hin' as [?|Hin']; [done|].
        apply elem_of_app in Hin' as [Hin'|Hin'];
          [by apply column_obs_no_done in Hin'|].
        by apply list_elem_of_singleton in Hin'.
  - intros q. by rewrite Htr, puts_app, calls_app, omap_app, Hpu, Hputs.
  - by rewrite Htr, creations_app, Hcr, (creations_pass _ _ Hpass), app_nil_r.
  - rewrite Htr, all_calls_app. apply Forall_app. split; [done|].
    rewrite Hall, <- Hwo, <- Hca. apply Forall_fmap, Forall_true. done.
  - rewrite Hmem, Htr, all_calls_app, fmap_app, Hall, Hm, Hwo, Hca.
    unfold after_calls. rewrite foldl_app. f_equal.
    rewrite <- list_fmap_compose. symmetry. apply list_fmap_id.
  - rewrite Htr, results_app, Hres. by apply Forall_app.
  - intros xy px. rewrite Hcv, Htr.
    intros [Hold|(color & Hin' & ->)]%(paint_origin p (world st) (camera st)).
    + destruct (Hbm _ _ Hold) as (q & color & Hin' & ->). exists q, color.
      split; [|done]. rewrite calls_app. apply elem_of_app. by left.
    + exists p, color. split; [|done]. rewrite calls_app. apply elem_of_app.
      right. subst new. change (ObsTask p i :: ?l) with ([ObsTask p i] ++ l).
      rewrite !calls_app. apply elem_of_app. right. apply elem_of_app. by left.
  - rewrite Hcv. by apply paint_alpha.
  - intros q x y d. rewrite Htr, puts_app, Hcv, in_canvas_paint.
    intros [Hold|Hnew]%elem_of_app Hxy.
    + apply paint_mono. by apply (Hpa q x y d).
    + destruct (decide (q = p)) as [->|Hne];
        [|by rewrite (puts_other _ _ _ Hpass Hne) in Hnew; apply elem_of_nil in Hnew].
      subst new. change (ObsTask p i :: ?l) with ([ObsTask p i] ++ l) in Hnew.
      rewrite !puts_app in Hnew.
      apply elem_of_app in Hnew as [Hnew|Hnew]; [by apply elem_of_nil in Hnew|].
      apply elem_of_app in Hnew as [Hnew|Hnew]; [by eapply paint_painted|].
      destruct Hend as [->|[->|[e ->]]]; by apply elem_of_nil in Hnew.
Qed.

Lemma invariant_fire m0 st ev : invariant m0 st → invariant m0 (fire st ev).
Proof.
  intros Hinv. unfold fire. destruct ev as [| |k]; simpl.
  - by apply invariant_freezed.
  - by apply invariant_render.
  - destruct (timers st !! k) as [t|] eqn:Hk; [|done].
    destruct (timer_callback _ _) as [st'|] eqn:Hcb; [|done].
    by apply (invariant_timer m0 st k t).
Qed.

Lemma exec_snoc st evs ev : exec st (evs ++ [ev]) = fire (exec st evs) ev.
Proof. unfold exec. by rewrite foldl_app. Qed.

Lemma exec_app st evs1 evs2 : exec st (evs1 ++ evs2) = exec (exec st evs1) evs2.
Proof. unfold exec. by rewrite foldl_app. Qed.

Lemma invariant_exec m0 evs : invariant m0 (exec (init m0) evs).
Proof.
  induction evs as [|ev evs IH] using rev_ind; [apply invariant_init|].
  rewrite exec_snoc. by apply invariant_fire.
Qed.

(** A pending timer can always fire: the callback terminates. *)
Lemma timer_callback_total t st : is_Some (timer_callback t st).
Proof.
  unfold timer_callback. set (st1 := log st _).
  destruct (column_loop_fuel (Z.to_nat (height (canvas st1))) (pass t) (column t)
              0 st1) as [out Hout]; [lia|].
  rewrite Hout. destruct out; by eexists.
Qed.

Lemma step_enabled st ev :
  step st ev = None ↔ ∃ k, ev = TimerFires k ∧ (length (timers st) ≤ k)%nat.
Proof.
  destruct ev as [| |k]; simpl.
  - split; [done|]. by intros (k & ? & _).
  - split; [done|]. by intros (k & ? & _).
  - destruct (timers st !! k) as [t|] eqn:Hk.
    + destruct (timer_callback_total t (set_timers st (delete k (timers st))))
        as [st' ->].
      split; [done|]. intros (k' & [= <-] & Hlen).
      apply lookup_lt_Some in Hk. lia.
    + split; [|done]. intros _. exists k. split; [done|].
      by apply lookup_ge_None.
Qed.

(** Every task only adds to the trace. *)
Lemma fire_trace st ev : ∃ new, trace (fire st ev) = trace st ++ new.
Proof.
  unfold fire. destruct ev as [| |k]; simpl.
  - exists []. by rewrite app_nil_r.
  - unfold on_render_click, loop_head. simpl.
    destruct (0 <? width (canvas st)); simpl; [by eexists|].
    eexists. by rewrite <- app_assoc.
  - destruct (timers st !! k) as [t|] eqn:Hk;
      [|exists []; by rewrite app_nil_r].
    destruct (timer_callback _ _) as [st'|] eqn:Hcb;
      [|exists []; by rewrite app_nil_r].
    apply timer_callback_spec in Hcb as (rs & tail & Htr & _). by eexists.
Qed.

Lemma exec_trace st evs : ∃ new, trace (exec st evs) = trace st ++ new.
Proof.
  induction evs as [|ev evs [new IH]] using rev_ind.
  - exists []. by rewrite app_nil_r.
  - rewrite exec_snoc. destruct (fire_trace (exec st evs) ev) as [new' Hnew'].
    exists (new ++ new'). by rewrite Hnew', IH, app_assoc.
Qed.

(** ** What the traces of a pass look like *)

Lemma column_major_prefix i w h :
  0 ≤ i ≤ w → column_major i h `prefix_of` column_major w h.
Proof.
  intros Hi. unfold column_major.
  replace w with (i + (w - i)) by lia. rewrite seqZ_app by lia.
  rewrite bind_app. by eexists.
Qed.

Lemma calls_prefix m0 evs p :
  (calls p (trace (exec (init m0) evs))).*1
    `prefix_of` column_major CANVAS_WIDTH CANVAS_HEIGHT.
Proof.
  destruct (invariant_exec m0 evs) as [_ _ _ _ _ Hst _ _ _ _ _ _ _ _].
  destruct (Hst p) as [Hq Hsil Hno|i Hq Hi Ht Hta Hca Hva Hd Hu|Hq Hno Hta Hca Hva Hd Hu
                      |i j e vs Hq Hno Hi Hj Hta Hca Hvs Hva Hu Hd].
  - rewrite (calls_silent _ _ Hsil). apply prefix_nil.
  - rewrite Hca. apply column_major_prefix. lia.
  - by rewrite Hca.
  - rewrite Hca, fmap_app, Hvs. simpl.
    etrans; [|apply (column_major_prefix (i + 1)); lia].
    rewrite column_major_snoc by lia. rewrite <- app_assoc.
    apply prefix_app.
    replace CANVAS_HEIGHT with ((j + 1) + (CANVAS_HEIGHT - (j + 1))) by lia.
    rewrite (seqZ_app 0 (j + 1)) by lia. rewrite seqZ_snoc by lia.
    rewrite !fmap_app. by eexists.
Qed.

Lemma calls_NoDup m0 evs p :
  NoDup (calls p (trace (exec (init m0) evs))).*1.
Proof.
  destruct (calls_prefix m0 evs p) as [k Hk].
  pose proof (column_major_NoDup CANVAS_WIDTH CANVAS_HEIGHT) as Hnd.
  rewrite Hk in Hnd. by apply NoDup_app in Hnd as [? _].
Qed.

Lemma put_of_call m0 evs p x y d :
  (x, y, d) ∈ puts p (trace (exec (init m0) evs)) →
  ∃ color, (x, y, Value color) ∈ calls p (trace (exec (init m0) evs)) ∧
           d = rgba color.
Proof.
  destruct (invariant_exec m0 evs) as [_ _ _ _ _ _ Hpu _ _ _ _ _ _ _].
  rewrite Hpu. intros ([[i j] r] & Hin & Hw)%list_elem_of_omap.
  unfold written in Hw. destruct r as [color|e]; [|done].
  simpl in Hw. injection Hw as -> -> <-. by exists color.
Qed.

Lemma timer_of_active m0 st t :
  invariant m0 st → t ∈ timers st →
  (pass t < passes st)%nat ∧ 0 ≤ column t < CANVAS_WIDTH ∧
  tasks (pass t) (trace st) = seqZ 0 (column t).
Proof.
  intros Hinv Hin.
  assert (Hp : pass t ∈ pass <$> timers st) by by apply list_elem_of_fmap_2.
  destruct (inv_status _ _ Hinv (pass t)) as [| i Hq Hi Ht Hta _ _ _ _ | |];
    try done.
  pose proof (NoDup_fmap_eq pass _ _ _ (inv_timers _ _ Hinv) Ht Hin eq_refl)
    as <-.
  done.
Qed.


Lemma snd_pair_fmap {X Y} (a : X) (l : list Y) : (pair a <$> l).*2 = l.
Proof. rewrite <- list_fmap_compose. apply list_fmap_id. Qed.

Lemma call_result p i j r tr : (i, j, r) ∈ calls p tr → r ∈ results tr.
Proof.
  intros (o & Ho & Hf)%list_elem_of_omap. apply list_elem_of_omap.
  exists o. split; [done|]. destruct o; try done.
  case_decide; [|done]. by injection Hf as -> -> ->.
Qed.

Lemma total_no_raise m0 evs p i j e :
  always_returns → (i, j, Raise e) ∉ calls p (trace (exec (init m0) evs)).
Proof.
  intros Htotal Hin%call_result.
  destruct (invariant_exec m0 evs) as [_ _ _ _ _ _ _ _ _ _ Han _ _ _].
  rewrite Forall_forall in Han.
  destruct (Han _ Hin) as (w & c & i' & j' & m & Hr).
  specialize (Htotal w c i' j' m). by rewrite <- Hr in Htotal.
Qed.

(** ** The anatomy of a column task *)

(** A pass with a pending callback has run the columns before it, and
    nothing else. *)
Lemma pending_pass m0 st t :
  invariant m0 st → t ∈ timers st →
  (calls (pass t) (trace st)).*1 = column_major (column t) CANVAS_HEIGHT ∧
  Forall is_value (calls (pass t) (trace st)).*2 ∧
  (ObsDone (pass t) ∉ trace st) ∧ ¬ uncaught (pass t) (trace st).
Proof.
  intros Hinv Hin.
  assert (Hp : pass t ∈ pass <$> timers st) by by apply list_elem_of_fmap_2.
  destruct (inv_status _ _ Hinv (pass t)) as [| i Hq Hi Ht Hta Hca Hva Hd Hu | |];
    try done.
  pose proof (NoDup_fmap_eq pass _ _ _ (inv_timers _ _ Hinv) Ht Hin eq_refl)
    as <-.
  done.
Qed.

(** What running the [k]-th pending callback does: it is taken off the
    timers, announces its column, calls [color_at] down the column and
    writes each returned color, until the column is done or a call
    throws; the next column is handed to [setTimeout] in the first
    case, unless this was the last column, and nothing is in the
    second. *)
Lemma fire_timer_spec m0 st k t :
  invariant m0 st → timers st !! k = Some t →
  let st' := fire st (TimerFires k) in
  ∃ rs tail,
    trace st' = trace st ++ ObsTask (pass t) (column t)
                  :: column_obs (pass t) (world st) (camera st) (column t) 0 rs
                  ++ tail ∧
    is_end (pass t) tail ∧
    passes st' = passes st ∧
    ((Forall is_value rs ∧ length rs = 300%nat ∧
      ((column t + 1 < 600 ∧ tail = [] ∧
        timers st' = delete k (timers st) ++ [mkTimer (pass t) (column t + 1)]) ∨
       (column t + 1 = 600 ∧ tail = [ObsDone (pass t)] ∧
        timers st' = delete k (timers st))))
     ∨
     (∃ e vs, rs = vs ++ [Raise e] ∧ Forall is_value vs ∧
              (length vs < 300)%nat ∧
              tail = [ObsUncaught (pass t) e] ∧
              timers st' = delete k (timers st))).
Proof.
  intros Hinv Hk. unfold fire. cbn [step]. rewrite Hk.
  destruct (timer_callback_total t (set_timers st (delete k (timers st))))
    as [st' Hcb].
  rewrite Hcb. cbn [default from_option id].
  destruct (timer_of_active m0 st t Hinv) as (_ & Hi & _);
    [by eapply list_elem_of_lookup_2|].
  apply timer_callback_spec in Hcb
    as (rs & tail & Htr & _ & _ & _ & _ & _ & _ & Hps & _ & Hcase).
  cbn [trace canvas timers passes world camera set_timers] in *.
  rewrite (inv_width _ _ Hinv), (inv_height _ _ Hinv) in Hcase.
  unfold CANVAS_WIDTH, CANVAS_HEIGHT in *.
  exists rs, tail. split; [done|]. split.
  { destruct Hcase as [(_ & _ & [(_ & -> & _)|(_ & -> & _)])
                      |(e & vs & _ & _ & _ & -> & _)];
      [by left|right; by left|right; right; by eexists]. }
  split; [done|].
  destruct Hcase as [(Hvs & Hlen & [(Hlt & -> & ->)|(Hge & -> & ->)])
                    |(e & vs & -> & Hvs & Hlt & -> & ->)].
  - left. split; [done|]. split; [lia|]. by left.
  - left. split; [done|]. split; [lia|]. right. split; [lia|done].
  - right. exists e, vs. split; [done|]. split; [done|]. split; [lia|done].
Qed.

Lemma fst_zip_rows (i : Z) (rs : list (Result Exn)) :
  (zip (pair i <$> seqZ 0 (Z.of_nat (length rs))) rs).*1
  = pair i <$> seqZ 0 (Z.of_nat (length rs)).
Proof. apply fst_zip. by rewrite length_fmap, length_seqZ, Nat2Z.id. Qed.

(** ** Executions in which every call made has returned *)

Lemma returned_no_raise tr p i j e :
  Forall is_value (results tr) → (i, j, Raise e) ∉ calls p tr.
Proof.
  intros Hret Hin%call_result. rewrite Forall_forall in Hret.
  by apply Hret in Hin.
Qed.

Lemma returned_before st ev :
  Forall is_value (results (trace (fire st ev))) →
  Forall is_value (results (trace st)).
Proof.
  destruct (fire_trace st ev) as [new ->]. rewrite results_app.
  by intros [? _]%Forall_app.
Qed.

Lemma fire_oldest_returned m0 st t ts :
  invariant m0 st → timers st = t :: ts →
  let st' := fire st (TimerFires 0) in
  Forall is_value (results (trace st')) →
  timers st' = ts ++ (if column t + 1 <? 600
                      then [mkTimer (pass t) (column t + 1)] else []) ∧
  all_tasks (trace st') = all_tasks (trace st) ++ [(pass t, column t)] ∧
  passes st' = passes st.
Proof.
  intros Hinv Hts st' Hret.
  assert (Hk : timers st !! 0%nat = Some t) by by rewrite Hts.
  destruct (fire_timer_spec m0 st 0 t Hinv Hk)
    as (rs & tail & Htr & Hend & Hps & Hcase).
  fold st' in Htr, Hps, Hcase.
  destruct (task_chunk (pass t) (world st) (camera st) (column t) rs tail Hend)
    as (_ & _ & _ & _ & _ & Hta & Hrs).
  rewrite Htr, results_app, Hrs in Hret. apply Forall_app in Hret as [_ Hret].
  rewrite Htr, all_tasks_app, Hta, Hts in *. cbn [delete list_delete] in Hcase.
  split; [|done].
  destruct Hcase as [(_ & _ & [(Hlt & _ & ->)|(Hge & _ & ->)])
                    |(e & vs & -> & _)].
  - apply Z.ltb_lt in Hlt. by rewrite Hlt.
  - assert (Hf : (column t + 1 <? 600) = false) by (apply Z.ltb_ge; lia).
    by rewrite Hf, app_nil_r.
  - apply Forall_app in Hret as [_ Hret]. rewrite Forall_singleton in Hret.
    done.
Qed.

Lemma single_pass_returned m0 n :
  (n ≤ 600)%nat →
  let st := exec (init m0) (ClickRender :: repeat (TimerFires 0) n) in
  Forall is_value (results (trace st)) →
  all_tasks (trace st) = pair 0%nat <$> seqZ 0 (Z.of_nat n) ∧
  timers st = (if Z.of_nat n <? 600 then [mkTimer 0 (Z.of_nat n)] else []) ∧
  passes st = 1%nat.
Proof.
  induction n as [|n IH]; intros Hn.
  - intros st _. subst st. simpl. unfold fire. simpl.
    pose proof (invariant_init m0) as Hinv.
    rewrite (on_render_click_spec _ (inv_width _ _ Hinv)).
    by rewrite init_unfold.
  - cbn zeta in *. replace (S n) with (n + 1)%nat by lia.
    rewrite repeat_app. change (ClickRender :: ?l ++ ?k)
      with ((ClickRender :: l) ++ k).
    rewrite exec_app. simpl repeat.
    set (st := exec (init m0) _) in *.
    change (exec st [TimerFires 0]) with (fire st (TimerFires 0)).
    intros Hret.
    destruct IH as (IHtasks & IHtimers & IHpasses);
      [lia|by eapply returned_before|].
    assert (Hinv : invariant m0 st) by apply invariant_exec.
    assert (Hlt : (Z.of_nat n <? 600) = true) by (apply Z.ltb_lt; lia).
    rewrite Hlt in IHtimers.
    destruct (fire_oldest_returned m0 st _ _ Hinv IHtimers Hret)
      as (Hts1 & Hta1 & Hps1).
    cbn [pass column] in *.
    rewrite Hta1, IHtasks, Hps1, Hts1.
    replace (Z.of_nat (n + 1)) with (Z.of_nat n + 1) by lia.
    rewrite seqZ_snoc, fmap_app by lia. done.
Qed.

(** ** What the trace records of the engine *)

Lemma column_loop_honest fuel p i : ∀ j st out,
  column_loop fuel p i j st = Some out →
  Forall honest (trace st) → Forall honest (trace (outcome_state out)).
Proof.
  induction fuel as [|fuel IH]; intros j st out; simpl;
    destruct (j <? height (canvas st)); intros Hout Hst;
    try discriminate Hout; try (by injection Hout as <-).
  rewrite render_pixel_unfold in Hout. cbn zeta in Hout.
  assert (Hcall : honest (ObsColorAt p (world st) (camera st) i j
                    (wasm_color_at (world st) (camera st) i j (wasm st)).1))
    by by exists (wasm st).
  destruct (wasm_color_at (world st) (camera st) i j (wasm st)).1 as [color|e].
  - apply IH in Hout; [done|]. simpl.
    rewrite !Forall_app, !Forall_singleton. done.
  - injection Hout as <-. simpl. rewrite Forall_app, Forall_singleton. done.
Qed.

Lemma fire_honest st ev :
  Forall honest (trace st) → Forall honest (trace (fire st ev)).
Proof.
  intros Hst. unfold fire. destruct ev as [| |k]; simpl; [done| |].
  - unfold on_render_click, loop_head. simpl.
    destruct (0 <? width (canvas st)); simpl;
      rewrite ?Forall_app, ?Forall_singleton; done.
  - destruct (timers st !! k) as [t|]; [|done].
    destruct (timer_callback _ _) as [st'|] eqn:Hcb; [|done]. simpl.
    unfold timer_callback in Hcb.
    destruct (column_loop _ _ _ _ _) as [out|] eqn:Hloop; [|done].
    apply column_loop_honest in Hloop;
      [|simpl; rewrite Forall_app, Forall_singleton; done].
    destruct out as [st1|e st1]; injection Hcb as <-; simpl in *.
    + unfold loop_head. destruct (_ <? _); simpl;
        rewrite ?Forall_app, ?Forall_singleton; done.
    + rewrite Forall_app, Forall_singleton. done.
Qed.

Lemma exec_honest m0 evs : Forall honest (trace (exec (init m0) evs)).
Proof.
  induction evs as [|ev evs IH] using rev_ind.
  - rewrite init_unfold. simpl. by repeat constructor.
  - rewrite exec_snoc. by apply fire_honest.
Qed.

Lemma call_obs p i j r tr :
  (i, j, r) ∈ calls p tr → ∃ w c, ObsColorAt p w c i j r ∈ tr.
Proof.
  intros (o & Ho & Hf)%list_elem_of_omap.
  destruct o as [| | | |q w c i' j' r'| | |]; try done.
  case_decide; [|done]. injection Hf as -> -> ->. subst q. by exists w, c.
Qed.

(** An engine that returns on every pixel of the raster, whatever it
    does elsewhere, returns on every call that the driver makes. *)
Lemma in_range_calls_return m0 evs :
  returns_in_range m0 →
  Forall is_value (results (trace (exec (init m0) evs))).
Proof.
  intros Hrange. apply Forall_forall. intros r Hr.
  apply list_elem_of_omap in Hr as (o & Ho & Hf).
  destruct o as [| | | |p w c i j r'| | |]; try done. injection Hf as ->.
  pose proof (exec_honest m0 evs) as Hh. rewrite Forall_forall in Hh.
  destruct (Hh _ Ho) as [m ->].
  assert (Hwc : (w, c, (i, j)) ∈ all_calls (trace (exec (init m0) evs))).
  { apply list_elem_of_omap. by eexists. }
  pose proof (inv_calls _ _ (invariant_exec m0 evs)) as Hall.
  rewrite Forall_forall in Hall. apply Hall in Hwc. injection Hwc as -> ->.
  assert (Hij : (i, j) ∈ (calls p (trace (exec (init m0) evs))).*1).
  { apply list_elem_of_fmap. eexists (i, j, _). split; [done|].
    apply list_elem_of_omap. eexists. split; [exact Ho|].
    simpl. by rewrite decide_True. }
  eapply elem_of_prefix in Hij; [|apply calls_prefix].
  apply column_major_elem in Hij as [Hi Hj]. by apply Hrange.
Qed.

(** ** The claims *)

(** C8. Every pixel the driver writes is fully opaque: the image data
    handed to [putImageData] carries 255 in its alpha slot, for every
    pixel of every pass, and every pixel present in the bitmap of the
    canvas has alpha 255. *)
Theorem alpha_always_opaque m0 evs :
  let st := exec (init m0) evs in
  (∀ p x y d, (x, y, d) ∈ puts p (trace st) → d !! 3%nat = Some 255) ∧
  (∀ xy px, bitmap (canvas st) !! xy = Some px → A px = 255).
Proof.
  split.
  - intros p x y d (color & _ & ->)%put_of_call. done.
  - apply (invariant_exec m0 evs).
Qed.

(** C4. The world and the camera are created exactly once, by the
    module body and before anything else happens; after any schedule
    of clicks and timer tasks the bindings [world] and [camera] still
    hold these two objects, every call of [color_at] received exactly
    them, and the engine memory in which they live has been touched by
    nothing but these calls of [color_at]. *)
Theorem world_and_camera_created_once m0 evs :
  let st := exec (init m0) evs in
  let w0 := (wasm_create_world m0).1 in
  let m1 := (wasm_create_world m0).2 in
  let c0 := (wasm_create_camera 600 300 m1).1 in
  let m2 := (wasm_create_camera 600 300 m1).2 in
  (∃ rest, trace st = ObsCreateWorld w0 :: ObsCreateCamera 600 300 c0 :: rest ∧
           creations rest = []) ∧
  world st = w0 ∧ camera st = c0 ∧
  Forall (λ call, call.1 = (w0, c0)) (all_calls (trace st)) ∧
  wasm st = after_calls w0 c0 (all_calls (trace st)).*2 m2.
Proof.
  intros st w0 m1 c0 m2.
  destruct (invariant_exec m0 evs) as [_ _ Hwo Hca _ _ _ Hcr Hcl Hm _ _ _ _].
  fold st in Hwo, Hca, Hcr, Hcl, Hm. rewrite init_unfold in *. simpl in *.
  repeat split; try done.
  destruct (exec_trace (init m0) evs) as [rest Hrest].
  fold st in Hrest. rewrite init_unfold in Hrest. simpl in Hrest.
  exists rest. split; [done|].
  rewrite Hrest in Hcr.
  change (ObsCreateWorld ?w :: ObsCreateCamera ?a ?b ?c :: rest)
    with ([ObsCreateWorld w; ObsCreateCamera a b c] ++ rest) in Hcr.
  rewrite creations_app in Hcr.
  by apply (app_inv_head [_; _]) in Hcr.
Qed.

Lemma freezed_clicks_snoc evs ev :
  freezed_clicks (evs ++ [ev])
  = (freezed_clicks evs + match ev with ClickFreezed => 1 | _ => 0 end)%nat.
Proof.
  induction evs as [|ev' evs IH]; simpl; [by destruct ev|].
  destruct ev'; rewrite IH; lia.
Qed.

Lemma fire_count st ev :
  ev ≠ ClickFreezed →
  count (fire st ev) = count st ∧ freezedText (fire st ev) = freezedText st.
Proof.
  intros Hev. unfold fire. destruct ev as [| |k]; simpl; [done| |].
  - unfold on_render_click, loop_head. simpl.
    by destruct (0 <? width (canvas st)).
  - destruct (timers st !! k) as [t|]; [|done].
    destruct (timer_callback _ _) as [st'|] eqn:Hcb; [|done].
    by apply timer_callback_spec
      in Hcb as (rs & tail & _ & _ & _ & _ & _ & ? & ? & _).
Qed.

Lemma exec_count m0 evs :
  count (exec (init m0) evs) = Z.of_nat (freezed_clicks evs).
Proof.
  induction evs as [|ev evs IH] using rev_ind; [by rewrite init_unfold|].
  rewrite exec_snoc, freezed_clicks_snoc.
  destruct ev as [| |k].
  - unfold fire. simpl. lia.
  - destruct (fire_count (exec (init m0) evs) ClickRender) as [-> _]; [done|lia].
  - destruct (fire_count (exec (init m0) evs) (TimerFires k)) as [-> _]; [done|lia].
Qed.

(** C10. The probe button counts its clicks: the counter starts at 0
    and each click adds exactly one, so that after a schedule with [n]
    clicks on it (mixed with any render clicks and timer tasks) the
    counter is [n] and, once clicked, the text shown is
    "No, you are not! (n)".  A click on it changes neither the canvas
    nor the pending timers, the passes, the trace of the renders, the
    engine memory, the world or the camera. *)
Theorem freezed_click_counts m0 evs :
  let st := exec (init m0) evs in
  let n := Z.of_nat (freezed_clicks evs) in
  count (init m0) = 0 ∧
  count st = n ∧
  (0 < n → freezedText st = "No, you are not! (" +:+ pretty n +:+ ")") ∧
  (∀ st0, ∃ st1, step st0 ClickFreezed = Some st1 ∧
     count st1 = count st0 + 1 ∧
     canvas st1 = canvas st0 ∧ timers st1 = timers st0 ∧
     passes st1 = passes st0 ∧ trace st1 = trace st0 ∧
     wasm st1 = wasm st0 ∧ world st1 = world st0 ∧ camera st1 = camera st0).
Proof.
  cbn zeta. split; [by rewrite init_unfold|].
  split; [apply exec_count|]. split; [|intros st0; by eexists].
  induction evs as [|ev evs IH] using rev_ind; [simpl; lia|].
  rewrite exec_snoc, freezed_clicks_snoc. intros Hn.
  destruct ev as [| |k].
  - unfold fire. simpl. rewrite exec_count. do 3 f_equal. lia.
  - destruct (fire_count (exec (init m0) evs) ClickRender) as [_ ->]; [done|].
    rewrite Nat.add_0_r in *. by apply IH.
  - destruct (fire_count (exec (init m0) evs) (TimerFires k)) as [_ ->]; [done|].
    rewrite Nat.add_0_r in *. by apply IH.
Qed.

(** C7. A pixel whose [color_at] call throws is not written.  In the
    loop body nothing touches the canvas when the call throws; and in
    any execution, when pass [p] saw [color_at] throw at pixel
    [(i, j)], that call is the last one the pass has made and the pass
    has handed no image data to [putImageData] for [(i, j)]. *)
Theorem failed_pixel_not_written m0 evs p i j e :
  let st := exec (init m0) evs in
  (i, j, Raise e) ∈ calls p (trace st) →
  (∀ d, (i, j, d) ∉ puts p (trace st)) ∧
  (∃ vs, calls p (trace st) = vs ++ [(i, j, Raise e)]) ∧
  (∀ st0 q x y e' st1, render_pixel q x y st0 = Threw e' st1 →
                       canvas st1 = canvas st0).
Proof.
  intros st Hin. split; [|split].
  - intros d (color & Hin' & _)%put_of_call. fold st in Hin'.
    pose proof (calls_NoDup m0 evs p) as Hnd. fold st in Hnd.
    apply list_elem_of_lookup in Hin as [a Ha], Hin' as [b Hb].
    assert (a = b) as ->; [|congruence].
    eapply (NoDup_lookup _ _ _ (i, j) Hnd); rewrite list_lookup_fmap.
    + by rewrite Ha.
    + by rewrite Hb.
  - destruct (invariant_exec m0 evs) as [_ _ _ _ _ Hst _ _ _ _ _ _ _ _].
    fold st in Hst.
    assert (Hnot : ∀ l : list (Z * Z * Result Exn),
               Forall is_value l.*2 → (i, j, Raise e) ∉ l).
    { intros l Hl Hin'. rewrite Forall_forall in Hl.
      apply (Hl (Raise e)). by apply (list_elem_of_fmap_2 snd) in Hin'. }
    destruct (Hst p) as [Hq Hsil Hno|i' Hq Hi Ht Hta Hca Hva Hd Hu
                        |Hq Hno Hta Hca Hva Hd Hu
                        |i' j' e' vs Hq Hno Hi Hj Hta Hca Hvs Hva Hu Hd].
    + rewrite (calls_silent _ _ Hsil) in Hin. by apply elem_of_nil in Hin.
    + by apply Hnot in Hin.
    + by apply Hnot in Hin.
    + rewrite Hca in Hin. apply elem_of_app in Hin as [Hin|Hin];
        [by apply Hnot in Hin|].
      apply list_elem_of_singleton in Hin as [= -> -> ->]. by exists vs.
  - intros st0 q x y e' st1. rewrite render_pixel_unfold. simpl.
    destruct (wasm_color_at _ _ _ _ _).1; [done|]. by intros [= _ <-].
Qed.

(** C1. The canvas is 600 by 300, the size given to [create_camera].
    A render pass calls [color_at] only with 0 <= i < 600 and
    0 <= j < 300 and never twice with the same pixel; what it hands to
    [putImageData] is, call by call, the color returned for [(i, j)],
    at the coordinates [(i, j)] of that call, and the write of the
    loop body changes the canvas at pixel [(i, j)] only.  The calls
    are made: a click on the render button leaves the callback of
    column 0 of a new pass pending; a pass with the callback of
    column [i] pending has called exactly the pixels of the columns
    before [i], and running the callback calls the pixels of column
    [i], rows 0 to 299 in this order and once each, and leaves the
    callback of column [i + 1] pending, or returns after column 599
    (when a call throws, the column stops at that call).  So a pass
    that has returned has called every pixel, exactly once each; and
    a click followed by 600 timer tasks, when the calls return, is
    such a pass: its calls are the 600 by 300 pixels in column-major
    order, and the canvas holds at each pixel the color that the call
    for this pixel returned. *)
Theorem color_at_once_per_pixel m0 evs p :
  let st := exec (init m0) evs in
  (width (canvas st) = 600 ∧ height (canvas st) = 300) ∧
  (∀ i j r, (i, j, r) ∈ calls p (trace st) → 0 ≤ i < 600 ∧ 0 ≤ j < 300) ∧
  NoDup (calls p (trace st)).*1 ∧
  (ObsDone p ∈ trace st →
   ∀ i j, 0 ≤ i < 600 → 0 ≤ j < 300 → (i, j) ∈ (calls p (trace st)).*1) ∧
  puts p (trace st) = omap written (calls p (trace st)) ∧
  (∀ st0 q i j st1, render_pixel q i j st0 = Returned st1 →
     ∃ color, (wasm_color_at (world st0) (camera st0) i j (wasm st0)).1
              = Value color ∧
              canvas st1 = set_pixel (canvas st0) (i, j) (rgba_pixel color)) ∧
  (timers (fire st ClickRender) = timers st ++ [mkTimer (passes st) 0] ∧
   passes (fire st ClickRender) = S (passes st)) ∧
  (∀ k t, timers st !! k = Some t →
     let st' := fire st (TimerFires k) in
     (calls (pass t) (trace st)).*1 = column_major (column t) 300 ∧
     ∃ rs,
       calls (pass t) (trace st')
       = calls (pass t) (trace st)
         ++ zip (pair (column t) <$> seqZ 0 (Z.of_nat (length rs))) rs ∧
       ((Forall is_value rs ∧ length rs = 300%nat ∧
         (calls (pass t) (trace st')).*1 = column_major (column t + 1) 300 ∧
         (if column t + 1 <? 600
          then mkTimer (pass t) (column t + 1) ∈ timers st'
          else ObsDone (pass t) ∈ trace st'))
        ∨
        (∃ e vs, rs = vs ++ [Raise e] ∧ Forall is_value vs ∧
                 (length vs < 300)%nat ∧ uncaught (pass t) (trace st')))) ∧
  (let st := exec (init m0) (ClickRender :: repeat (TimerFires 0) 600) in
   Forall is_value (results (trace st)) →
   (calls 0 (trace st)).*1 = column_major 600 300 ∧
   ∀ i j, 0 ≤ i < 600 → 0 ≤ j < 300 →
     ∃ color, (i, j, Value color) ∈ calls 0 (trace st) ∧
              bitmap (canvas st) !! (i, j) = Some (rgba_pixel color)).
Proof.
  intros st.
  pose proof (invariant_exec m0 evs) as Hinv. fold st in Hinv.
  split; [|split; [|split; [|split; [|split; [|split; [|split; [|split]]]]]]].
  - split; [apply (inv_width m0)|apply (inv_height m0)]; apply invariant_exec.
  - intros i j r Hin. destruct (calls_prefix m0 evs p) as [k Hk]. fold st in Hk.
    apply (list_elem_of_fmap_2 fst) in Hin. simpl in Hin.
    assert (Hin' : (i, j) ∈ column_major CANVAS_WIDTH CANVAS_HEIGHT).
    { rewrite Hk. apply elem_of_app. by left. }
    apply column_major_elem in Hin'. unfold CANVAS_WIDTH, CANVAS_HEIGHT in Hin'.
    lia.
  - apply calls_NoDup.
  - intros Hdone i j Hi Hj.
    destruct (inv_status _ _ Hinv p)
      as [Hq Hsil Hno|i' Hq Hi' Ht Hta Hca Hva Hd Hu
         |Hq Hno Hta Hca Hva Hd Hu
         |i' j' e' vs Hq Hno Hi' Hj' Hta Hca Hvs Hva Hu Hd];
      try done.
    + by apply (silent_no_done _ _ Hsil) in Hdone.
    + rewrite Hca. by apply column_major_elem.
  - apply (inv_puts _ _ Hinv).
  - intros st0 q i j st1. rewrite render_pixel_unfold. simpl.
    destruct (wasm_color_at _ _ _ _ _).1 as [color|]; [|done].
    intros [= <-]. by exists color.
  - unfold fire. cbn [step default from_option id].
    by rewrite (on_render_click_spec _ (inv_width _ _ Hinv)).
  - intros k t Hk st'.
    destruct (pending_pass m0 st t Hinv) as (Hca & _);
      [by eapply list_elem_of_lookup_2|].
    split; [done|].
    destruct (fire_timer_spec m0 st k t Hinv Hk)
      as (rs & tail & Htr & Hend & _ & Hcase).
    fold st' in Htr, Hcase.
    destruct (task_chunk (pass t) (world st) (camera st) (column t) rs tail Hend)
      as (_ & _ & Hnew & _).
    exists rs. rewrite Htr, calls_app, Hnew. split; [done|].
    destruct (timer_of_active m0 st t Hinv) as (_ & Hi & _);
      [by eapply list_elem_of_lookup_2|].
    destruct Hcase as [(Hvs & Hlen & Hnext)|(e & vs & -> & Hvs & Hlt & -> & _)].
    + left. split; [done|]. split; [done|]. split.
      * rewrite fmap_app, fst_zip_rows, Hca, Hlen.
        change (Z.of_nat 300) with CANVAS_HEIGHT.
        by rewrite column_major_snoc by lia.
      * destruct Hnext as [(Hlt & _ & ->)|(Hge & -> & _)].
        -- apply Z.ltb_lt in Hlt. rewrite Hlt.
           apply elem_of_app. right. by left.
        -- assert (Hf : (column t + 1 <? 600) = false) by (apply Z.ltb_ge; lia).
           rewrite Hf. apply elem_of_app. right. apply elem_of_cons. right.
           apply elem_of_app. right. by left.
    + right. exists e, vs. split; [done|]. split; [done|]. split; [done|].
      exists e. apply elem_of_app. right. apply elem_of_cons. right.
      apply elem_of_app. right. by left.
  - intros st600 Hret.
    destruct (single_pass_returned m0 600 (le_n _) Hret) as (Hta & Hts & Hps).
    fold st600 in Hta, Hts, Hps.
    pose proof (invariant_exec m0 (ClickRender :: repeat (TimerFires 0) 600))
      as Hinv6. fold st600 in Hinv6.
    change (Z.of_nat 600 <? 600) with false in Hts.
    assert (Hca : (calls 0 (trace st600)).*1 = column_major 600 300).
    { destruct (inv_status _ _ Hinv6 0%nat)
        as [Hq _ _|i _ _ Ht _ _ _ _ _|_ _ _ Hca _ _ _
           |i j e vs _ _ _ _ _ Hca _ _ _ _]; [lia| |done|].
      - rewrite Hts in Ht. by apply elem_of_nil in Ht.
      - exfalso. apply (returned_no_raise _ 0%nat i j e Hret).
        rewrite Hca. apply elem_of_app. right. by left. }
    split; [done|]. intros i j Hi Hj.
    assert (Hin : (i, j) ∈ (calls 0 (trace st600)).*1).
    { rewrite Hca. by apply column_major_elem. }
    apply list_elem_of_fmap in Hin as ([[i' j'] r] & [= <- <-] & Hin).
    destruct r as [color|e]; [|by apply returned_no_raise in Hin].
    destruct (inv_painted _ _ Hinv6 0%nat i j (rgba color)) as [px Hpx].
    { rewrite (inv_puts _ _ Hinv6). apply list_elem_of_omap.
      by exists (i, j, Value color). }
    { unfold in_canvas. rewrite (inv_width _ _ Hinv6), (inv_height _ _ Hinv6).
      simpl. unfold CANVAS_WIDTH, CANVAS_HEIGHT.
      repeat (apply andb_true_intro; split); lia. }
    destruct (inv_bitmap _ _ Hinv6 _ _ Hpx) as (q & color' & Hin' & ->).
    cbn [fst snd] in Hin'. exists color'. split; [|done].
    destruct (inv_status _ _ Hinv6 q) as [Hq Hsil _|? Hq|Hq|? ? ? ? Hq].
    + rewrite (calls_silent _ _ Hsil) in Hin'. by apply elem_of_nil in Hin'.
    + by replace q with 0%nat in Hin' by lia.
    + by replace q with 0%nat in Hin' by lia.
    + by replace q with 0%nat in Hin' by lia.
Qed.

(** C2. The three color bytes of every image data the driver puts on
    the canvas, and so of every pixel the bitmap holds, are the
    clamped bytes of the binary64 products [255 * component] for the
    red, green and blue component of the color that [color_at]
    returned for that pixel.  For a finite component such a byte
    is [round(255 * clamp(component, 0, 1))] or a neighbour of it: the
    two differ by at most one, and only when the binary64 product,
    clamped to 0 .. 255, is exactly half-way between two integers,
    where the store takes the even one.  A component that is
    not-a-number or minus infinity is stored as 0, plus infinity as
    255. *)
Theorem stored_bytes_are_clamped_products m0 evs p :
  let st := exec (init m0) evs in
  let byte c := ToUint8Clamp (Finite 255 * c) in
  (∀ x y d, (x, y, d) ∈ puts p (trace st) →
     ∃ color, (x, y, Value color) ∈ calls p (trace st) ∧
              d = [byte (red color); byte (green color); byte (blue color);
                   255]) ∧
  (∀ x y px, bitmap (canvas st) !! (x, y) = Some px →
     ∃ q color, (x, y, Value color) ∈ calls q (trace st) ∧
                px = mkPixel (byte (red color)) (byte (green color))
                             (byte (blue color)) 255) ∧
  (∀ st0 q i j st1, render_pixel q i j st0 = Returned st1 →
     ∃ color, (wasm_color_at (world st0) (camera st0) i j (wasm st0)).1
              = Value color ∧
              canvas st1 = set_pixel (canvas st0) (i, j)
                             (mkPixel (byte (red color)) (byte (green color))
                                      (byte (blue color)) 255)) ∧
  (∀ c, Z.abs (byte (Finite c) - sink_byte c) ≤ 1 ∧
        (byte (Finite c) ≠ sink_byte c →
         ∃ k, (clamped (Finite 255 * Finite c) == inject_Z k + (1 # 2))%Q)) ∧
  (∀ x, nearest_even x (round x)) ∧
  byte NaN = 0 ∧ byte (Infinity true) = 0 ∧ byte (Infinity false) = 255.
Proof.
  intros st byte. split; [|split; [|split; [|split; [|split]]]].
  - intros x y d (color & Hin & ->)%put_of_call. by exists color.
  - intros x y px Hpx.
    destruct (inv_bitmap m0 _ (invariant_exec m0 evs) _ _ Hpx)
      as (q & color & Hin & ->).
    by exists q, color.
  - intros st0 q i j st1. rewrite render_pixel_unfold. simpl.
    destruct (wasm_color_at _ _ _ _ _).1 as [color|]; [|done].
    intros [= <-]. by exists color.
  - intros c. apply stored_byte_near_sink_byte.
  - apply round_nearest_even.
  - by vm_compute.
Qed.
(** C3. Pixels are processed one column per task, and the next
    column is handed to the event loop.  A click runs no column and
    calls nothing; a click on the render button hands the callback of
    column 0 of the new pass to [setTimeout].  A timer task runs the
    column its callback has captured and no other: its calls are, in
    this order, rows 0, 1, 2, ... of that single column, all 300 of
    them unless [color_at] throws.  When the column is done the task
    hands the callback of the next column to [setTimeout] and ends,
    so that the next column waits for a later turn of the event loop
    (after column 599 the pass returns instead); when a call throws,
    nothing is scheduled.  Over the tasks, each pass takes the
    columns in the order 0, 1, 2, ..., so that its calls follow the
    column-major enumeration of the raster; and the callback a pass
    has pending is the one of its next column. *)
Theorem one_column_per_task m0 evs ev :
  let st := exec (init m0) evs in
  (∃ new, trace (fire st ev) = trace st ++ new ∧
     match ev with
     | TimerFires k =>
         match timers st !! k with
         | Some t =>
             all_tasks new = [(pass t, column t)] ∧
             (∃ n, 0 ≤ n ≤ 300 ∧
                   (all_calls new).*2 = pair (column t) <$> seqZ 0 n ∧
                   (n = 300 ∨ uncaught (pass t) new)) ∧
             ((¬ uncaught (pass t) new ∧ column t + 1 < 600 ∧
               timers (fire st ev)
               = delete k (timers st) ++ [mkTimer (pass t) (column t + 1)])
              ∨
              (¬ uncaught (pass t) new ∧ column t + 1 = 600 ∧
               ObsDone (pass t) ∈ new ∧
               timers (fire st ev) = delete k (timers st))
              ∨
              (uncaught (pass t) new ∧
               timers (fire st ev) = delete k (timers st)))
         | None => new = []
         end
     | ClickRender =>
         all_tasks new = [] ∧ all_calls new = [] ∧
         timers (fire st ev) = timers st ++ [mkTimer (passes st) 0]
     | ClickFreezed =>
         all_tasks new = [] ∧ all_calls new = [] ∧
         timers (fire st ev) = timers st
     end) ∧
  (∀ p, tasks p (trace st) `prefix_of` seqZ 0 600) ∧
  (∀ p, (calls p (trace st)).*1 `prefix_of` column_major 600 300) ∧
  (∀ p i, mkTimer p i ∈ timers st → tasks p (trace st) = seqZ 0 i).
Proof.
  intros st.
  destruct (invariant_exec m0 evs)
    as [Hw Hh Hwo Hca Hts Hst Hpu Hcr Hcl Hm Han Hbm Hal Hpa].
  fold st in Hw, Hh, Hwo, Hca, Hts, Hst, Hpu, Hcr, Hcl, Hm, Han, Hbm, Hal, Hpa.
  split; [|split; [|split]].
  - destruct ev as [| |k].
    + exists []. unfold fire. simpl. by rewrite app_nil_r.
    + unfold fire. simpl. rewrite (on_render_click_spec st Hw). simpl.
      by eexists.
    + destruct (timers st !! k) as [t|] eqn:Hk;
        [|exists []; unfold fire; simpl; by rewrite Hk, app_nil_r].
      destruct (fire_timer_spec m0 st k t (invariant_exec m0 evs) Hk)
        as (rs & tail & Htr & Hend & _ & Hcase).
      destruct (task_chunk (pass t) (world st) (camera st) (column t) rs tail Hend)
        as (_ & _ & _ & _ & Hall & Htasks & _).
      eexists. split; [done|]. split; [done|].
      assert (Hcol : ∀ tl, (∀ e, ObsUncaught (pass t) e ∉ tl) →
                ¬ uncaught (pass t)
                    (ObsTask (pass t) (column t)
                     :: column_obs (pass t) (world st) (camera st) (column t) 0 rs
                     ++ tl)).
      { intros tl Htl [e Hin]. apply elem_of_cons in Hin as [?|Hin]; [done|].
        apply elem_of_app in Hin as [Hin|Hin]; [|by apply Htl in Hin].
        by apply column_obs_no_uncaught in Hin. }
      rewrite Hall, snd_pair_fmap.
      destruct Hcase as [(_ & Hlen & [(Hlt & -> & Hts')|(Hge & -> & Hts')])
                        |(e & vs & -> & _ & Hlt & -> & Hts')].
      * split; [exists 300; rewrite Hlen; split; [lia|]; split; [done|by left]|].
        left. split; [|done]. apply Hcol. intros e. apply not_elem_of_nil.
      * split; [exists 300; rewrite Hlen; split; [lia|]; split; [done|by left]|].
        right; left. split; [|split; [done|split; [|done]]].
        -- apply Hcol. intros e Hin. by apply list_elem_of_singleton in Hin.
        -- apply elem_of_cons. right. apply elem_of_app. right. by left.
      * assert (Hun : uncaught (pass t)
                  (ObsTask (pass t) (column t)
                   :: column_obs (pass t) (world st) (camera st) (column t) 0
                        (vs ++ [Raise e]) ++ [ObsUncaught (pass t) e])).
        { exists e. apply elem_of_cons. right. apply elem_of_app. right. by left. }
        split; [|by right; right].
        exists (Z.of_nat (length (vs ++ [Raise e]))).
        rewrite length_app in *. simpl. split; [lia|]. split; [done|by right].
  - intros p.
    destruct (Hst p) as [Hq Hsil Hno|i Hq Hi Ht Hta Hca' Hva Hd Hu
                        |Hq Hno Hta Hca' Hva Hd Hu
                        |i j e vs Hq Hno Hi Hj Hta Hca' Hvs Hva Hu Hd].
    + rewrite (tasks_silent _ _ Hsil). apply prefix_nil.
    + rewrite Hta. replace 600 with (i + (600 - i)) by lia.
      unfold CANVAS_WIDTH in Hi. rewrite seqZ_app by lia. by eexists.
    + by rewrite Hta.
    + rewrite Hta. replace 600 with ((i + 1) + (600 - (i + 1))) by lia.
      unfold CANVAS_WIDTH in Hi. rewrite (seqZ_app 0 (i + 1)) by lia.
      by eexists.
  - intros p. apply calls_prefix.
  - intros p i Hin.
    assert (Hp : p ∈ pass <$> timers st).
    { by apply (list_elem_of_fmap_2 pass) in Hin. }
    destruct (Hst p) as [| i0 Hq Hi Ht Hta Hca' Hva Hd Hu | |]; try done.
    pose proof (NoDup_fmap_eq pass _ _ _ Hts Ht Hin eq_refl). congruence.
Qed.


(** C6. While the calls of [color_at] return, a render pass runs to
    its end and nothing takes it off the event loop.  After any
    schedule in which every call made so far has returned, a pass
    that was started has run the column tasks 0 .. n-1 for some
    n <= 600; while n < 600 the callback of column n is pending and
    the pass has not returned; with n = 600 no callback of the pass is
    left, the pass has returned and every pixel of the raster has been
    written.  A pending callback can always be run, running it is one
    more column task of its pass, and when its calls return too the
    callback of the next column is pending, or the pass has returned
    after column 599.  A click followed by 600 timer tasks, when the
    calls return, is a pass from start to end: columns 0 to 599, one
    per task, then the handler returns and nothing is left pending.
    The engine may fail on calls that the driver does not make: with
    an engine that returns on every pixel of the raster, whatever it
    does out of range, every call of every schedule returns. *)
Theorem render_pass_completes m0 evs p :
  let st := exec (init m0) evs in
  Forall is_value (results (trace st)) →
  (p < passes st)%nat →
  (∃ n, tasks p (trace st) = seqZ 0 n ∧ 0 ≤ n ≤ 600 ∧
     (n < 600 → mkTimer p n ∈ timers st ∧ ObsDone p ∉ trace st) ∧
     (n = 600 →
      (p ∉ pass <$> timers st) ∧ ObsDone p ∈ trace st ∧
      ∀ i j, 0 ≤ i < 600 → 0 ≤ j < 300 →
             ∃ px, bitmap (canvas st) !! (i, j) = Some px ∧ A px = 255)) ∧
  (∀ k t, timers st !! k = Some t →
     ∃ st', step st (TimerFires k) = Some st' ∧
            tasks (pass t) (trace st') = tasks (pass t) (trace st) ++ [column t] ∧
            (Forall is_value (results (trace st')) →
             if column t + 1 <? 600
             then mkTimer (pass t) (column t + 1) ∈ timers st'
             else ObsDone (pass t) ∈ trace st' ∧
                  pass t ∉ pass <$> timers st')) ∧
  (let st := exec (init m0) (ClickRender :: repeat (TimerFires 0) 600) in
   Forall is_value (results (trace st)) →
   all_tasks (trace st) = pair 0%nat <$> seqZ 0 600 ∧
   ObsDone 0 ∈ trace st ∧ timers st = []) ∧
  (returns_in_range m0 →
   ∀ evs', Forall is_value (results (trace (exec (init m0) evs')))).
Proof.
  intros st Hret Hp.
  assert (Hrun : let st := exec (init m0)
                             (ClickRender :: repeat (TimerFires 0) 600) in
                 Forall is_value (results (trace st)) →
                 all_tasks (trace st) = pair 0%nat <$> seqZ 0 600 ∧
                 ObsDone 0 ∈ trace st ∧ timers st = []).
  { intros st1 Hret1.
    destruct (single_pass_returned m0 600 (le_n _) Hret1) as (Hta & Hts & Hps).
    fold st1 in Hta, Hts, Hps. split; [done|]. split; [|done].
    destruct (invariant_exec m0 (ClickRender :: repeat (TimerFires 0) 600))
      as [_ _ _ _ _ Hst1 _ _ _ _ _ _ _ _].
    fold st1 in Hst1. change (Z.of_nat 600 <? 600) with false in Hts.
    destruct (Hst1 0%nat) as [Hq _ _|i _ _ Ht _ _ _ _ _| |i j e vs _ _ _ _ _ Hca _ _ _ _];
      [lia| |done|].
    - rewrite Hts in Ht. by apply elem_of_nil in Ht.
    - exfalso. apply (returned_no_raise _ 0%nat i j e Hret1).
      rewrite Hca. apply elem_of_app. right. by left. }
  split; [|split; [|split; [exact Hrun|]]]; clear Hrun;
    [| |intros Hrange evs'; by apply in_range_calls_return].
  destruct (invariant_exec m0 evs)
    as [Hw Hh Hwo Hca Hts Hst Hpu Hcr Hcl Hm Han Hbm Hal Hpa].
  fold st in Hw, Hh, Hwo, Hca, Hts, Hst, Hpu, Hcr, Hcl, Hm, Han, Hbm, Hal, Hpa.
  - destruct (Hst p) as [Hq Hsil Hno|i Hq Hi Ht Hta Hca' Hva Hd Hu
                        |Hq Hno Hta Hca' Hva Hd Hu
                        |i j e vs Hq Hno Hi Hj Hta Hca' Hvs Hva Hu Hd].
    + lia.
    + exists i. unfold CANVAS_WIDTH in Hi. repeat split; try done; lia.
    + exists 600. repeat split; try done.
      intros i j Hi Hj.
      assert (Hin : (i, j) ∈ (calls p (trace st)).*1).
      { rewrite Hca'. by apply column_major_elem. }
      apply list_elem_of_fmap in Hin as ([[i' j'] r] & [= <- <-] & Hin).
      destruct r as [color|e]; [|by apply returned_no_raise in Hin].
      assert (Hput : (i, j, rgba color) ∈ puts p (trace st)).
      { rewrite Hpu. apply list_elem_of_omap. by exists (i, j, Value color). }
      destruct (Hpa p i j _ Hput) as [px Hpx].
      { unfold in_canvas. rewrite Hw, Hh. simpl.
        unfold CANVAS_WIDTH, CANVAS_HEIGHT.
        repeat (apply andb_true_intro; split); lia. }
      exists px. split; [done|]. by apply (Hal (i, j)).
    + exfalso. apply (returned_no_raise _ p i j e Hret).
      rewrite Hca'. apply elem_of_app. right. by left.
  - intros k t Hk.
    pose proof (fire_timer_spec m0 st k t (invariant_exec m0 evs) Hk) as Hspec.
    cbn zeta in Hspec. unfold fire in Hspec. simpl. simpl in Hspec.
    rewrite Hk in *.
    destruct (timer_callback_total t (set_timers st (delete k (timers st))))
      as [st' Hcb].
    rewrite Hcb in Hspec. cbn [default from_option id] in Hspec.
    exists st'. split; [done|].
    destruct Hspec as (rs & tail & Htr & Hend & _ & Hcase).
    destruct (task_chunk (pass t) (world st) (camera st) (column t) rs tail Hend)
      as (_ & Htasks & _ & _ & _ & _ & Hrs).
    split; [by rewrite Htr, tasks_app, Htasks|].
    rewrite Htr, results_app, Hrs. intros [_ Hrets]%Forall_app.
    destruct (timer_of_active m0 st t (invariant_exec m0 evs))
      as (_ & Hi & _); [by eapply list_elem_of_lookup_2|].
    assert (Hno : pass t ∉ pass <$> delete k (timers st)).
    { destruct (timers_split _ _ _ Hk) as (l1 & l2 & Hl & ->).
      pose proof (inv_timers _ _ (invariant_exec m0 evs)) as Hts.
      fold st in Hts. rewrite Hl, fmap_app, fmap_cons in Hts.
      apply NoDup_app in Hts as (Hnd1 & Hnd2 & Hnd3).
      apply NoDup_cons in Hnd3 as [Hnd3 _].
      rewrite fmap_app. intros [Hin|Hin]%elem_of_app; [|done].
      apply (Hnd2 _ Hin). by left. }
    destruct Hcase as [(_ & _ & [(Hlt & _ & ->)|(Hge & -> & ->)])
                      |(e & vs & -> & _)].
    + apply Z.ltb_lt in Hlt. rewrite Hlt. apply elem_of_app. right. by left.
    + assert (Hf : (column t + 1 <? 600) = false) by (apply Z.ltb_ge; lia).
      rewrite Hf. split; [|done].
      apply elem_of_app. right. apply elem_of_cons. right.
      apply elem_of_app. right. by left.
    + apply Forall_app in Hrets as [_ Hrets].
      rewrite Forall_singleton in Hrets. done.
Qed.




(** ** More about the driver *)

(** *** The bytes of lines 32 to 35 *)

(** X1. A larger component is never stored as a smaller byte: the
    store of [255 * component] into the clamped byte array is monotone
    in the component. *)
Theorem stored_byte_monotone (c1 c2 : Number) :
  Nle c1 c2 → ToUint8Clamp (Finite 255 * c1) ≤ ToUint8Clamp (Finite 255 * c2).
Proof. intros Hc. by apply ToUint8Clamp_mono, Nmul_255_mono. Qed.

(** X2. Whatever the component, the stored byte lies between 0 and
    255; a component of 0 or less is stored as 0 and a component of 1
    or more as 255; not-a-number is stored as 0. *)
Theorem stored_byte_saturates (c : Number) :
  0 ≤ ToUint8Clamp (Finite 255 * c) ≤ 255 ∧
  (Nle c (Finite 0) → ToUint8Clamp (Finite 255 * c) = 0) ∧
  (Nle (Finite 1) c → ToUint8Clamp (Finite 255 * c) = 255) ∧
  (c = NaN → ToUint8Clamp (Finite 255 * c) = 0).
Proof.
  pose proof (ToUint8Clamp_range (Finite 255 * c)) as Hr.
  split; [done|]. split; [|split].
  - intros Hc. apply Nmul_255_mono, ToUint8Clamp_mono in Hc.
    assert (E : ToUint8Clamp (Finite 255 * Finite 0) = 0)
      by (vm_compute; reflexivity).
    lia.
  - intros Hc. apply Nmul_255_mono, ToUint8Clamp_mono in Hc.
    assert (E : ToUint8Clamp (Finite 255 * Finite 1) = 255)
      by (vm_compute; reflexivity).
    lia.
  - by intros ->.
Qed.

Lemma round_trip_table :
  forallb (λ k, ToUint8Clamp (Finite 255 * binary64 (k # 255)) =? k)
          (seqZ 0 256) = true.
Proof. vm_compute. reflexivity. Qed.

(** X3. An 8-bit channel value survives the trip: the double nearest
    to [k / 255], which is what the division [k / 255] gives in
    JavaScript, is stored as the byte [k], for every [k] from 0 to
    255. *)
Theorem eight_bit_component_round_trip (k : Z) :
  0 ≤ k ≤ 255 → ToUint8Clamp (Finite 255 * binary64 (k # 255)) = k.
Proof.
  intros Hk. pose proof round_trip_table as Htable.
  rewrite forallb_forall in Htable.
  apply Z.eqb_eq, Htable, list_elem_of_In, elem_of_seqZ. lia.
Qed.

(** *** Pending callbacks *)

Lemma NoDup_below (l : list nat) n :
  NoDup l → (∀ x, x ∈ l → (x < n)%nat) → (length l ≤ n)%nat.
Proof.
  intros Hnd Hlt.
  assert (Hle : (length l ≤ length (seq 0 n))%nat).
  { apply submseteq_length, NoDup_submseteq; [done|].
    intros x Hx. apply elem_of_seq. specialize (Hlt x Hx). lia. }
  by rewrite length_seq in Hle.
Qed.

(** X4. A pass never has two callbacks pending: after any schedule the
    pending callbacks belong to pairwise different passes, each to a
    pass that a click has started and each for a column from 0 to 599,
    so there are never more pending callbacks than render clicks. *)
Theorem one_pending_callback_per_pass m0 evs :
  let st := exec (init m0) evs in
  NoDup (pass <$> timers st) ∧
  (∀ t, t ∈ timers st → (pass t < passes st)%nat ∧ 0 ≤ column t < 600) ∧
  (length (timers st) ≤ passes st)%nat.
Proof.
  intros st. pose proof (invariant_exec m0 evs) as Hinv. fold st in Hinv.
  split; [apply (inv_timers _ _ Hinv)|]. split.
  - intros t Ht. destruct (timer_of_active m0 st t Hinv Ht) as (? & ? & _).
    done.
  - rewrite <- (length_fmap pass).
    apply NoDup_below; [apply (inv_timers _ _ Hinv)|].
    intros p (t & -> & Ht)%list_elem_of_fmap.
    by destruct (timer_of_active m0 st t Hinv Ht) as (? & _).
Qed.

(** *** Passes do not disturb each other *)

(** What a task adds to the trace belongs to the pass that acts, and
    the callbacks of the other passes stay as they are. *)
Lemma fire_acting m0 st ev p :
  invariant m0 st →
  match ev with
  | ClickFreezed => True
  | ClickRender => p ≠ passes st
  | TimerFires k => ∀ t, timers st !! k = Some t → p ≠ pass t
  end →
  ∃ new, trace (fire st ev) = trace st ++ new ∧
         Forall (λ o, obs_pass o ≠ Some p) new ∧
         (∀ t, pass t = p → t ∈ timers (fire st ev) ↔ t ∈ timers st).
Proof.
  intros Hinv Hp. unfold fire. destruct ev as [| |k]; simpl.
  - exists []. by rewrite app_nil_r.
  - rewrite (on_render_click_spec st (inv_width _ _ Hinv)). simpl.
    eexists. split; [done|]. split.
    + constructor; [|constructor]. simpl. congruence.
    + intros t Ht. rewrite elem_of_app, list_elem_of_singleton.
      split; [|by left]. intros [?| ->]; [done|]. simpl in Ht. congruence.
  - destruct (timers st !! k) as [t|] eqn:Hk;
      [|exists []; by rewrite app_nil_r].
    specialize (Hp t eq_refl).
    destruct (timers_split _ _ _ Hk) as (l1 & l2 & Hl & Hdel). rewrite Hdel.
    destruct (timer_callback_total t (set_timers st (l1 ++ l2))) as [st' Hcb].
    rewrite Hcb. simpl.
    apply timer_callback_spec in Hcb
      as (rs & tail & Htr & _ & _ & _ & _ & _ & _ & _ & _ & Hcase).
    cbn [trace canvas world camera timers set_timers] in *.
    assert (Hend : is_end (pass t) tail).
    { destruct Hcase as [(_ & _ & [(_ & -> & _)|(_ & -> & _)])
                        |(e & vs & _ & _ & _ & -> & _)];
        [by left|right; by left|right; right; by exists e]. }
    destruct (task_chunk (pass t) (world st) (camera st) (column t) rs tail Hend)
      as (Hpass & _).
    eexists. split; [done|]. split; [by apply (silent_other (pass t))|].
    intros t' Ht'. rewrite Hl.
    assert (t' ∈ l1 ++ t :: l2 ↔ t' ∈ l1 ++ l2) as ->.
    { rewrite !elem_of_app, elem_of_cons. split; [|tauto].
      intros [?|[->|?]]; [tauto|done|tauto]. }
    destruct Hcase as [(_ & _ & [(_ & _ & ->)|(_ & _ & ->)])
                      |(e & vs & _ & _ & _ & _ & ->)]; [|done..].
    rewrite elem_of_app, list_elem_of_singleton. split; [|tauto].
    intros [?| ->]; [done|]. simpl in Ht'. congruence.
Qed.

(** X5. A column task touches its own pass only, whether it ends
    well or [color_at] throws in it: the calls, the writes and the
    column tasks recorded for any other pass are the same after the
    task as before, and so is the pending callback of that pass. *)
Theorem column_task_leaves_other_passes m0 evs k t p :
  let st := exec (init m0) evs in
  timers st !! k = Some t → p ≠ pass t →
  let st' := fire st (TimerFires k) in
  calls p (trace st') = calls p (trace st) ∧
  puts p (trace st') = puts p (trace st) ∧
  tasks p (trace st') = tasks p (trace st) ∧
  (∀ i, mkTimer p i ∈ timers st' ↔ mkTimer p i ∈ timers st).
Proof.
  intros st Hk Hp st'.
  destruct (fire_acting m0 st (TimerFires k) p) as (new & Htr & Hsil & Hts).
  { apply invariant_exec. }
  { intros t' Hk'. congruence. }
  fold st' in Htr, Hts. rewrite Htr, calls_app, puts_app, tasks_app.
  rewrite (calls_silent _ _ Hsil), (puts_silent _ _ Hsil), (tasks_silent _ _ Hsil).
  rewrite !app_nil_r. repeat split; try done; by apply Hts.
Qed.

Lemma settled_pass m0 evs p :
  let st := exec (init m0) evs in
  ObsDone p ∈ trace st ∨ uncaught p (trace st) →
  (p < passes st)%nat ∧ p ∉ pass <$> timers st.
Proof.
  intros st Hsettled.
  destruct (inv_status _ _ (invariant_exec m0 evs) p)
    as [Hq Hsil Hno|i Hq Hi Ht Hta Hca Hva Hd Hu|Hq Hno Hta Hca Hva Hd Hu
       |i j e vs Hq Hno Hi Hj Hta Hca Hvs Hva Hu Hd]; try done.
  - destruct Hsettled as [Hd|Hu]; exfalso.
    + by apply (silent_no_done _ _ Hsil).
    + by apply (silent_no_uncaught _ _ Hsil).
  - by destruct Hsettled.
Qed.

(** X6. A pass that is over stays over.  Once the handler of pass [p]
    has returned, or an exception has left one of its callbacks, no
    later click or timer task makes the pass call [color_at], write a
    pixel or run a column again, and it never has a callback pending
    again: a pass that died is not resumed. *)
Theorem settled_pass_never_acts_again m0 evs evs' p :
  let st := exec (init m0) evs in
  let st' := exec (init m0) (evs ++ evs') in
  ObsDone p ∈ trace st ∨ uncaught p (trace st) →
  calls p (trace st') = calls p (trace st) ∧
  puts p (trace st') = puts p (trace st) ∧
  tasks p (trace st') = tasks p (trace st) ∧
  (p ∉ pass <$> timers st').
Proof.
  intros st st' Hsettled.
  assert (Hlater : ∀ evs', ObsDone p ∈ trace (exec (init m0) (evs ++ evs')) ∨
                           uncaught p (trace (exec (init m0) (evs ++ evs')))).
  { intros l. rewrite exec_app.
    destruct (exec_trace (exec (init m0) evs) l) as [new ->]. fold st.
    destruct Hsettled as [Hd|Hu]; [left|right].
    - apply elem_of_app. by left.
    - apply uncaught_app. by left. }
  split; [|split; [|split]];
    [| | |by apply (settled_pass m0 (evs ++ evs') p), Hlater].
  all: subst st'; induction evs' as [|ev evs' IH] using rev_ind;
    [by rewrite app_nil_r|].
  all: rewrite app_assoc, exec_snoc.
  all: destruct (settled_pass m0 (evs ++ evs') p (Hlater evs')) as [Hlt Hno].
  all: destruct (fire_acting m0 (exec (init m0) (evs ++ evs')) ev p)
      as (new & -> & Hsil & _); [apply invariant_exec| |].
  1,3,5: destruct ev as [| |k]; [done|lia|];
    intros t Hk ->; apply Hno, list_elem_of_fmap_2;
    by apply list_elem_of_lookup_2 in Hk.
  - by rewrite calls_app, (calls_silent _ _ Hsil), app_nil_r.
  - by rewrite puts_app, (puts_silent _ _ Hsil), app_nil_r.
  - by rewrite tasks_app, (tasks_silent _ _ Hsil), app_nil_r.
Qed.

(** *** Clicks, passes and the console *)

Lemma logs_app tr1 tr2 : logs (tr1 ++ tr2) = logs tr1 ++ logs tr2.
Proof. apply omap_app. Qed.

Lemma all_puts_app tr1 tr2 : all_puts (tr1 ++ tr2) = all_puts tr1 ++ all_puts tr2.
Proof. apply omap_app. Qed.

Lemma logs_column_obs p w c i rs : ∀ j, logs (column_obs p w c i j rs) = [].
Proof.
  induction rs as [|r rs IH]; intros j; [done|].
  cbn [column_obs]. rewrite logs_app, IH. by destruct r.
Qed.

Lemma render_clicks_snoc evs ev :
  render_clicks (evs ++ [ev])
  = (render_clicks evs + match ev with ClickRender => 1 | _ => 0 end)%nat.
Proof.
  induction evs as [|ev' evs IH]; simpl; [by destruct ev|].
  destruct ev'; rewrite IH; lia.
Qed.

(** A timer task prints nothing and starts no pass. *)
Lemma fire_timer_quiet st k :
  passes (fire st (TimerFires k)) = passes st ∧
  logs (trace (fire st (TimerFires k))) = logs (trace st).
Proof.
  unfold fire. simpl. destruct (timers st !! k) as [t|]; [|done].
  destruct (timer_callback _ _) as [st'|] eqn:Hcb; [|done]. simpl.
  apply timer_callback_spec in Hcb
    as (rs & tail & Htr & _ & _ & _ & _ & _ & _ & Hps & _ & Hcase).
  cbn [trace passes set_timers] in *. split; [done|].
  rewrite Htr. change (ObsTask ?p ?i :: ?l) with ([ObsTask p i] ++ l).
  rewrite !logs_app, logs_column_obs.
  destruct Hcase as [(_ & _ & [(_ & -> & _)|(_ & -> & _)])
                    |(e & vs & _ & _ & _ & -> & _)]; simpl; by rewrite app_nil_r.
Qed.

Lemma exec_passes m0 evs : passes (exec (init m0) evs) = render_clicks evs.
Proof.
  induction evs as [|ev evs IH] using rev_ind; [by rewrite init_unfold|].
  rewrite exec_snoc, render_clicks_snoc. destruct ev as [| |k].
  - unfold fire. simpl. lia.
  - unfold fire. simpl.
    rewrite on_render_click_spec by apply (inv_width m0), invariant_exec.
    simpl. lia.
  - destruct (fire_timer_quiet (exec (init m0) evs) k) as [-> _]. lia.
Qed.

(** X7. Every click on the render button starts exactly one pass and
    prints "rendering!" exactly once, and nothing else starts a pass
    or prints: after a schedule with [n] render clicks (and any probe
    clicks and timer tasks) there have been [n] passes, numbered 0 to
    [n - 1], and the console holds one "rendering!" per pass, in the
    order of the clicks. *)
Theorem each_render_click_starts_one_pass m0 evs :
  let st := exec (init m0) evs in
  passes st = render_clicks evs ∧
  logs (trace st) = (λ p, (p, "rendering!")) <$> seq 0 (render_clicks evs).
Proof.
  split; [apply exec_passes|].
  induction evs as [|ev evs IH] using rev_ind; [by rewrite init_unfold|].
  rewrite exec_snoc, render_clicks_snoc. destruct ev as [| |k].
  - unfold fire. simpl. by rewrite Nat.add_0_r.
  - unfold fire. simpl.
    rewrite on_render_click_spec by apply (inv_width m0), invariant_exec.
    simpl. rewrite logs_app, IH, exec_passes, Nat.add_1_r, seq_S, fmap_app.
    done.
  - destruct (fire_timer_quiet (exec (init m0) evs) k) as [_ ->].
    by rewrite Nat.add_0_r.
Qed.

(** *** The probe button and the renders *)

Lemma freezed_clicks_repeat n : freezed_clicks (repeat ClickFreezed n) = n.
Proof. induction n as [|n IH]; simpl; congruence. Qed.

Lemma exec_text m0 evs :
  freezedText (exec (init m0) evs)
  = match freezed_clicks evs with
    | O => page_text
    | S _ => "No, you are not! (" +:+ pretty (Z.of_nat (freezed_clicks evs))
             +:+ ")"
    end.
Proof.
  induction evs as [|ev evs IH] using rev_ind; [by rewrite init_unfold|].
  rewrite exec_snoc, freezed_clicks_snoc. destruct ev as [| |k].
  - unfold fire. simpl. rewrite exec_count, Nat.add_1_r. do 3 f_equal. lia.
  - destruct (fire_count (exec (init m0) evs) ClickRender) as [_ ->]; [done|].
    by rewrite Nat.add_0_r.
  - destruct (fire_count (exec (init m0) evs) (TimerFires k)) as [_ ->]; [done|].
    by rewrite Nat.add_0_r.
Qed.

(** X8. Rendering never shows in the probe: after any schedule the
    counter and the text of the probe are the ones that the probe
    clicks of the schedule alone would have left, however many render
    clicks and column tasks ran in between; before the first probe
    click the text is still the one of the page. *)
Theorem probe_ignores_rendering m0 evs :
  let st := exec (init m0) evs in
  let alone := exec (init m0) (repeat ClickFreezed (freezed_clicks evs)) in
  count st = count alone ∧
  freezedText st = freezedText alone ∧
  (freezed_clicks evs = 0%nat → freezedText st = page_text).
Proof.
  cbn zeta. rewrite !exec_count, !exec_text, freezed_clicks_repeat.
  repeat split. by intros ->.
Qed.

(** *** What the canvas is given *)

Lemma all_puts_pass x y d tr :
  (x, y, d) ∈ all_puts tr → ∃ p, (x, y, d) ∈ puts p tr.
Proof.
  intros (o & Ho & Hf)%list_elem_of_omap. destruct o as [| | | | |p d' x' y'| |];
    try done.
  injection Hf as -> -> ->. exists p. apply list_elem_of_omap.
  exists (ObsPut p d x y). split; [done|]. by rewrite decide_True.
Qed.

(** X9. Every [putImageData] of every pass, whatever the engine
    returned, hands the canvas one pixel that lies inside the 600 by
    300 canvas, as exactly four bytes, each in 0..255, the last one
    255: no write is dropped for being out of the canvas and no byte
    is out of range. *)
Theorem every_put_is_one_pixel_in_range m0 evs :
  Forall (λ put, (0 ≤ put.1.1 < CANVAS_WIDTH ∧ 0 ≤ put.1.2 < CANVAS_HEIGHT) ∧
                 length put.2 = 4%nat ∧
                 Forall (λ b, 0 ≤ b ≤ 255) put.2 ∧
                 put.2 !! 3%nat = Some 255)
         (all_puts (trace (exec (init m0) evs))).
Proof.
  apply Forall_forall. intros [[x y] d] [p Hin]%all_puts_pass.
  apply put_of_call in Hin as (color & Hin & ->). split.
  - assert (Hxy : (x, y) ∈ (calls p (trace (exec (init m0) evs))).*1).
    { apply list_elem_of_fmap. by exists (x, y, Value color). }
    eapply elem_of_prefix in Hxy; [|apply calls_prefix].
    by apply column_major_elem in Hxy.
  - split; [done|]. split; [|done]. unfold rgba.
    repeat (apply Forall_cons; split; [apply ToUint8Clamp_range|]).
    apply Forall_cons. split; [lia|constructor].
Qed.

Lemma last_put_app xy ps1 ps2 :
  last_put xy (ps1 ++ ps2)
  = foldl (λ found put, if decide (put.1 = xy) then Some put.2 else found)
          (last_put xy ps1) ps2.
Proof. apply foldl_app. Qed.

Lemma all_puts_column_obs p w c i rs : ∀ j,
  all_puts (column_obs p w c i j rs)
  = omap written (zip (pair i <$> seqZ j (Z.of_nat (length rs))) rs).
Proof.
  induction rs as [|r rs IH]; intros j; [done|].
  cbn [column_obs length]. rewrite Nat2Z.inj_succ, seqZ_cons by lia.
  rewrite all_puts_app, IH, Z.pred_succ. cbn [fmap list_fmap zip zip_with].
  replace (Z.succ j) with (j + 1) by lia. by destruct r.
Qed.

(** Painting a column and replaying its writes agree pixel by pixel. *)
Lemma paint_last_put p w c rs xy : ∀ cv i j found,
  0 ≤ i < width cv → 0 ≤ j → j + Z.of_nat (length rs) ≤ height cv →
  bitmap cv !! xy = data_pixel <$> found →
  bitmap (paint cv i j rs) !! xy
  = data_pixel <$>
      foldl (λ found put, if decide (put.1 = xy) then Some put.2 else found)
            found (all_puts (column_obs p w c i j rs)).
Proof.
  induction rs as [|[color|e] rs IH]; intros cv i j found Hi Hj Hlen Hcv;
    cbn [column_obs paint pixel_obs length] in *; [done| |].
  - change (all_puts (?a :: ObsPut p ?d i j :: ?l)) with ((i, j, d) :: all_puts l).
    cbn [foldl fst snd]. apply IH.
    + by rewrite set_pixel_width.
    + lia.
    + rewrite set_pixel_height. lia.
    + unfold set_pixel, in_canvas. cbn [fst snd].
      replace (0 <=? i) with true by (symmetry; apply Z.leb_le; lia).
      replace (i <? width cv) with true by (symmetry; apply Z.ltb_lt; lia).
      replace (0 <=? j) with true by (symmetry; apply Z.leb_le; lia).
      replace (j <? height cv) with true by (symmetry; apply Z.ltb_lt; lia).
      cbn [andb bitmap]. rewrite lookup_insert.
      destruct (decide ((i, j) = xy)); [done|apply Hcv].
  - change (all_puts (?a :: ?l)) with (all_puts l). apply IH; try done; lia.
Qed.

Lemma fire_last_put m0 st ev xy :
  invariant m0 st →
  bitmap (canvas st) !! xy = data_pixel <$> last_put xy (all_puts (trace st)) →
  bitmap (canvas (fire st ev)) !! xy
  = data_pixel <$> last_put xy (all_puts (trace (fire st ev))).
Proof.
  intros Hinv IH. unfold fire. destruct ev as [| |k]; simpl; [done| |].
  - rewrite on_render_click_spec by apply (inv_width _ _ Hinv). simpl.
    by rewrite all_puts_app, app_nil_r.
  - destruct (timers st !! k) as [t|] eqn:Hk; [|done].
    destruct (timer_callback _ _) as [st'|] eqn:Hcb; [|done]. simpl.
    apply timer_callback_spec in Hcb
      as (rs & tail & Htr & Hcv & _ & _ & _ & _ & _ & _ & _ & Hcase).
    cbn [trace canvas set_timers] in *. rewrite Htr, Hcv.
    change (ObsTask ?p ?i :: ?l) with ([ObsTask p i] ++ l).
    rewrite !all_puts_app.
    assert (Htail : all_puts tail = []).
    { destruct Hcase as [(_ & _ & [(_ & -> & _)|(_ & -> & _)])
                        |(e & vs & _ & _ & _ & -> & _)]; done. }
    rewrite Htail, app_nil_r. cbn [all_puts omap list_omap app].
    rewrite last_put_app.
    destruct (timer_of_active m0 st t Hinv) as (_ & Hi & _);
      [by eapply list_elem_of_lookup_2|].
    rewrite (inv_height _ _ Hinv) in Hcase.
    apply paint_last_put; [by rewrite (inv_width _ _ Hinv)|done| |done].
    rewrite (inv_height _ _ Hinv).
    destruct Hcase as [(_ & Hlen & _)|(e & vs & -> & _ & Hlen & _)].
    + unfold CANVAS_HEIGHT in *. lia.
    + rewrite length_app. simpl. lia.
Qed.

(** X10. The canvas is the replay of the writes: at every moment of
    every schedule, and however the passes interleave, the pixel the
    canvas holds at a position is the image data most recently put
    there by any pass, and a position that no pass has put yet holds
    nothing. *)
Theorem canvas_holds_the_last_put m0 evs x y :
  bitmap (canvas (exec (init m0) evs)) !! (x, y)
  = data_pixel <$> last_put (x, y) (all_puts (trace (exec (init m0) evs))).
Proof.
  induction evs as [|ev evs IH] using rev_ind.
  - rewrite init_unfold. simpl. 
    destruct (invariant_exec m0 []) as [_ _ _ _ _ _ _ _ _ _ _ Hbm _ _].
    destruct (bitmap (canvas (exec (init m0) [])) !! (x, y)) as [px|] eqn:E.
    + apply Hbm in E as (p & color & Hin & _). rewrite init_unfold in Hin.
      by apply elem_of_nil in Hin.
    + by rewrite init_unfold in E.
  - rewrite exec_snoc. eapply fire_last_put; [apply invariant_exec|apply IH].
Qed.

(** *** An engine whose answers do not depend on its memory *)

Lemma painted_is_engine_color m0 evs x y px :
  memoryless →
  bitmap (canvas (exec (init m0) evs)) !! (x, y) = Some px →
  ∀ m, ∃ color,
    (wasm_color_at (world (init m0)) (camera (init m0)) x y m).1 = Value color ∧
    px = rgba_pixel color.
Proof.
  intros Hpure Hpx m.
  apply (inv_bitmap _ _ (invariant_exec m0 evs)) in Hpx
    as (p & color & Hin & ->).
  exists color. split; [|done]. cbn [fst snd] in Hin.
  apply call_obs in Hin as (w & c & Hin).
  assert (Hwc : (w, c, (x, y)) ∈ all_calls (trace (exec (init m0) evs))).
  { apply list_elem_of_omap. by eexists. }
  pose proof (inv_calls _ _ (invariant_exec m0 evs)) as Hall.
  rewrite Forall_forall in Hall. apply Hall in Hwc. injection Hwc as -> ->.
  pose proof (exec_honest m0 evs) as Hh. rewrite Forall_forall in Hh.
  apply Hh in Hin as [m' ->]. apply Hpure.
Qed.

Lemma fire_bitmap_mono st ev xy :
  is_Some (bitmap (canvas st) !! xy) →
  is_Some (bitmap (canvas (fire st ev)) !! xy).
Proof.
  intros Hxy. unfold fire. destruct ev as [| |k]; simpl; [done| |].
  - unfold on_render_click, loop_head. simpl.
    by destruct (0 <? width (canvas st)).
  - destruct (timers st !! k) as [t|]; [|done].
    destruct (timer_callback _ _) as [st'|] eqn:Hcb; [|done]. simpl.
    apply timer_callback_spec in Hcb as (rs & tail & _ & -> & _).
    by apply paint_mono.
Qed.

Lemma exec_bitmap_mono st evs xy :
  is_Some (bitmap (canvas st) !! xy) →
  is_Some (bitmap (canvas (exec st evs)) !! xy).
Proof.
  intros Hxy. induction evs as [|ev evs IH] using rev_ind; [done|].
  rewrite exec_snoc. by apply fire_bitmap_mono.
Qed.

(** X11. With an engine whose answer does not depend on its memory,
    the picture does not depend on the schedule: a pixel that the
    canvas holds is the bytes of the color that the engine gives, in
    any memory, for that position with the world and the camera made
    at start-up, whichever pass painted it and whatever ran before. *)
Theorem memoryless_engine_fixes_the_picture m0 evs x y px :
  memoryless →
  let st := exec (init m0) evs in
  bitmap (canvas st) !! (x, y) = Some px →
  ∀ m, ∃ color,
    (wasm_color_at (world st) (camera st) x y m).1 = Value color ∧
    px = rgba_pixel color.
Proof.
  intros Hpure st Hpx m. subst st.
  rewrite (inv_world _ _ (invariant_exec m0 evs)),
          (inv_camera _ _ (invariant_exec m0 evs)).
  by eapply painted_is_engine_color.
Qed.

(** X12. With such an engine a later pass repaints what is there: a
    pixel that the canvas holds keeps its four bytes for ever,
    whatever clicks and column tasks follow.  (Without the
    assumption it stays painted but may change.) *)
Theorem repainting_changes_nothing m0 evs evs' x y px :
  memoryless →
  bitmap (canvas (exec (init m0) evs)) !! (x, y) = Some px →
  bitmap (canvas (exec (init m0) (evs ++ evs'))) !! (x, y) = Some px.
Proof.
  intros Hpure Hpx.
  destruct (exec_bitmap_mono (exec (init m0) evs) evs' (x, y)) as [px' Hpx'];
    [by eexists|].
  rewrite <- exec_app in Hpx'. rewrite Hpx'. f_equal.
  destruct (painted_is_engine_color m0 _ x y px Hpure Hpx m0)
    as (color & Hc & ->).
  destruct (painted_is_engine_color m0 _ x y px' Hpure Hpx' m0)
    as (color' & Hc' & ->).
  congruence.
Qed.

(** X13. A painted pixel is never erased, memoryless engine or not:
    once the canvas holds a pixel at a position it holds one there
    after any further clicks and column tasks; no step of the driver
    clears the canvas. *)
Theorem painted_pixel_stays_painted m0 evs evs' x y :
  is_Some (bitmap (canvas (exec (init m0) evs)) !! (x, y)) →
  is_Some (bitmap (canvas (exec (init m0) (evs ++ evs'))) !! (x, y)).
Proof. rewrite exec_app. apply exec_bitmap_mono. Qed.

(** *** Counting the column tasks *)

Lemma remaining_app ts1 ts2 :
  remaining (ts1 ++ ts2) = remaining ts1 + remaining ts2.
Proof. induction ts1 as [|t ts1 IH]; simpl; lia. Qed.

Lemma remaining_cons t ts :
  remaining (t :: ts) = CANVAS_WIDTH - column t + remaining ts.
Proof. done. Qed.

Lemma remaining_pos ts :
  Forall (λ t, column t < CANVAS_WIDTH) ts →
  0 ≤ remaining ts ∧ (remaining ts = 0 → ts = []).
Proof.
  induction 1 as [|t ts Ht _ [IH _]]; simpl; [done|]. split; lia.
Qed.

(** What a step does to the tasks that have run plus those that the
    pending callbacks stand for, against 600 per pass. *)
Lemma fire_budget m0 st ev :
  invariant m0 st →
  let total s := Z.of_nat (length (all_tasks (trace s))) + remaining (timers s)
                 - CANVAS_WIDTH * Z.of_nat (passes s) in
  total (fire st ev) ≤ total st ∧
  (always_returns → total (fire st ev) = total st).
Proof.
  intros Hinv total. subst total. cbn beta.
  unfold fire. destruct ev as [| |k]; simpl; [done| |].
  - rewrite on_render_click_spec by apply (inv_width _ _ Hinv).
    cbn [trace timers passes].
    rewrite all_tasks_app, remaining_app, remaining_cons, app_nil_r,
      Nat2Z.inj_succ.
    change (remaining []) with 0. cbn [column]. unfold CANVAS_WIDTH. lia.
  - destruct (timers st !! k) as [t|] eqn:Hk; [|done].
    destruct (timer_callback _ _) as [st'|] eqn:Hcb; [|done].
    cbn [default from_option id].
    destruct (timer_of_active m0 st t Hinv) as (_ & Hi & _);
      [by eapply list_elem_of_lookup_2|].
    destruct (timers_split _ _ _ Hk) as (l1 & l2 & Hl & Hdel).
    apply timer_callback_spec in Hcb
      as (rs & tail & Htr & _ & _ & _ & _ & _ & _ & Hps & Hans & Hcase).
    cbn [trace canvas timers passes world camera set_timers] in *.
    rewrite (inv_width _ _ Hinv) in Hcase.
    assert (Hend : is_end (pass t) tail).
    { destruct Hcase as [(_ & _ & [(_ & -> & _)|(_ & -> & _)])
                        |(e & vs & _ & _ & _ & -> & _)];
        [by left|right; by left|right; right; by eexists]. }
    destruct (task_chunk (pass t) (world st) (camera st) (column t) rs tail Hend)
      as (_ & _ & _ & _ & _ & Hta & _).
    rewrite Htr, Hps, all_tasks_app, Hta, length_app. cbn [length].
    rewrite Hdel in Hcase. rewrite Hl.
    destruct Hcase as [(_ & _ & [(Hlt & _ & ->)|(Hge & _ & ->)])
                      |(e & vs & -> & _ & _ & _ & ->)];
      rewrite ?remaining_app, ?remaining_cons, ?remaining_app;
      change (remaining []) with 0; cbn [column]; unfold CANVAS_WIDTH in *.
    + split; [|intros _]; lia.
    + split; [|intros _]; lia.
    + split; [lia|]. intros Htotal. exfalso.
      rewrite Forall_app, Forall_singleton in Hans.
      destruct Hans as [_ (w & c & i & j & m & Hr)].
      specialize (Htotal w c i j m). by rewrite <- Hr in Htotal.
Qed.

Lemma exec_budget m0 evs :
  let st := exec (init m0) evs in
  let total := Z.of_nat (length (all_tasks (trace st))) + remaining (timers st) in
  total ≤ CANVAS_WIDTH * Z.of_nat (passes st) ∧
  (always_returns → total = CANVAS_WIDTH * Z.of_nat (passes st)).
Proof.
  cbn zeta. induction evs as [|ev evs [IH1 IH2]] using rev_ind.
  - rewrite init_unfold. simpl. unfold CANVAS_WIDTH. split; [lia|done].
  - rewrite exec_snoc.
    destruct (fire_budget m0 _ ev (invariant_exec m0 evs)) as [H1 H2].
    cbn zeta beta in H1, H2. split; [lia|].
    intros Htotal. specialize (IH2 Htotal). specialize (H2 Htotal). lia.
Qed.

Lemma timers_in_range m0 evs :
  Forall (λ t, column t < CANVAS_WIDTH) (timers (exec (init m0) evs)).
Proof.
  apply Forall_forall. intros t Ht.
  by destruct (timer_of_active m0 _ t (invariant_exec m0 evs) Ht) as (_ & [_ ?] & _).
Qed.

(** X14. Work is bounded by the clicks: over any schedule, the column
    tasks that have run, plus the columns that the pending callbacks
    still stand for (a callback holding column [i] stands for the
    columns [i] to 599), never exceed 600 per click on the render
    button.  So at most [600 * n] column tasks ever run after [n]
    render clicks, and none before the first one. *)
Theorem column_tasks_bounded_by_clicks m0 evs :
  let st := exec (init m0) evs in
  Z.of_nat (length (all_tasks (trace st))) + remaining (timers st)
    ≤ 600 * Z.of_nat (render_clicks evs) ∧
  Z.of_nat (length (all_tasks (trace st))) ≤ 600 * Z.of_nat (render_clicks evs) ∧
  (render_clicks evs = 0%nat → all_tasks (trace st) = [] ∧ timers st = []).
Proof.
  cbn zeta. destruct (exec_budget m0 evs) as [Hle _]. cbn zeta in Hle.
  rewrite exec_passes in Hle. unfold CANVAS_WIDTH in Hle.
  destruct (remaining_pos _ (timers_in_range m0 evs)) as [Hpos Hnil].
  split; [lia|]. split; [lia|]. intros Hn. rewrite Hn in Hle.
  split; [apply length_zero_iff_nil; lia|apply Hnil; lia].
Qed.

(** X15. With an engine that always returns, no column is lost or
    run twice: at every moment the column tasks that have run plus
    the columns that the pending callbacks stand for are exactly 600
    per render click, and no callback is pending exactly when
    [600 * n] column tasks have run. *)
Theorem column_tasks_conserved m0 evs :
  always_returns →
  let st := exec (init m0) evs in
  Z.of_nat (length (all_tasks (trace st))) + remaining (timers st)
    = 600 * Z.of_nat (render_clicks evs) ∧
  (timers st = [] ↔
   Z.of_nat (length (all_tasks (trace st))) = 600 * Z.of_nat (render_clicks evs)).
Proof.
  intros Htotal. cbn zeta. destruct (exec_budget m0 evs) as [_ Heq].
  cbn zeta in Heq. specialize (Heq Htotal).
  rewrite exec_passes in Heq. unfold CANVAS_WIDTH in Heq.
  destruct (remaining_pos _ (timers_in_range m0 evs)) as [Hpos Hnil].
  split; [done|]. split.
  - intros Hts. rewrite Hts in Heq. simpl in Heq. lia.
  - intros Hlen. apply Hnil. lia.
Qed.

(** *** The probe does not disturb the renders *)

Lemma render_pixel_with_probe p i j st n text :
  render_pixel p i j (with_probe st n text)
  = map_outcome (λ s, with_probe s n text) (render_pixel p i j st).
Proof.
  rewrite !render_pixel_unfold. cbn zeta.
  change (world (with_probe st n text)) with (world st).
  change (camera (with_probe st n text)) with (camera st).
  change (wasm (with_probe st n text)) with (wasm st).
  by destruct (wasm_color_at (world st) (camera st) i j (wasm st)).1.
Qed.

Lemma column_loop_with_probe fuel p i n text : ∀ j st,
  column_loop fuel p i j (with_probe st n text)
  = map_outcome (λ s, with_probe s n text) <$> column_loop fuel p i j st.
Proof.
  induction fuel as [|fuel IH]; intros j st; cbn [column_loop];
    change (canvas (with_probe st n text)) with (canvas st);
    destruct (j <? height (canvas st)); try done.
  rewrite render_pixel_with_probe.
  destruct (render_pixel p i j st) as [s|e s]; cbn [map_outcome]; [apply IH|done].
Qed.

Lemma timer_callback_with_probe t st n text :
  timer_callback t (with_probe st n text)
  = (λ s, with_probe s n text) <$> timer_callback t st.
Proof.
  unfold timer_callback.
  change (log (with_probe st n text) ?o) with (with_probe (log st o) n text).
  change (canvas (with_probe ?s n text)) with (canvas s).
  rewrite column_loop_with_probe.
  destruct (column_loop _ _ _ _ _) as [[s|e s]|]; cbn; [|done..].
  unfold loop_head. change (canvas (with_probe s n text)) with (canvas s).
  by destruct (_ <? _).
Qed.

Lemma fire_with_probe st ev n text :
  ev ≠ ClickFreezed →
  fire (with_probe st n text) ev = with_probe (fire st ev) n text.
Proof.
  intros Hev. unfold fire. destruct ev as [| |k]; cbn [step]; [done| |].
  - unfold on_render_click, loop_head. cbn. by destruct (0 <? width (canvas st)).
  - change (timers (with_probe st n text)) with (timers st).
    destruct (timers st !! k) as [t|]; [|done].
    change (set_timers (with_probe st n text) ?l)
      with (with_probe (set_timers st l) n text).
    rewrite timer_callback_with_probe.
    by destruct (timer_callback _ _).
Qed.

Lemma without_probe_snoc evs ev :
  without_probe (evs ++ [ev])
  = without_probe evs ++ match ev with ClickFreezed => [] | _ => [ev] end.
Proof.
  induction evs as [|ev' evs IH]; simpl; [by destruct ev|].
  destruct ev'; by rewrite IH.
Qed.

Lemma with_probe_same st : st = with_probe st (count st) (freezedText st).
Proof. by destruct st. Qed.

Lemma exec_with_probe m0 evs :
  exec (init m0) evs
  = with_probe (exec (init m0) (without_probe evs))
               (count (exec (init m0) evs)) (freezedText (exec (init m0) evs)).
Proof.
  induction evs as [|ev evs IH] using rev_ind.
  - apply with_probe_same.
  - rewrite without_probe_snoc, !exec_snoc.
    assert (Hev : ev = ClickFreezed ∨ ev ≠ ClickFreezed)
      by (destruct ev; [by left|by right..]).
    destruct Hev as [->|Hev].
    + rewrite app_nil_r. rewrite IH at 1. reflexivity.
    + replace (match ev with ClickFreezed => [] | _ => [ev] end) with [ev]
        by by destruct ev.
      rewrite exec_snoc.
      destruct (fire_count (exec (init m0) evs) ev Hev) as [-> ->].
      rewrite IH at 1. by apply fire_with_probe.
Qed.

(** X16. The probe never disturbs a render: a schedule and the same
    schedule with every click on the probe button taken out leave
    the same canvas, the same observations (calls, writes, tasks and
    returns, in the same order), the same pending callbacks and the
    same engine memory; the two end states differ in the counter and
    the text of the probe and in nothing else. *)
Theorem probe_clicks_leave_rendering_alone m0 evs :
  let st := exec (init m0) evs in
  let st' := exec (init m0) (without_probe evs) in
  st = with_probe st' (count st) (freezedText st) ∧
  canvas st = canvas st' ∧ trace st = trace st' ∧ timers st = timers st' ∧
  wasm st = wasm st' ∧ passes st = passes st'.
Proof.
  cbn zeta. pose proof (exec_with_probe m0 evs) as E. split; [done|].
  repeat split; by rewrite E at 1.
Qed.

(** *** The size of the canvas and the blank canvas *)

Lemma tasks_all_tasks p tr : all_tasks tr = [] → tasks p tr = [].
Proof.
  induction tr as [|o tr IH]; [done|].
  destruct o; cbn [all_tasks omap list_omap]; try done; apply IH.
Qed.

(** X17. The loops always run over the same raster: whatever size
    and content the canvas of the page had, after the module body and
    after any schedule the canvas is 600 wide and 300 high, so that
    the bounds [canvas.width] and [canvas.height], which the loops
    read again at every iteration, never move; and the canvas holds
    no pixel until the first column task has run. *)
Theorem canvas_size_is_fixed m0 evs :
  let st := exec (init m0) evs in
  width (canvas st) = 600 ∧ height (canvas st) = 300 ∧
  (all_tasks (trace st) = [] → bitmap (canvas st) = ∅).
Proof.
  cbn zeta. pose proof (invariant_exec m0 evs) as Hinv.
  split; [apply (inv_width _ _ Hinv)|]. split; [apply (inv_height _ _ Hinv)|].
  intros Hnone. apply map_empty. intros xy.
  destruct (bitmap _ !! xy) as [px|] eqn:Hpx; [exfalso|done].
  apply (inv_bitmap _ _ Hinv) in Hpx as (p & color & Hin & _).
  apply (tasks_all_tasks p) in Hnone.
  assert (Hxy : (xy.1, xy.2) ∈ (calls p (trace (exec (init m0) evs))).*1).
  { apply list_elem_of_fmap. by eexists (_, _, _). }
  destruct (inv_status _ _ Hinv p)
    as [Hq Hsil Hno|i Hq Hi Ht Hta Hca Hva Hd Hu|Hq Hno Hta Hca Hva Hd Hu
       |i j e vs Hq Hno Hi Hj Hta Hca Hvs Hva Hu Hd].
  - rewrite (calls_silent _ _ Hsil) in Hxy. by apply elem_of_nil in Hxy.
  - rewrite Hnone in Hta. symmetry in Hta.
    apply (f_equal length) in Hta. rewrite length_seqZ in Hta. simpl in Hta.
    rewrite Hca in Hxy. apply column_major_elem in Hxy. lia.
  - rewrite Hnone in Hta. apply (f_equal length) in Hta.
    rewrite length_seqZ in Hta. by vm_compute in Hta.
  - rewrite Hnone in Hta. symmetry in Hta.
    apply (f_equal length) in Hta. rewrite length_seqZ in Hta. simpl in Hta. lia.
Qed.

(** *** Pending work as a measure *)

Lemma fire_timer_tasks st k t :
  timers st !! k = Some t →
  all_tasks (trace (fire st (TimerFires k)))
  = all_tasks (trace st) ++ [(pass t, column t)].
Proof.
  intros Hk. unfold fire. cbn [step]. rewrite Hk.
  destruct (timer_callback_total t (set_timers st (delete k (timers st))))
    as [st' Hcb].
  rewrite Hcb. cbn [default from_option id].
  apply timer_callback_spec in Hcb
    as (rs & tail & Htr & _ & _ & _ & _ & _ & _ & _ & _ & Hcase).
  cbn [trace canvas timers passes world camera set_timers] in *.
  assert (Hend : is_end (pass t) tail).
  { destruct Hcase as [(_ & _ & [(_ & -> & _)|(_ & -> & _)])
                      |(e & vs & _ & _ & _ & -> & _)];
      [by left|right; by left|right; right; by eexists]. }
  destruct (task_chunk (pass t) (world st) (camera st) (column t) rs tail Hend)
    as (_ & _ & _ & _ & _ & Hta & _).
  by rewrite Htr, all_tasks_app, Hta.
Qed.

(** X18. The columns that the pending callbacks stand for are a
    measure of the work left, engine failures included: a click on
    the probe leaves it, a click on the render button adds 600, and
    every column task that runs takes at least one off (exactly one
    when the column is completed and the pass goes on or returns, all
    the columns left of its pass when the engine throws).  Hence,
    from any state, only finitely many column tasks can run before
    the next render click. *)
Theorem pending_columns_measure_the_work_left m0 evs ev :
  let st := exec (init m0) evs in
  let st' := fire st ev in
  match ev with
  | ClickFreezed => remaining (timers st') = remaining (timers st)
  | ClickRender => remaining (timers st') = remaining (timers st) + 600
  | TimerFires k =>
      match timers st !! k with
      | Some t =>
          0 ≤ remaining (timers st') < remaining (timers st) ∧
          (remaining (timers st') = remaining (timers st) - 1 ∨
           uncaught (pass t) (trace st') ∧
           remaining (timers st') = remaining (timers st) - (600 - column t))
      | None => st' = st
      end
  end.
Proof.
  cbn zeta. pose proof (invariant_exec m0 evs) as Hinv.
  pose proof (timers_in_range m0 (evs ++ [ev])) as Hrange.
  rewrite exec_snoc in Hrange. apply remaining_pos in Hrange as [Hpos _].
  set (st := exec (init m0) evs) in *.
  destruct ev as [| |k].
  - done.
  - unfold fire. cbn [step default from_option id].
    rewrite on_render_click_spec by apply (inv_width _ _ Hinv).
    cbn [timers]. rewrite remaining_app, remaining_cons.
    change (remaining []) with 0. cbn [column]. unfold CANVAS_WIDTH. lia.
  - destruct (timers st !! k) as [t|] eqn:Hk;
      [|unfold fire; cbn [step]; by rewrite Hk].
    destruct (timer_of_active m0 st t Hinv) as (_ & Hi & _);
      [by eapply list_elem_of_lookup_2|].
    revert Hpos. unfold fire. cbn [step]. rewrite Hk.
    destruct (timer_callback _ _) as [st'|] eqn:Hcb;
      [|by destruct (timer_callback_total t (set_timers st (delete k (timers st))))
            as [? Hsome]; rewrite Hsome in Hcb].
    cbn [default from_option id].
    destruct (timers_split _ _ _ Hk) as (l1 & l2 & Hl & Hdel).
    apply timer_callback_spec in Hcb
      as (rs & tail & Htr & _ & _ & _ & _ & _ & _ & _ & _ & Hcase).
    cbn [trace canvas timers passes world camera set_timers] in *.
    rewrite (inv_width _ _ Hinv) in Hcase. rewrite Hdel in Hcase. rewrite Hl.
    destruct Hcase as [(_ & _ & [(Hlt & _ & ->)|(Hge & _ & ->)])
                      |(e & vs & -> & _ & _ & -> & ->)];
      rewrite ?remaining_app, ?remaining_cons, ?remaining_app;
      change (remaining []) with 0; cbn [column]; unfold CANVAS_WIDTH in *;
      intros Hpos.
    + split; [lia|left; lia].
    + split; [lia|left; lia].
    + split; [lia|right]. split; [|lia]. exists e. rewrite Htr.
      apply elem_of_app. right. apply elem_of_cons. right.
      apply elem_of_app. right. by left.
Qed.

Lemma drain m0 :
  always_returns →
  ∀ n evs,
    remaining (timers (exec (init m0) evs)) = Z.of_nat n →
    timers (exec (init m0) (evs ++ repeat (TimerFires 0) n)) = [] ∧
    length (all_tasks (trace (exec (init m0) (evs ++ repeat (TimerFires 0) n))))
    = (length (all_tasks (trace (exec (init m0) evs))) + n)%nat.
Proof.
  intros Htotal. induction n as [|n IH]; intros evs Hrem.
  - rewrite app_nil_r. split; [|lia].
    by apply (remaining_pos _ (timers_in_range m0 evs)).
  - assert (Hk : ∃ t, timers (exec (init m0) evs) !! 0%nat = Some t).
    { destruct (timers (exec (init m0) evs)) as [|t ts]; [|by exists t].
      change (remaining []) with 0 in Hrem. lia. }
    destruct Hk as [t Hk].
    pose proof (fire_timer_tasks _ _ _ Hk) as Hta.
    rewrite <- exec_snoc in Hta.
    destruct (exec_budget m0 evs) as [_ Heq].
    destruct (exec_budget m0 (evs ++ [TimerFires 0])) as [_ Heq'].
    cbn zeta in Heq, Heq'. specialize (Heq Htotal). specialize (Heq' Htotal).
    rewrite !exec_passes, render_clicks_snoc, Nat.add_0_r in *.
    rewrite Hta, length_app in Heq'. cbn [length] in Heq'.
    destruct (IH (evs ++ [TimerFires 0])) as [Hnil Hlen]; [lia|].
    rewrite <- app_assoc in Hnil, Hlen. cbn [repeat app] in *.
    split; [done|]. rewrite Hlen, Hta, length_app. simpl. lia.
Qed.

(** X19. With an engine that always returns, whatever is pending
    drains: from the state after any schedule, running the oldest
    pending callback again and again, as many times as there are
    columns left, leaves no callback pending; every pass that was
    started has then returned, exactly that many column tasks have
    run, and if there was a render click at all the canvas holds a
    pixel at each of the 600 by 300 positions. *)
Theorem pending_passes_drain m0 evs :
  always_returns →
  let st := exec (init m0) evs in
  let n := Z.to_nat (remaining (timers st)) in
  let st' := exec (init m0) (evs ++ repeat (TimerFires 0) n) in
  timers st' = [] ∧
  length (all_tasks (trace st')) = (length (all_tasks (trace st)) + n)%nat ∧
  (∀ p, (p < passes st)%nat → ObsDone p ∈ trace st') ∧
  ((0 < passes st)%nat →
   ∀ i j, 0 ≤ i < 600 → 0 ≤ j < 300 → is_Some (bitmap (canvas st') !! (i, j))).
Proof.
  intros Htotal. cbn zeta.
  set (n := Z.to_nat (remaining (timers (exec (init m0) evs)))).
  destruct (drain m0 Htotal n evs) as [Hnil Hlen].
  { subst n. rewrite Z2Nat.id; [done|].
    by apply (remaining_pos _ (timers_in_range m0 evs)). }
  split; [done|]. split; [done|].
  pose proof (invariant_exec m0 (evs ++ repeat (TimerFires 0) n)) as Hinv.
  assert (Hps : passes (exec (init m0) (evs ++ repeat (TimerFires 0) n))
                = passes (exec (init m0) evs)).
  { rewrite !exec_passes. generalize n. clear. intros n.
    induction evs as [|[| |k] evs IH]; simpl; [|done|by rewrite IH|done].
    induction n as [|n IH]; simpl; done. }
  assert (Hdone : ∀ p, (p < passes (exec (init m0) evs))%nat →
            ObsDone p ∈ trace (exec (init m0) (evs ++ repeat (TimerFires 0) n)) ∧
            (calls p (trace (exec (init m0) (evs ++ repeat (TimerFires 0) n)))).*1
            = column_major CANVAS_WIDTH CANVAS_HEIGHT).
  { intros p Hp. rewrite <- Hps in Hp.
    destruct (inv_status _ _ Hinv p)
      as [Hq Hsil Hno|i Hq Hi Ht Hta Hca Hva Hd Hu|Hq Hno Hta Hca Hva Hd Hu
         |i j e vs Hq Hno Hi Hj Hta Hca Hvs Hva Hu Hd].
    - lia.
    - rewrite Hnil in Ht. by apply elem_of_nil in Ht.
    - done.
    - exfalso.
      apply (total_no_raise m0 (evs ++ repeat (TimerFires 0) n) p i j e Htotal).
      rewrite Hca. apply elem_of_app. right. by left. }
  split; [intros p Hp; by apply Hdone|].
  intros Hp i j Hi Hj. destruct (Hdone 0%nat Hp) as [_ Hca].
  assert (Hin : (i, j) ∈ (calls 0 (trace (exec (init m0)
                            (evs ++ repeat (TimerFires 0) n)))).*1).
  { rewrite Hca. by apply column_major_elem. }
  apply list_elem_of_fmap in Hin as ([[i' j'] r] & [= <- <-] & Hin).
  destruct r as [color|e];
    [|by apply (total_no_raise m0 (evs ++ repeat (TimerFires 0) n)
                  0%nat i j e Htotal) in Hin].
  apply (inv_painted _ _ Hinv 0%nat i j (rgba color)).
  - rewrite (inv_puts _ _ Hinv). apply list_elem_of_omap.
    by exists (i, j, Value color).
  - unfold in_canvas. rewrite (inv_width _ _ Hinv), (inv_height _ _ Hinv).
    simpl. unfold CANVAS_WIDTH, CANVAS_HEIGHT.
    repeat (apply andb_true_intro; split); lia.
Qed.

End Driver.

(** ** The driver on the small engines *)

Example probe_three_clicks :
  freezedText
    (exec Gradient.color_at
       (init (Exn:=string) Gradient.create_world Gradient.create_camera
             (mkCanvas 300 150 ∅) "Am I frozen?" 0%nat)
       [ClickFreezed; ClickRender; ClickFreezed; TimerFires 0; ClickFreezed])
  = "No, you are not! (3)".
Proof. vm_compute. reflexivity. Qed.

Example first_column_painted :
  let st := exec Gradient.color_at
              (init (Exn:=string) Gradient.create_world Gradient.create_camera
                    (mkCanvas 300 150 ∅) "Am I frozen?" 0%nat)
              [ClickRender; TimerFires 0] in
  bitmap (canvas st) !! (0, 299) = Some (mkPixel 0 254 255 255) ∧
  bitmap (canvas st) !! (1, 0) = None ∧
  timers st = [mkTimer 0 1] ∧ wasm st = 300%nat.
Proof. vm_compute. done. Qed.

Example trap_stops_the_pass :
  let st := exec Trap.color_at
              (init (Exn:=string) Gradient.create_world Gradient.create_camera
                    (mkCanvas 300 150 ∅) "Am I frozen?" 0%nat)
              [ClickRender; TimerFires 0] in
  bitmap (canvas st) !! (0, 1) = Some (mkPixel 0 1 255 255) ∧
  bitmap (canvas st) !! (0, 2) = None ∧
  timers st = [] ∧ step Trap.color_at st (TimerFires 0) = None.
Proof. vm_compute. done. Qed.

Example half_way_goes_to_even :
  ToUint8Clamp (Finite (5 # 2)) = 2 ∧ ToUint8Clamp (Finite (7 # 2)) = 4 ∧
  ToUint8Clamp NaN = 0 ∧ ToUint8Clamp (Infinity false) = 255 ∧
  sink_byte (1 # 102) = 2 ∧ sink_byte (1 # 2) = 128 ∧
  sink_byte (-3) = 0 ∧ sink_byte 7 = 255.
Proof. vm_compute. done. Qed.

(** [Checked] returns on the raster and fails outside of it. *)
Example checked_engine_returns_in_range :
  returns_in_range (Exn:=string) Gradient.create_world Gradient.create_camera
                   Checked.color_at (mkCanvas 300 150 ∅) "Am I frozen?" 0%nat ∧
  ¬ always_returns (Exn:=string) Checked.color_at.
Proof.
  split.
  - intros i j m Hi Hj. unfold CANVAS_WIDTH, CANVAS_HEIGHT in *.
    change (camera (init _ _ _ _ _)) with (600, 300).
    unfold Checked.color_at. cbn [fst snd].
    replace (0 <=? i) with true by (symmetry; apply Z.leb_le; lia).
    replace (i <? 600) with true by (symmetry; apply Z.ltb_lt; lia).
    replace (0 <=? j) with true by (symmetry; apply Z.leb_le; lia).
    replace (j <? 300) with true by (symmetry; apply Z.ltb_lt; lia).
    exact I.
  - intros Htotal. exact (Htotal tt (600, 300) (-1) 0 0%nat).
Qed.

(** The binary64 product against the multiplication of the Standard
    Library's specification of IEEE 754 floats, on the components used
    here and on the doubles nearest to [k / 255]. *)
Example product_agrees_with_SFmul :
  forallb (λ c, Neqb (Finite 255 * c)
                  (of_spec_float
                     (SFmul 53 1024 (to_spec_float (Finite 255))
                            (to_spec_float c))))
          (Finite Flat.dim :: Finite (1 # 2) :: Finite (2 ^ 1020)
           :: Finite (- (1 # 2 ^ 1074)) :: Infinity false :: Infinity true
           :: NaN :: ((λ k, binary64 (k # 255)) <$> seqZ (-3) 262))
  = true.
Proof. vm_compute. reflexivity. Qed.

(** ** Where the stored byte leaves the formula of the sink *)

(** The engine returns everywhere a color whose green component is the
    double 4662550202454161 / 2^56.  The exact product with 255 lies
    strictly between 16.5 and 17, so [round(255 * clamp(green, 0, 1))]
    is 17 under every rounding to the nearest integer; the binary64
    product is exactly 16.5, and the byte that the driver puts on the
    canvas is 16. *)
Lemma stored_byte_is_not_the_sink_byte :
  let st := exec Flat.color_at
              (init (Exn:=string) Gradient.create_world Gradient.create_camera
                    (mkCanvas 300 150 ∅) "Am I frozen?" 0%nat)
              [ClickRender; TimerFires 0] in
  Neqb (binary64 Flat.dim) (Finite Flat.dim) = true ∧
  (0, 0, Value Flat.color) ∈ calls 0 (trace st) ∧
  (0, 0, [0; 16; 128; 255]) ∈ puts 0 (trace st) ∧
  bitmap (canvas st) !! (0, 0) = Some (mkPixel 0 16 128 255) ∧
  ((33 # 2 < 255 * Flat.dim)%Q ∧ (255 * Flat.dim < 17)%Q) ∧
  sink_byte Flat.dim = 17 ∧
  Neqb (Finite 255 * Finite Flat.dim) (Finite (33 # 2)) = true ∧
  ¬ (∀ x y d, (x, y, d) ∈ puts 0 (trace st) →
       ∃ color, (x, y, Value color) ∈ calls 0 (trace st) ∧
                ∀ g, green color = Finite g → d !! 1%nat = Some (sink_byte g)).
Proof.
  assert (Hcall : (0, 0, Value Flat.color)
                  ∈ calls 0 (trace (exec Flat.color_at
                      (init (Exn:=string) Gradient.create_world
                            Gradient.create_camera (mkCanvas 300 150 ∅)
                            "Am I frozen?" 0%nat)
                      [ClickRender; TimerFires 0]))).
  { vm_compute. apply list_elem_of_here. }
  assert (Hput : (0, 0, [0; 16; 128; 255])
                 ∈ puts 0 (trace (exec Flat.color_at
                     (init (Exn:=string) Gradient.create_world
                           Gradient.create_camera (mkCanvas 300 150 ∅)
                           "Am I frozen?" 0%nat)
                     [ClickRender; TimerFires 0]))).
  { vm_compute. apply list_elem_of_here. }
  cbn zeta. split; [by vm_compute|]. split; [exact Hcall|]. split; [exact Hput|].
  split; [by vm_compute|]. split; [by vm_compute|]. split; [by vm_compute|].
  split; [by vm_compute|].
  intros Hall. destruct (Hall _ _ _ Hput) as (color & Hin & Hgreen).
  assert (Hflat : Forall (λ call, call.2 = Value Flat.color)
                    (calls 0 (trace (exec Flat.color_at
                       (init (Exn:=string) Gradient.create_world
                             Gradient.create_camera (mkCanvas 300 150 ∅)
                             "Am I frozen?" 0%nat)
                       [ClickRender; TimerFires 0])))).
  { vm_compute. repeat constructor. }
  rewrite Forall_forall in Hflat. apply Hflat in Hin. injection Hin as ->.
  specialize (Hgreen Flat.dim eq_refl). by vm_compute in Hgreen.
Qed.

(** ** Instances of the claims with premises *)

Lemma failed_pixel_not_written_witness :
  let st := exec Trap.color_at
              (init (Exn:=string) Gradient.create_world Gradient.create_camera
                    (mkCanvas 300 150 ∅) "Am I frozen?" 0%nat)
              [ClickRender; TimerFires 0] in
  (0, 2, Raise "unreachable") ∈ calls 0 (trace st) ∧
  ((∀ d, (0, 2, d) ∉ puts 0 (trace st)) ∧
   (∃ vs, calls 0 (trace st) = vs ++ [(0, 2, Raise "unreachable")]) ∧
   (∀ st0 q x y e' st1, render_pixel Trap.color_at q x y st0 = Threw e' st1 →
                        canvas st1 = canvas st0)).
Proof.
  assert (Hin : (0, 2, Raise "unreachable")
                ∈ calls 0 (trace (exec Trap.color_at
                    (init (Exn:=string) Gradient.create_world
                          Gradient.create_camera (mkCanvas 300 150 ∅)
                          "Am I frozen?" 0%nat)
                    [ClickRender; TimerFires 0]))).
  { vm_compute. do 2 apply list_elem_of_further. apply list_elem_of_here. }
  split; [exact Hin|].
  exact (failed_pixel_not_written Gradient.create_world Gradient.create_camera
           Trap.color_at (mkCanvas 300 150 ∅) "Am I frozen?" 0%nat
           [ClickRender; TimerFires 0] 0%nat 0 2 "unreachable" Hin).
Defined.

Lemma render_pass_completes_witness :
  let st := exec Checked.color_at
              (init (Exn:=string) Gradient.create_world Gradient.create_camera
                    (mkCanvas 300 150 ∅) "Am I frozen?" 0%nat)
              [ClickRender; TimerFires 0] in
  Forall is_value (results (trace st)) ∧
  (0 < passes st)%nat ∧
  ((∃ n, tasks 0 (trace st) = seqZ 0 n ∧ 0 ≤ n ≤ 600 ∧
      (n < 600 → mkTimer 0 n ∈ timers st ∧ ObsDone 0 ∉ trace st) ∧
      (n = 600 →
       (0%nat ∉ pass <$> timers st) ∧ ObsDone 0 ∈ trace st ∧
       ∀ i j, 0 ≤ i < 600 → 0 ≤ j < 300 →
              ∃ px, bitmap (canvas st) !! (i, j) = Some px ∧ A px = 255)) ∧
   (∀ k t, timers st !! k = Some t →
      ∃ st', step Checked.color_at st (TimerFires k) = Some st' ∧
             tasks (pass t) (trace st') = tasks (pass t) (trace st) ++ [column t] ∧
             (Forall is_value (results (trace st')) →
              if column t + 1 <? 600
              then mkTimer (pass t) (column t + 1) ∈ timers st'
              else ObsDone (pass t) ∈ trace st' ∧
                   pass t ∉ pass <$> timers st')) ∧
   (let st := exec Checked.color_at
                (init (Exn:=string) Gradient.create_world Gradient.create_camera
                      (mkCanvas 300 150 ∅) "Am I frozen?" 0%nat)
                (ClickRender :: repeat (TimerFires 0) 600) in
    Forall is_value (results (trace st)) →
    all_tasks (trace st) = pair 0%nat <$> seqZ 0 600 ∧
    ObsDone 0 ∈ trace st ∧ timers st = []) ∧
   (returns_in_range (Exn:=string) Gradient.create_world Gradient.create_camera
                     Checked.color_at (mkCanvas 300 150 ∅) "Am I frozen?" 0%nat →
    ∀ evs', Forall is_value (results (trace (exec Checked.color_at
              (init (Exn:=string) Gradient.create_world Gradient.create_camera
                    (mkCanvas 300 150 ∅) "Am I frozen?" 0%nat) evs'))))).
Proof.
  assert (Hret : Forall is_value (results (trace (exec Checked.color_at
                    (init (Exn:=string) Gradient.create_world
                          Gradient.create_camera (mkCanvas 300 150 ∅)
                          "Am I frozen?" 0%nat)
                    [ClickRender; TimerFires 0])))).
  { vm_compute. repeat constructor. }
  assert (Hp : (0 < passes (exec Checked.color_at
                    (init (Exn:=string) Gradient.create_world
                          Gradient.create_camera (mkCanvas 300 150 ∅)
                          "Am I frozen?" 0%nat)
                    [ClickRender; TimerFires 0]))%nat).
  { vm_compute. lia. }
  split; [exact Hret|]. split; [exact Hp|].
  exact (render_pass_completes Gradient.create_world Gradient.create_camera
           Checked.color_at (mkCanvas 300 150 ∅) "Am I frozen?" 0%nat
           [ClickRender; TimerFires 0] 0%nat Hret Hp).
Defined.

(** ** Instances of the further properties with premises *)

Lemma stored_byte_monotone_witness :
  Nle (Finite (1 # 4)) (Finite (1 # 2)) ∧
  ToUint8Clamp (Finite 255 * Finite (1 # 4))
  ≤ ToUint8Clamp (Finite 255 * Finite (1 # 2)).
Proof.
  assert (H : Nle (Finite (1 # 4)) (Finite (1 # 2)))
    by (unfold Nle, Qle; simpl; lia).
  split; [exact H|].
  exact (stored_byte_monotone (Finite (1 # 4)) (Finite (1 # 2)) H).
Defined.

Lemma eight_bit_component_round_trip_witness :
  0 ≤ 128 ≤ 255 ∧ ToUint8Clamp (Finite 255 * binary64 (128 # 255)) = 128.
Proof.
  assert (H : 0 ≤ 128 ≤ 255) by lia.
  split; [exact H|]. exact (eight_bit_component_round_trip 128 H).
Defined.

Lemma column_task_leaves_other_passes_witness :
  let st := exec Gradient.color_at
              (init (Exn:=string) Gradient.create_world Gradient.create_camera
                    (mkCanvas 300 150 ∅) "Am I frozen?" 0%nat)
              [ClickRender; ClickRender] in
  timers st !! 0%nat = Some (mkTimer 0 0) ∧
  1%nat ≠ pass (mkTimer 0 0) ∧
  (let st' := fire Gradient.color_at st (TimerFires 0) in
   calls 1 (trace st') = calls 1 (trace st) ∧
   puts 1 (trace st') = puts 1 (trace st) ∧
   tasks 1 (trace st') = tasks 1 (trace st) ∧
   (∀ i, mkTimer 1 i ∈ timers st' ↔ mkTimer 1 i ∈ timers st)).
Proof.
  assert (Hk : timers (exec Gradient.color_at
                 (init (Exn:=string) Gradient.create_world
                       Gradient.create_camera (mkCanvas 300 150 ∅)
                       "Am I frozen?" 0%nat)
                 [ClickRender; ClickRender]) !! 0%nat = Some (mkTimer 0 0)).
  { vm_compute. reflexivity. }
  assert (Hp : 1%nat ≠ pass (mkTimer 0 0)) by (simpl; lia).
  split; [exact Hk|]. split; [exact Hp|].
  exact (column_task_leaves_other_passes Gradient.create_world
           Gradient.create_camera Gradient.color_at (mkCanvas 300 150 ∅)
           "Am I frozen?" 0%nat [ClickRender; ClickRender] 0%nat (mkTimer 0 0)
           1%nat Hk Hp).
Defined.

Lemma settled_pass_never_acts_again_witness :
  let st := exec Trap.color_at
              (init (Exn:=string) Gradient.create_world Gradient.create_camera
                    (mkCanvas 300 150 ∅) "Am I frozen?" 0%nat)
              [ClickRender; TimerFires 0] in
  let st' := exec Trap.color_at
               (init (Exn:=string) Gradient.create_world Gradient.create_camera
                     (mkCanvas 300 150 ∅) "Am I frozen?" 0%nat)
               ([ClickRender; TimerFires 0] ++ [ClickRender; TimerFires 0]) in
  (ObsDone 0 ∈ trace st ∨ uncaught 0 (trace st)) ∧
  (calls 0 (trace st') = calls 0 (trace st) ∧
   puts 0 (trace st') = puts 0 (trace st) ∧
   tasks 0 (trace st') = tasks 0 (trace st) ∧
   (0%nat ∉ pass <$> timers st')).
Proof.
  assert (Hsettled :
    ObsDone 0 ∈ trace (exec Trap.color_at
                   (init (Exn:=string) Gradient.create_world
                         Gradient.create_camera (mkCanvas 300 150 ∅)
                         "Am I frozen?" 0%nat)
                   [ClickRender; TimerFires 0]) ∨
    uncaught 0 (trace (exec Trap.color_at
                   (init (Exn:=string) Gradient.create_world
                         Gradient.create_camera (mkCanvas 300 150 ∅)
                         "Am I frozen?" 0%nat)
                   [ClickRender; TimerFires 0]))).
  { right. exists "unreachable". vm_compute.
    do 9 apply list_elem_of_further. apply list_elem_of_here. }
  split; [exact Hsettled|].
  exact (settled_pass_never_acts_again Gradient.create_world
           Gradient.create_camera Trap.color_at (mkCanvas 300 150 ∅)
           "Am I frozen?" 0%nat [ClickRender; TimerFires 0]
           [ClickRender; TimerFires 0] 0%nat Hsettled).
Defined.

Lemma memoryless_engine_fixes_the_picture_witness :
  let st := exec Gradient.color_at
              (init (Exn:=string) Gradient.create_world Gradient.create_camera
                    (mkCanvas 300 150 ∅) "Am I frozen?" 0%nat)
              [ClickRender; TimerFires 0] in
  memoryless (Exn:=string) Gradient.color_at ∧
  bitmap (canvas st) !! (0, 299) = Some (mkPixel 0 254 255 255) ∧
  (∀ m, ∃ color,
     (Gradient.color_at (world st) (camera st) 0 299 m).1 = Value color ∧
     mkPixel 0 254 255 255 = rgba_pixel color).
Proof.
  assert (Hpure : memoryless (Exn:=string) Gradient.color_at).
  { intros w c i j m m'. reflexivity. }
  assert (Hpx : bitmap (canvas (exec Gradient.color_at
                  (init (Exn:=string) Gradient.create_world
                        Gradient.create_camera (mkCanvas 300 150 ∅)
                        "Am I frozen?" 0%nat)
                  [ClickRender; TimerFires 0])) !! (0, 299)
                = Some (mkPixel 0 254 255 255)).
  { vm_compute. reflexivity. }
  split; [exact Hpure|]. split; [exact Hpx|].
  exact (memoryless_engine_fixes_the_picture Gradient.create_world
           Gradient.create_camera Gradient.color_at (mkCanvas 300 150 ∅)
           "Am I frozen?" 0%nat [ClickRender; TimerFires 0] 0 299
           (mkPixel 0 254 255 255) Hpure Hpx).
Defined.

Lemma repainting_changes_nothing_witness :
  memoryless (Exn:=string) Gradient.color_at ∧
  bitmap (canvas (exec Gradient.color_at
            (init (Exn:=string) Gradient.create_world Gradient.create_camera
                  (mkCanvas 300 150 ∅) "Am I frozen?" 0%nat)
            [ClickRender; TimerFires 0])) !! (0, 299)
  = Some (mkPixel 0 254 255 255) ∧
  bitmap (canvas (exec Gradient.color_at
            (init (Exn:=string) Gradient.create_world Gradient.create_camera
                  (mkCanvas 300 150 ∅) "Am I frozen?" 0%nat)
            ([ClickRender; TimerFires 0] ++ [ClickRender; TimerFires 1])))
    !! (0, 299)
  = Some (mkPixel 0 254 255 255).
Proof.
  assert (Hpure : memoryless (Exn:=string) Gradient.color_at).
  { intros w c i j m m'. reflexivity. }
  assert (Hpx : bitmap (canvas (exec Gradient.color_at
                  (init (Exn:=string) Gradient.create_world
                        Gradient.create_camera (mkCanvas 300 150 ∅)
                        "Am I frozen?" 0%nat)
                  [ClickRender; TimerFires 0])) !! (0, 299)
                = Some (mkPixel 0 254 255 255)).
  { vm_compute. reflexivity. }
  split; [exact Hpure|]. split; [exact Hpx|].
  exact (repainting_changes_nothing Gradient.create_world
           Gradient.create_camera Gradient.color_at (mkCanvas 300 150 ∅)
           "Am I frozen?" 0%nat [ClickRender; TimerFires 0]
           [ClickRender; TimerFires 1] 0 299 (mkPixel 0 254 255 255) Hpure Hpx).
Defined.

Lemma painted_pixel_stays_painted_witness :
  is_Some (bitmap (canvas (exec Trap.color_at
            (init (Exn:=string) Gradient.create_world Gradient.create_camera
                  (mkCanvas 300 150 ∅) "Am I frozen?" 0%nat)
            [ClickRender; TimerFires 0])) !! (0, 1)) ∧
  is_Some (bitmap (canvas (exec Trap.color_at
            (init (Exn:=string) Gradient.create_world Gradient.create_camera
                  (mkCanvas 300 150 ∅) "Am I frozen?" 0%nat)
            ([ClickRender; TimerFires 0] ++ [ClickRender; TimerFires 0])))
           !! (0, 1)).
Proof.
  assert (Hpx : is_Some (bitmap (canvas (exec Trap.color_at
                  (init (Exn:=string) Gradient.create_world
                        Gradient.create_camera (mkCanvas 300 150 ∅)
                        "Am I frozen?" 0%nat)
                  [ClickRender; TimerFires 0])) !! (0, 1))).
  { exists (mkPixel 0 1 255 255). vm_compute. reflexivity. }
  split; [exact Hpx|].
  exact (painted_pixel_stays_painted Gradient.create_world
           Gradient.create_camera Trap.color_at (mkCanvas 300 150 ∅)
           "Am I frozen?" 0%nat [ClickRender; TimerFires 0]
           [ClickRender; TimerFires 0] 0 1 Hpx).
Defined.

Lemma column_tasks_conserved_witness :
  let st := exec Gradient.color_at
              (init (Exn:=string) Gradient.create_world Gradient.create_camera
                    (mkCanvas 300 150 ∅) "Am I frozen?" 0%nat)
              [ClickRender; TimerFires 0] in
  always_returns (Exn:=string) Gradient.color_at ∧
  (Z.of_nat (length (all_tasks (trace st))) + remaining (timers st)
     = 600 * Z.of_nat (render_clicks [ClickRender; TimerFires 0]) ∧
   (timers st = [] ↔
    Z.of_nat (length (all_tasks (trace st)))
    = 600 * Z.of_nat (render_clicks [ClickRender; TimerFires 0]))).
Proof.
  assert (Htotal : always_returns (Exn:=string) Gradient.color_at).
  { intros w c i j m. simpl. exact I. }
  split; [exact Htotal|].
  exact (column_tasks_conserved Gradient.create_world Gradient.create_camera
           Gradient.color_at (mkCanvas 300 150 ∅) "Am I frozen?" 0%nat
           [ClickRender; TimerFires 0] Htotal).
Defined.

Lemma pending_passes_drain_witness :
  let st := exec Gradient.color_at
              (init (Exn:=string) Gradient.create_world Gradient.create_camera
                    (mkCanvas 300 150 ∅) "Am I frozen?" 0%nat)
              [ClickRender; TimerFires 0] in
  let n := Z.to_nat (remaining (timers st)) in
  let st' := exec Gradient.color_at
               (init (Exn:=string) Gradient.create_world Gradient.create_camera
                     (mkCanvas 300 150 ∅) "Am I frozen?" 0%nat)
               ([ClickRender; TimerFires 0] ++ repeat (TimerFires 0) n) in
  always_returns (Exn:=string) Gradient.color_at ∧
  (timers st' = [] ∧
   length (all_tasks (trace st')) = (length (all_tasks (trace st)) + n)%nat ∧
   (∀ p, (p < passes st)%nat → ObsDone p ∈ trace st') ∧
   ((0 < passes st)%nat →
    ∀ i j, 0 ≤ i < 600 → 0 ≤ j < 300 → is_Some (bitmap (canvas st') !! (i, j)))).
Proof.
  assert (Htotal : always_returns (Exn:=string) Gradient.color_at).
  { intros w c i j m. simpl. exact I. }
  split; [exact Htotal|].
  exact (pending_passes_drain Gradient.create_world Gradient.create_camera
           Gradient.color_at (mkCanvas 300 150 ∅) "Am I frozen?" 0%nat
           [ClickRender; TimerFires 0] Htotal).
Defined.
